(** * Video-to-Text: the segmentation-and-reassembly transcription pipeline

    A shallow embedding of the Express server of the repository (the
    transcription route, [transcribeFile], [transcribeLargeFile],
    [runLocalWhisper]) together with the properties its specification
    states about it.

    Conventions of the embedding.
    - A JavaScript string is a [string]: a sequence of code units, here the
      code units below 256 (Latin-1).  [trim] and [toLowerCase] are the
      ECMAScript functions restricted to that range.
    - A duration is a rational number.  On the segmentation loop, IEEE
      double arithmetic is exact for every duration below 2^53 seconds:
      the running start is an integer multiple of 600, so [duration - start]
      and [start + segDuration] are representable; the loop over [Q]
      therefore computes the very values the program computes.
    - A file size is a natural number of bytes ([N]).
    - The file system is a finite map from paths to sizes.
    - Everything outside the program (FFmpeg, ffprobe, the OpenAI client,
      the Python child process, failures of [fs.unlink]) is an oracle of the
      environment [Env]; each oracle receives the events observed so far, so
      that its answers may depend on the whole history of the job.
    - Effects are threaded by a state-and-exception monad [M L A] whose state
      is the world (file system and event trace) and the mutable locals [L]
      of the running function; a thrown error keeps the state, as in
      JavaScript. *)

From Stdlib Require Import QArith Qround Qminmax Lqa Lia ZArith NArith Ascii String List.
From stdpp Require Import base option list gmap strings pretty.
From Equations Require Import Equations.
Import ListNotations.

Set Default Proof Using "Type".

(** ** Strings *)

Module JsString.

Definition LF : string := String "010"%char EmptyString.

(** ECMAScript WhiteSpace and LineTerminator code units below 256:
    TAB, LF, VT, FF, CR, SP, NBSP. *)
Definition is_ws (c : ascii) : bool :=
  match N_of_ascii c with
  | 9 | 10 | 11 | 12 | 13 | 32 | 160 => true
  | _ => false
  end%N.

Fixpoint trimStart (s : string) : string :=
  match s with
  | EmptyString => EmptyString
  | String c s' => if is_ws c then trimStart s' else s
  end.

Fixpoint trimEnd (s : string) : string :=
  match s with
  | EmptyString => EmptyString
  | String c s' =>
      match trimEnd s' with
      | EmptyString => if is_ws c then EmptyString else String c EmptyString
      | r => String c r
      end
  end.

(** [String.prototype.trim] *)
Definition trim (s : string) : string := trimEnd (trimStart s).

Definition lower_char (c : ascii) : ascii :=
  let n := N_of_ascii c in
  if ((65 <=? n) && (n <=? 90)
      || (192 <=? n) && (n <=? 222) && negb (n =? 215))%N
  then ascii_of_N (n + 32) else c.

(** [String.prototype.toLowerCase] *)
Fixpoint toLowerCase (s : string) : string :=
  match s with
  | EmptyString => EmptyString
  | String c s' => String (lower_char c) (toLowerCase s')
  end.

(** [hay.includes(needle)] *)
Fixpoint includes (hay needle : string) : bool :=
  String.prefix needle hay
  || match hay with
     | EmptyString => false
     | String _ hay' => includes hay' needle
     end.

(** [Boolean(s)] for a string *)
Definition truthy (s : string) : bool :=
  match s with EmptyString => false | _ => true end.

(** [a || b] where [a] is a string *)
Definition or_else (a b : string) : string := if truthy a then a else b.

(** [a || b] where [a] is a string or [undefined] *)
Definition or_default (a : option string) (b : string) : string :=
  match a with
  | Some s => or_else s b
  | None => b
  end.

(** [Array.prototype.join] *)
Definition join (sep : string) (parts : list string) : string :=
  String.concat sep parts.

End JsString.
Import JsString.

(** ** Constants of the server *)

Definition MAX_FILE_SIZE : N := 200 * 1024 * 1024.
Definition WHISPER_MAX_SIZE : N := 25 * 1024 * 1024.
Definition SEGMENT_DURATION_SEC : Q := 600.
Definition NO_SPEECH : string := "(No speech detected)".

(** ** The segment plan

    The arithmetic of the segmentation loop of [transcribeLargeFile]:

      let start = 0;
      while (start < duration) {
        const segDuration = Math.min(SEGMENT_DURATION_SEC, duration - start);
        ... (start, segDuration) ...
        start += segDuration;
      }

    for a segment length [L]; the program runs it at
    [L = SEGMENT_DURATION_SEC].  The loop terminates because [L] is
    positive: [iterations_left] counts the turns still to come. *)

Lemma inject_Z_pred (z : Z) : inject_Z (z - 1) = (inject_Z z - 1)%Q.
Proof. unfold Z.sub. rewrite inject_Z_plus. reflexivity. Qed.

Lemma inject_Z_succ (z : Z) : inject_Z (z + 1) = (inject_Z z + 1)%Q.
Proof. rewrite inject_Z_plus. reflexivity. Qed.

Lemma Qceiling_unique (x : Q) (z : Z) :
  (inject_Z z - 1 < x)%Q -> (x <= inject_Z z)%Q -> Qceiling x = z.
Proof.
  intros Hlo Hhi.
  pose proof (Qle_ceiling x) as Hle.
  pose proof (Qceiling_lt x) as Hlt.
  rewrite inject_Z_pred in Hlt.
  assert (H1 : (inject_Z (Qceiling x) < inject_Z (z + 1))%Q)
    by (rewrite inject_Z_succ; lra).
  assert (H2 : (inject_Z (z - 1) < inject_Z (Qceiling x))%Q)
    by (rewrite inject_Z_pred; lra).
  rewrite <- Zlt_Qlt in H1, H2. lia.
Qed.

Lemma Qceiling_pred (x : Q) : Qceiling (x - 1) = (Qceiling x - 1)%Z.
Proof.
  apply Qceiling_unique.
  - pose proof (Qceiling_lt x) as Hlt.
    rewrite !inject_Z_pred in *. lra.
  - pose proof (Qle_ceiling x) as Hle.
    rewrite inject_Z_pred. lra.
Qed.

Lemma Qceiling_pos (x : Q) : (0 < x)%Q -> (0 < Qceiling x)%Z.
Proof.
  intros Hx. pose proof (Qle_ceiling x) as Hle.
  rewrite Zlt_Qlt. change (inject_Z 0) with 0%Q. lra.
Qed.

Section Plan.
Variable L : Q.
Hypothesis L_pos : (0 < L)%Q.

Definition iterations_left (duration start : Q) : nat :=
  Z.to_nat (Qceiling ((duration - start) / L)).

Lemma iterations_left_step (duration start : Q) :
  (start < duration)%Q ->
  iterations_left duration start
  = S (iterations_left duration (start + Qmin L (duration - start))).
Proof using L_pos.
  intros Hlt. unfold iterations_left.
  set (r := ((duration - start) / L)%Q).
  assert (Hr : (0 < r)%Q).
  { unfold r. apply Qlt_shift_div_l; [exact L_pos | lra]. }
  pose proof (Qceiling_pos r Hr) as Hc.
  destruct (Qlt_le_dec L (duration - start)) as [Hbig|Hsmall].
  - assert (Hmin : (Qmin L (duration - start) == L)%Q)
      by (apply Q.min_l; lra).
    assert (Heq : ((duration - (start + Qmin L (duration - start))) / L
                   == r - 1)%Q).
    { rewrite Hmin. unfold r. field. lra. }
    rewrite Heq, Qceiling_pred. lia.
  - assert (Hmin : (Qmin L (duration - start) == duration - start)%Q)
      by (apply Q.min_r; lra).
    assert (Heq : ((duration - (start + Qmin L (duration - start))) / L
                   == 0)%Q).
    { rewrite Hmin. field. lra. }
    rewrite Heq. change (Qceiling 0) with 0%Z.
    assert (Hone : Qceiling r = 1%Z).
    { apply Qceiling_unique; change (inject_Z 1) with 1%Q; [lra|].
      unfold r. apply Qle_shift_div_r; [exact L_pos | lra]. }
    rewrite Hone. reflexivity.
Qed.

Lemma iterations_left_done (duration start : Q) :
  (duration <= start)%Q -> iterations_left duration start = 0%nat.
Proof using L_pos.
  intros Hle. unfold iterations_left.
  assert (Hr : ((duration - start) / L <= 0)%Q).
  { apply Qle_shift_div_r; [exact L_pos | lra]. }
  pose proof (Qceiling_resp_le _ _ Hr) as Hc.
  change (Qceiling 0) with 0%Z in Hc. lia.
Qed.

Equations plan_from (duration start : Q) : list (Q * Q)
  by wf (iterations_left duration start) lt :=
  plan_from duration start with Qlt_le_dec start duration => {
    | left _ =>
        let segDuration := Qmin L (duration - start) in
        (start, segDuration) :: plan_from duration (start + segDuration);
    | right _ => [] }.
Next Obligation. rewrite (iterations_left_step duration start); [lia | assumption]. Qed.

(** The whole plan: the loop entered at [start = 0]. *)
Definition plan (duration : Q) : list (Q * Q) := plan_from duration 0.

End Plan.

Lemma SEGMENT_DURATION_SEC_pos : (0 < SEGMENT_DURATION_SEC)%Q.
Proof. reflexivity. Qed.

(** ** Errors, events, the world and the environment *)

(** The fields of a thrown value that the route's [catch] block reads:
    [err.message], [err.name], [err.status], [err.code], [err.cause?.code]. *)
Record js_error := {
  err_message : option string;
  err_name : string;
  err_status : option Z;
  err_code : option string;
  err_cause_code : option string;
}.

(** [new Error(msg)] *)
Definition new_Error (msg : string) : js_error :=
  {| err_message := Some msg; err_name := "Error"; err_status := None;
     err_code := None; err_cause_code := None |}.

(** [fs] rejects with this error when the system call [syscall] meets a
    path that does not exist. *)
Definition ENOENT (syscall p : string) : js_error :=
  {| err_message :=
       Some ("ENOENT: no such file or directory, " +:+ syscall
             +:+ " '" +:+ p +:+ "'");
     err_name := "Error"; err_status := None;
     err_code := Some "ENOENT"; err_cause_code := None |}.

(** How the Python child process ends: the ['error'] event (with
    [err.message]) or the ['close'] event (with the exit code, [null] when
    killed by a signal, and what was collected on stdout and stderr). *)
Inductive child_result :=
| ChildError (msg : string)
| ChildClose (code : option Z) (stdout stderr : string).

(** The body of a response: [{ text }] or [{ error }]. *)
Inductive body :=
| BodyText (text : string)
| BodyError (error : string).

Record response := { res_status : Z; res_body : body }.

(** What the program does to the outside, with what came back. *)
Inductive event :=
| EvExtractAudio (inputPath outputPath : string) (r : js_error + N)
| EvFfprobe (inputPath : string) (r : js_error + option Q)
| EvExtractSegment (inputPath outputPath : string) (startSec durationSec : Q)
    (r : js_error + N)
| EvStat (p : string) (r : js_error + N)
| EvCreateTranscription (openai p : string) (r : js_error + option string)
| EvUnlink (p : string) (r : js_error + unit)
| EvSpawnPython (filePath : string) (r : child_result)
| EvConsoleError (err : js_error)
| EvConsoleWarn (msg : option string)
| EvResponse (res : response).

Record world := {
  fs : gmap string N;
  trace : list event;
}.

(** The environment of the process.  The Node [path] module and the
    install directory behind [TEMP_DIR] are parameters; so is the reading of
    one property of a JSON text: [JSON_parse_get k src] is [None] when
    [JSON.parse(src)[k]] throws, [Some None] when the property is absent
    or falsy, [Some (Some s)] when it is the string [s].  A run of the
    media tool either completes, and then (answer [inr size]) its output
    file exists with that size, or fails; a run that fails may have
    written a part of its output before: [ffmpeg_partial_output h p] is
    the size of the file that a run failing after the history [h] leaves
    at its output path [p], if it leaves one. *)
Record Env := {
  env_TRANSCRIPTION_MODE : option string;
  env_OPENAI_API_KEY : option string;
  TEMP_DIR : string;
  path_join : string -> string -> string;
  path_basename : string -> string -> string;
  path_extname : string -> string;
  JSON_parse_get : string -> string -> option (option string);
  ffmpeg_extractAudio : list event -> string -> string -> js_error + N;
  ffmpeg_ffprobe : list event -> string -> js_error + option Q;
  ffmpeg_extractSegment :
    list event -> string -> string -> Q -> Q -> js_error + N;
  ffmpeg_partial_output : list event -> string -> option N;
  openai_transcriptions_create :
    list event -> string -> string -> js_error + option string;
  unlink_failure : list event -> string -> option js_error;
  spawn_python : list event -> string -> child_result;
}.

(** [(process.env.TRANSCRIPTION_MODE || 'api').toLowerCase()] *)
Definition TRANSCRIPTION_MODE (env : Env) : string :=
  toLowerCase (or_default (env_TRANSCRIPTION_MODE env) "api").

(** ** The monad *)

Record outcome (L A : Type) := Out {
  out_locals : L;
  out_world : world;
  out_result : js_error + A;
}.
Arguments Out {L A} _ _ _.
Arguments out_locals {L A} _.
Arguments out_world {L A} _.
Arguments out_result {L A} _.

Definition M (L A : Type) : Type := L -> world -> outcome L A.

Definition ret {L A} (a : A) : M L A := fun l w => Out l w (inr a).

Definition throw {L A} (e : js_error) : M L A := fun l w => Out l w (inl e).

Definition bind {L A B} (m : M L A) (k : A -> M L B) : M L B :=
  fun l w =>
    let o := m l w in
    match out_result o with
    | inl e => Out (out_locals o) (out_world o) (inl e)
    | inr a => k a (out_locals o) (out_world o)
    end.

Notation "'let!' x ':=' m 'in' k" := (bind m (fun x => k))
  (at level 10, x name, m at level 100, k at level 200).
Notation "m '>>' k" := (bind m (fun _ => k))
  (at level 100, k at level 200, right associativity).

(** [try { body } catch (err) { handler err }] *)
Definition try_catch {L A} (body : M L A) (handler : js_error -> M L A)
  : M L A :=
  fun l w =>
    let o := body l w in
    match out_result o with
    | inl e => handler e (out_locals o) (out_world o)
    | inr _ => o
    end.

(** [try { body } finally { fin }]: an error thrown by [fin] replaces the
    completion of [body]; otherwise the completion of [body] stands. *)
Definition try_finally {L A} (body : M L A) (fin : M L unit) : M L A :=
  fun l w =>
    let o := body l w in
    let o' := fin (out_locals o) (out_world o) in
    match out_result o' with
    | inl e => Out (out_locals o') (out_world o') (inl e)
    | inr _ => Out (out_locals o') (out_world o') (out_result o)
    end.

(** Calling a function: the callee runs on its own locals. *)
Definition call {L L' A} (locals : L') (f : M L' A) : M L A :=
  fun l w =>
    let o := f locals w in Out l (out_world o) (out_result o).

Definition get_locals {L} : M L L := fun l w => Out l w (inr l).

Definition set_locals {L} (l' : L) : M L unit := fun _ w => Out l' w (inr tt).

Definition log_event (e : event) (w : world) : world :=
  {| fs := fs w; trace := trace w ++ [e] |}.

Definition write_file (p : string) (size : N) (w : world) : world :=
  {| fs := <[p := size]> (fs w); trace := trace w |}.

Definition remove_file (p : string) (w : world) : world :=
  {| fs := delete p (fs w); trace := trace w |}.

Definition emit {L} (e : event) : M L unit :=
  fun l w => Out l (log_event e w) (inr tt).

(** ** The collaborators, as the program calls them *)

Section Server.
Context (env : Env).

(** What a failed run of the media tool, started in the world [w], leaves
    at [outputPath]. *)
Definition leave_partial (outputPath : string) (w w' : world) : world :=
  match ffmpeg_partial_output env (trace w) outputPath with
  | Some size => write_file outputPath size w'
  | None => w'
  end.

(** [extractAudio(inputPath, outputPath)]: resolves to [outputPath]. *)
Definition extractAudio {L} (inputPath outputPath : string) : M L string :=
  fun l w =>
    let r := ffmpeg_extractAudio env (trace w) inputPath outputPath in
    let w' := log_event (EvExtractAudio inputPath outputPath r) w in
    match r with
    | inl e => Out l (leave_partial outputPath w w') (inl e)
    | inr size => Out l (write_file outputPath size w') (inr outputPath)
    end.

(** [getDuration(inputPath)]: resolves to [data.format.duration || 0];
    the oracle answers [None] for a duration that is [undefined] or
    [NaN], and [0 || 0] is [0]. *)
Definition getDuration {L} (inputPath : string) : M L Q :=
  fun l w =>
    let r := ffmpeg_ffprobe env (trace w) inputPath in
    let w' := log_event (EvFfprobe inputPath r) w in
    match r with
    | inl e => Out l w' (inl e)
    | inr (Some d) => Out l w' (inr d)
    | inr None => Out l w' (inr 0%Q)
    end.

(** [extractSegment(inputPath, outputPath, startSec, durationSec)] *)
Definition extractSegment {L} (inputPath outputPath : string)
    (startSec durationSec : Q) : M L string :=
  fun l w =>
    let r := ffmpeg_extractSegment env (trace w) inputPath outputPath
               startSec durationSec in
    let w' := log_event
                (EvExtractSegment inputPath outputPath startSec durationSec r)
                w in
    match r with
    | inl e => Out l (leave_partial outputPath w w') (inl e)
    | inr size => Out l (write_file outputPath size w') (inr outputPath)
    end.

(** [fs.stat(p)], of which the program reads [.size]. *)
Definition fs_stat {L} (p : string) : M L N :=
  fun l w =>
    let r := match fs w !! p with
             | Some size => inr size
             | None => inl (ENOENT "stat" p)
             end in
    Out l (log_event (EvStat p r) w) r.

(** [fs.unlink(p)] *)
Definition fs_unlink {L} (p : string) : M L unit :=
  fun l w =>
    let r := match unlink_failure env (trace w) p with
             | Some e => inl e
             | None => match fs w !! p with
                       | Some _ => inr tt
                       | None => inl (ENOENT "unlink" p)
                       end
             end in
    let w' := log_event (EvUnlink p r) w in
    match r with
    | inl e => Out l w' (inl e)
    | inr _ => Out l (remove_file p w') (inr tt)
    end.

(** [openai.audio.transcriptions.create({ file, model })]; resolves to
    the transcription, of which the program reads [.text]. *)
Definition transcriptions_create {L} (openai filePath : string)
  : M L (option string) :=
  fun l w =>
    let r := openai_transcriptions_create env (trace w) openai filePath in
    Out l (log_event (EvCreateTranscription openai filePath r) w) r.

(** [Math.round(size / 1024 / 1024)]: the division by a power of two is
    exact, and [Math.round] rounds halves up. *)
Definition round_MB (size : N) : N := ((size + 524288) / 1048576)%N.

Definition segment_too_large (size : N) : js_error :=
  new_Error ("Segment too large (" +:+ pretty (round_MB size)
             +:+ " MB). Try shorter segments.").

(** [transcribeFile(openai, filePath)]; the client [openai] is
    identified by its API key. *)
Definition transcribeFile {L} (openai filePath : string)
  : M L (option string) :=
  let! size := fs_stat filePath in
  if (WHISPER_MAX_SIZE <? size)%N
  then throw (segment_too_large size)
  else transcriptions_create openai filePath.

(** [JSON.parse(src)[k]]; [JSON.parse('{}')] is the empty object. *)
Definition JSON_get (k src : string) : option (option string) :=
  if String.eqb src "{}" then Some None else JSON_parse_get env k src.

Definition PYTHON_FAILED : string := "Python transcription failed".

(** The ['close'] and ['error'] listeners of [runLocalWhisper]. *)
Definition local_result (r : child_result) : js_error + string :=
  match r with
  | ChildError msg =>
      inl (new_Error ("Failed to run Python: " +:+ msg
            +:+ ". Is Python installed? Run: pip install -r requirements.txt"))
  | ChildClose code stdout stderr =>
      if bool_decide (code = Some 0%Z) then
        match JSON_get "text" (trim stdout) with
        | Some out_text => inr (or_default out_text NO_SPEECH)
        | None => inl (new_Error "Invalid output from Python script")
        end
      else
        match JSON_get "error" (or_else (trim stderr) "{}") with
        | Some err_error =>
            inl (new_Error
                   (or_default err_error (or_else stderr PYTHON_FAILED)))
        | None =>
            let msg := or_else stderr PYTHON_FAILED in
            if includes msg "No module named"
               || includes msg "ModuleNotFoundError"
            then inl (new_Error
              "Python packages missing. Run: pip install -r requirements.txt")
            else inl (new_Error msg)
        end
  end.

(** [runLocalWhisper(filePath)] *)
Definition runLocalWhisper {L} (filePath : string) : M L string :=
  fun l w =>
    let r := spawn_python env (trace w) filePath in
    Out l (log_event (EvSpawnPython filePath r) w) (local_result r).

(** ** [transcribeLargeFile]

    Its locals are the array [segments]. *)

Definition audio_path (jobId : string) : string :=
  path_join env (TEMP_DIR env) (jobId +:+ "-audio.mp3").

Definition seg_path (jobId : string) (n : nat) : string :=
  path_join env (TEMP_DIR env) (jobId +:+ "-seg-" +:+ pretty n +:+ ".mp3").

(** The [while] loop, entered with the current [start]. *)
Equations segment_loop (jobId audioPath : string) (duration start : Q)
  : M (list string) unit
  by wf (iterations_left SEGMENT_DURATION_SEC duration start) lt :=
  segment_loop jobId audioPath duration start
    with Qlt_le_dec start duration => {
    | left _ =>
        let segDuration := Qmin SEGMENT_DURATION_SEC (duration - start) in
        let! segments := get_locals in
        let segPath := seg_path jobId (length segments) in
        extractSegment audioPath segPath start segDuration >>
        set_locals (segments ++ [segPath]) >>
        segment_loop jobId audioPath duration (start + segDuration);
    | right _ => ret tt }.
Next Obligation.
  rewrite (iterations_left_step _ SEGMENT_DURATION_SEC_pos duration start);
    [lia | assumption].
Qed.

(** [result.text?.trim() || ''] *)
Definition segment_text (text : option string) : string :=
  match text with
  | Some t => or_else (trim t) ""
  | None => ""
  end.

(** [for (const segPath of segments) { ...; texts.push(...) }] *)
Fixpoint transcribe_segments {L} (openai : string) (segments : list string)
    (texts : list string) : M L (list string) :=
  match segments with
  | [] => ret texts
  | segPath :: rest =>
      let! result := transcribeFile openai segPath in
      transcribe_segments openai rest (texts ++ [segment_text result])
  end.

Definition SEPARATOR : string := LF +:+ LF.

(** [texts.filter(Boolean).join('\n\n') || '(No speech detected)'] *)
Definition assemble (texts : list string) : string :=
  or_else (join SEPARATOR (List.filter truthy texts)) NO_SPEECH.

(** The first half of the [try] block: audio extraction, probing and the
    segmentation loop. *)
Definition extract_phase (filePath jobId audioPath : string)
  : M (list string) unit :=
  extractAudio filePath audioPath >>
  let! duration := getDuration audioPath in
  segment_loop jobId audioPath duration 0.

(** The [try] block. *)
Definition transcribeLargeFile_try (openai filePath jobId audioPath : string)
  : M (list string) string :=
  extract_phase filePath jobId audioPath >>
  let! segments := get_locals in
  let! texts := transcribe_segments openai segments [] in
  ret (assemble texts).

(** [for (const p of toDelete) { try { await fs.unlink(p); } catch (_) {} }] *)
Fixpoint unlink_quietly {L} (toDelete : list string) : M L unit :=
  match toDelete with
  | [] => ret tt
  | p :: rest =>
      try_catch (fs_unlink p) (fun _ => ret tt) >>
      unlink_quietly rest
  end.

(** The [finally] block. *)
Definition transcribeLargeFile_finally (audioPath : string)
  : M (list string) unit :=
  let! segments := get_locals in
  unlink_quietly (audioPath :: segments).

Definition job_id (filePath : string) : string :=
  path_basename env filePath (path_extname env filePath).

Definition transcribeLargeFile {L} (openai filePath : string) : M L string :=
  let jobId := job_id filePath in
  let audioPath := audio_path jobId in
  call []
    (try_finally
       (transcribeLargeFile_try openai filePath jobId audioPath)
       (transcribeLargeFile_finally audioPath)).

(** ** The route [POST /api/transcribe]

    Its local is [filePath]; [req.file] is the upload stored by the
    upload middleware, if any. *)

Record upload := { upload_path : string; upload_size : N }.

(** [res.status(status).json(body)] *)
Definition res_json {L} (status : Z) (b : body) : M L unit :=
  emit (EvResponse {| res_status := status; res_body := b |}).

Definition mentions (err : js_error) (needle : string) : bool :=
  match err_message err with
  | Some m => includes (toLowerCase m) needle
  | None => false
  end.

Definition isConnectionError (err : js_error) : bool :=
  String.eqb (err_name err) "APIConnectionError"
  || bool_decide (err_cause_code err = Some "ECONNRESET")
  || bool_decide (err_cause_code err = Some "ETIMEDOUT")
  || bool_decide (err_cause_code err = Some "ENOTFOUND").

Definition FFMPEG_REQUIRED : string :=
  "FFmpeg is required for large videos. Install it from https://ffmpeg.org and ensure it is in your PATH.".

Definition CONNECTION_FAILED : string :=
  "Connection to OpenAI failed. Check your internet, try again, or use a VPN if OpenAI is blocked in your region.".

Definition KEY_MISSING : string :=
  "OPENAI_API_KEY is not set. Add it to .env for API mode, or set TRANSCRIPTION_MODE=local for local Whisper.".

(** The response chosen by the [catch] block. *)
Definition error_response (err : js_error) : response :=
  if mentions err "ffmpeg" || mentions err "ffprobe" then
    {| res_status := 500; res_body := BodyError FFMPEG_REQUIRED |}
  else if bool_decide (err_status err = Some 401%Z) then
    {| res_status := 401;
       res_body := BodyError "Invalid API key. Check your OPENAI_API_KEY." |}
  else if bool_decide (err_status err = Some 429%Z) then
    {| res_status := 429;
       res_body :=
         BodyError "Rate limit exceeded. Please wait a moment and try again." |}
  else if isConnectionError err then
    {| res_status := 503; res_body := BodyError CONNECTION_FAILED |}
  else if bool_decide (err_code err = Some "LIMIT_FILE_SIZE") then
    {| res_status := 400;
       res_body := BodyError "File too large. Maximum size is 200 MB." |}
  else
    let fallback :=
      {| res_status := 500;
         res_body :=
           BodyError (or_default (err_message err)
                        "Transcription failed. Please try again.") |} in
    match err_message err with
    | Some m =>
        if includes m "Invalid file type"
        then {| res_status := 400; res_body := BodyError m |}
        else fallback
    | None => fallback
    end.

(** The [try] block of the route. *)
Definition handler_try (file : option upload) : M (option string) unit :=
  match file with
  | None => res_json 400 (BodyError "No file uploaded")
  | Some f =>
      set_locals (Some (upload_path f)) >>
      let filePath := upload_path f in
      let fileSize := upload_size f in
      if String.eqb (TRANSCRIPTION_MODE env) "local" then
        let! text := runLocalWhisper filePath in
        res_json 200 (BodyText text)
      else
        match env_OPENAI_API_KEY env with
        | Some apiKey =>
            if truthy apiKey then
              let openai := apiKey in
              if (fileSize <=? WHISPER_MAX_SIZE)%N then
                let! transcription := transcribeFile openai filePath in
                let text := or_default transcription NO_SPEECH in
                res_json 200 (BodyText text)
              else
                let! text := transcribeLargeFile openai filePath in
                res_json 200 (BodyText text)
            else res_json 500 (BodyError KEY_MISSING)
        | None => res_json 500 (BodyError KEY_MISSING)
        end
  end.

(** The [catch] block of the route. *)
Definition handler_catch (err : js_error) : M (option string) unit :=
  emit (EvConsoleError err) >>
  let r := error_response err in
  res_json (res_status r) (res_body r).

(** The [finally] block of the route. *)
Definition handler_finally : M (option string) unit :=
  let! filePath := get_locals in
  match filePath with
  | Some p =>
      if truthy p then
        try_catch (fs_unlink p)
          (fun e => emit (EvConsoleWarn (err_message e)))
      else ret tt
  | None => ret tt
  end.

(** The route handler, entered with [filePath = null]. *)
Definition handler {L} (file : option upload) : M L unit :=
  call None
    (try_finally (try_catch (handler_try file) handler_catch)
       handler_finally).

End Server.

(** ** [lib/local-whisper.js]

    The in-process local backend.  Loading the model, converting the input
    to WAV and decoding it are left to the environment: [transcribeLocal]
    is entered here with the decoded samples [audioData], and
    [transcriber chunk] is what the model returns for a chunk, of which
    the program reads [result?.text]: [None] for a missing result,
    [Some None] for a missing text. *)

Module LocalWhisper.

Definition WHISPER_CHUNK_SEC : N := 30.

Definition samplesPerChunk : N := 16000 * WHISPER_CHUNK_SEC.

Section Chunks.
Context {sample : Type}.
Context (transcriber : list sample -> js_error + option (option string)).

(** [audioData.slice(start, end)] *)
Definition slice (audioData : list sample) (start end_ : N) : list sample :=
  take (N.to_nat (end_ - start)) (drop (N.to_nat start) audioData).

(** [result?.text?.trim()], with the empty string for [undefined]: both are
    falsy, and the value is only used when it is truthy. *)
Definition chunk_text (result : option (option string)) : string :=
  match result with
  | Some (Some t) => trim t
  | _ => ""
  end.

(** [for (let start = 0; start < audioData.length; start += samplesPerChunk)] *)
Equations chunk_loop (audioData : list sample) (start : N)
    (texts : list string) : js_error + list string
    by wf (N.to_nat (N.of_nat (length audioData) - start)) lt :=
  chunk_loop audioData start texts
    with decide (start < N.of_nat (length audioData))%N => {
    | left _ with
        transcriber
          (slice audioData start
             (N.min (start + samplesPerChunk) (N.of_nat (length audioData)))) => {
        | inl e => inl e
        | inr result =>
            let t := chunk_text result in
            chunk_loop audioData (start + samplesPerChunk)
              (if truthy t then texts ++ [t] else texts) };
    | right _ => inr texts }.
Next Obligation. unfold samplesPerChunk, WHISPER_CHUNK_SEC. lia. Qed.

(** [texts.join(' ').trim() || '(No speech detected)'] *)
Definition transcribeLocal (audioData : list sample) : js_error + string :=
  match chunk_loop audioData 0 [] with
  | inl e => inl e
  | inr texts => inr (or_else (trim (join " " texts)) NO_SPEECH)
  end.

End Chunks.

End LocalWhisper.

(** ** Vocabulary of the statements *)

(** The result assembler on raw per-segment texts, as the program composes
    it: each text goes through [segment_text] when it is pushed, and the
    collected texts through [assemble]. *)
Definition join_transcripts (orderedTexts : list string) : string :=
  assemble (map (fun t => segment_text (Some t)) orderedTexts).

(** The result assembler in the words of the specification: trim each
    text, drop the empty ones, join with the separator, trim the whole, and
    substitute the sentinel for an empty result. *)
Definition join_spec (orderedTexts : list string) : string :=
  let kept := List.filter truthy (map trim orderedTexts) in
  let joined := trim (join SEPARATOR kept) in
  if truthy joined then joined else NO_SPEECH.

(** The events a run added to the trace [before]. *)
Definition added (before : list event) (o_trace : list event) : list event :=
  drop (length before) o_trace.

(** Paths sent over the network to the remote service. *)
Definition network_calls (tr : list event) : list string :=
  omap (fun e => match e with
                 | EvCreateTranscription _ p _ => Some p
                 | _ => None
                 end) tr.

(** Paths handed to the remote adapter [transcribeFile], whose first act is
    to stat its file. *)
Definition adapter_calls (tr : list event) : list string :=
  omap (fun e => match e with EvStat p _ => Some p | _ => None end) tr.

(** Paths handed to the local backend. *)
Definition local_calls (tr : list event) : list string :=
  omap (fun e => match e with EvSpawnPython p _ => Some p | _ => None end) tr.

(** Uses of the media prober/extractor, the segmentation loop included. *)
Definition is_media_event (e : event) : bool :=
  match e with
  | EvExtractAudio _ _ _ | EvFfprobe _ _ | EvExtractSegment _ _ _ _ _ => true
  | _ => false
  end.

Definition responses (tr : list event) : list response :=
  omap (fun e => match e with EvResponse r => Some r | _ => None end) tr.

(** Temporary files rendered by the extractor. *)
Definition rendered (tr : list event) : list string :=
  omap (fun e => match e with
                 | EvExtractAudio _ out (inr _) => Some out
                 | EvExtractSegment _ out _ _ (inr _) => Some out
                 | _ => None
                 end) tr.

(** Uses of the remote adapter. *)
Definition is_adapter_event (e : event) : bool :=
  match e with
  | EvStat _ _ | EvCreateTranscription _ _ _ => true
  | _ => false
  end.

Definition is_unlink_event (e : event) : bool :=
  match e with EvUnlink _ _ => true | _ => false end.

(** The segmentation loop unrolled along a given list of ranges. *)
Fixpoint extract_ranges (env : Env) (jobId audioPath : string)
    (ranges : list (Q * Q)) : M (list string) unit :=
  match ranges with
  | [] => ret tt
  | (start, segDuration) :: rest =>
      let! segments := get_locals in
      let segPath := seg_path env jobId (length segments) in
      extractSegment env audioPath segPath start segDuration >>
      set_locals (segments ++ [segPath]) >>
      extract_ranges env jobId audioPath rest
  end.

(** The events of extracting the given ranges, each with the size of the
    file rendered for it, into segment files numbered from [n]. *)
Fixpoint extract_events (env : Env) (jobId audioPath : string) (n : nat)
    (items : list (Q * Q * N)) : list event :=
  match items with
  | [] => []
  | (start, segDuration, size) :: rest =>
      EvExtractSegment audioPath (seg_path env jobId n) start segDuration
        (inr size)
      :: extract_events env jobId audioPath (S n) rest
  end.

(** The events of transcribing the given segment files one after the other,
    each with its size on disk and the text the service returned. *)
Fixpoint transcribe_events (openai : string)
    (items : list (string * N * option string)) : list event :=
  match items with
  | [] => []
  | (segPath, size, text) :: rest =>
      EvStat segPath (inr size)
      :: EvCreateTranscription openai segPath (inr text)
      :: transcribe_events openai rest
  end.

(** The events of the route's [finally] block on a stored upload. *)
Definition final_events (p : string) (r : js_error + unit) : list event :=
  EvUnlink p r
  :: match r with
     | inl e => [EvConsoleWarn (err_message e)]
     | inr _ => []
     end.

(** The API key with which the route builds its client, if it has one:
    [process.env.OPENAI_API_KEY] when it is set and not empty. *)
Definition usable_key (env : Env) : option string :=
  match env_OPENAI_API_KEY env with
  | Some apiKey => if truthy apiKey then Some apiKey else None
  | None => None
  end.

Definition text_response (text : string) : response :=
  {| res_status := 200; res_body := BodyText text |}.

Definition key_missing_response : response :=
  {| res_status := 500; res_body := BodyError KEY_MISSING |}.

Definition no_file_response : response :=
  {| res_status := 400; res_body := BodyError "No file uploaded" |}.

(** The end of the [try] block: [res.json({ text })] when [text] was
    obtained. *)
Definition respond_text (path : string) (o : outcome (option string) string)
  : outcome (option string) unit :=
  match out_result o with
  | inl e => Out (Some path) (out_world o) (inl e)
  | inr text =>
      Out (Some path) (log_event (EvResponse (text_response text)) (out_world o))
        (inr tt)
  end.

(** The events of the [catch] block on [e], or of the final
    [res.json({ text })]. *)
Definition answer_events (r : js_error + string) : list event :=
  match r with
  | inl e => [EvConsoleError e; EvResponse (error_response e)]
  | inr text => [EvResponse (text_response text)]
  end.

(** The events of the route's [finally] block. *)
Definition cleanup_events (p : string) (r : js_error + unit) : list event :=
  if truthy p then final_events p r else [].

(** How a request is served: the backend that ran, the events [work] it
    added, and its completion. *)
Inductive served (env : Env) (f : upload) (w : world)
  : list event -> js_error + string -> Prop :=
| served_local :
    String.eqb (TRANSCRIPTION_MODE env) "local" = true ->
    served env f w
      [EvSpawnPython (upload_path f)
         (spawn_python env (trace w) (upload_path f))]
      (local_result env (spawn_python env (trace w) (upload_path f)))
| served_single (openai : string) (work : list event) :
    String.eqb (TRANSCRIPTION_MODE env) "local" = false ->
    usable_key env = Some openai ->
    (upload_size f <= WHISPER_MAX_SIZE)%N ->
    trace (out_world (transcribeFile env openai (upload_path f)
                        (Some (upload_path f)) w)) = trace w ++ work ->
    served env f w work
      match out_result (transcribeFile env openai (upload_path f)
                          (Some (upload_path f)) w) with
      | inl e => inl e
      | inr t => inr (or_default t NO_SPEECH)
      end
| served_segmented (openai : string) (work : list event) :
    String.eqb (TRANSCRIPTION_MODE env) "local" = false ->
    usable_key env = Some openai ->
    (WHISPER_MAX_SIZE < upload_size f)%N ->
    trace (out_world (transcribeLargeFile env openai (upload_path f)
                        (Some (upload_path f)) w)) = trace w ++ work ->
    served env f w work
      (out_result (transcribeLargeFile env openai (upload_path f)
                     (Some (upload_path f)) w)).

(** The same environment, except that [fs.unlink] fails as [u] says. *)
Definition with_unlink_failure (u : list event -> string -> option js_error)
    (env : Env) : Env :=
  {| env_TRANSCRIPTION_MODE := env_TRANSCRIPTION_MODE env;
     env_OPENAI_API_KEY := env_OPENAI_API_KEY env;
     TEMP_DIR := TEMP_DIR env;
     path_join := path_join env;
     path_basename := path_basename env;
     path_extname := path_extname env;
     JSON_parse_get := JSON_parse_get env;
     ffmpeg_extractAudio := ffmpeg_extractAudio env;
     ffmpeg_ffprobe := ffmpeg_ffprobe env;
     ffmpeg_extractSegment := ffmpeg_extractSegment env;
     ffmpeg_partial_output := ffmpeg_partial_output env;
     openai_transcriptions_create := openai_transcriptions_create env;
     unlink_failure := u;
     spawn_python := spawn_python env |}.

(** The completion of the backend that serves the upload [f], if the
    route gets as far as a backend. *)
Definition backend_result (env : Env) (f : upload) (w : world)
  : option (js_error + string) :=
  let p := upload_path f in
  if String.eqb (TRANSCRIPTION_MODE env) "local"
  then Some (local_result env (spawn_python env (trace w) p))
  else
    match usable_key env with
    | None => None
    | Some openai =>
        if (upload_size f <=? WHISPER_MAX_SIZE)%N
        then Some match out_result (transcribeFile env openai p (Some p) w) with
                  | inl e => inl e
                  | inr t => inr (or_default t NO_SPEECH)
                  end
        else Some (out_result (transcribeLargeFile env openai p (Some p) w))
    end.

(** The response that answers a backend completion. *)
Definition answer (r : js_error + string) : response :=
  match r with
  | inl e => error_response e
  | inr text => text_response text
  end.



(** ** Shapes of strings *)

(** A string that does not start, respectively end, with white space. *)
Definition starts_clean (s : string) : bool :=
  match s with
  | EmptyString => true
  | String c _ => negb (is_ws c)
  end.

Fixpoint ends_clean (s : string) : bool :=
  match s with
  | EmptyString => true
  | String c EmptyString => negb (is_ws c)
  | String _ s' => ends_clean s'
  end.

(** Texts that survive the filter: not empty, no white space at either
    end. *)
Definition kept (s : string) : Prop :=
  truthy s = true /\ starts_clean s = true /\ ends_clean s = true.

(** The character [c] does not occur in [s]. *)
Fixpoint lacks (c : ascii) (s : string) : bool :=
  match s with
  | EmptyString => true
  | String c' s' => negb (Ascii.eqb c' c) && lacks c s'
  end.

Definition is_digit (c : ascii) : bool :=
  (48 <=? N_of_ascii c)%N && (N_of_ascii c <=? 57)%N.

Fixpoint all_digits (s : string) : bool :=
  match s with
  | EmptyString => true
  | String c s' => is_digit c && all_digits s'
  end.

(** ** Further vocabulary *)

(** Every upload to the remote service comes right after a successful
    [fs.stat] of the same file that found it within the limit; [prev] is
    the event before [tr]. *)
Fixpoint size_checked_from (prev : option event) (tr : list event) : bool :=
  match tr with
  | [] => true
  | e :: rest =>
      match e with
      | EvCreateTranscription _ p _ =>
          match prev with
          | Some (EvStat q (inr size)) =>
              String.eqb q p && (size <=? WHISPER_MAX_SIZE)%N
          | _ => false
          end
      | _ => true
      end
      && size_checked_from (Some e) rest
  end.

Definition size_checked (tr : list event) : bool := size_checked_from None tr.

(** A response as a client expects it: a transcript that is not empty with
    status 200, or an error message that is not empty with one of the five
    error statuses. *)
Definition well_formed (r : response) : bool :=
  match res_body r with
  | BodyText text => (res_status r =? 200)%Z && truthy text
  | BodyError msg =>
      truthy msg
      && existsb (Z.eqb (res_status r)) [400; 401; 429; 500; 503]%Z
  end.

(** The errors with which runs of the media tool failed. *)
Definition media_errors (tr : list event) : list js_error :=
  omap (fun e => match e with
                 | EvExtractAudio _ _ (inl err) => Some err
                 | EvFfprobe _ (inl err) => Some err
                 | EvExtractSegment _ _ _ _ (inl err) => Some err
                 | _ => None
                 end) tr.

(** A file name that is one plain path segment: not empty, without a
    separator, and neither [.] nor [..]. *)
Definition plain (name : string) : bool :=
  truthy name && lacks "/" name && lacks "092" name
  && negb (String.eqb name ".") && negb (String.eqb name "..").

(** Paths handed to [fs.unlink]. *)
Definition unlink_calls (tr : list event) : list string :=
  omap (fun e => match e with EvUnlink p _ => Some p | _ => None end) tr.

(** The output paths of the segment extractions that failed. *)
Definition failed_segments (tr : list event) : list string :=
  omap (fun e => match e with
                 | EvExtractSegment _ out _ _ (inl _) => Some out
                 | _ => None
                 end) tr.

(** The list [l] cut into consecutive blocks of [n] elements, the last one
    possibly shorter. *)
Fixpoint blocks_upto {A} (fuel n : nat) (l : list A) : list (list A) :=
  match fuel, l with
  | S fuel', _ :: _ => take n l :: blocks_upto fuel' n (drop n l)
  | _, _ => []
  end.

Definition blocks {A} (n : nat) (l : list A) : list (list A) :=
  blocks_upto (length l) n l.

(** ** [lib/local-whisper.js] with its state

    The module keeps one variable, [transcriberPromise].  [pipeline n] is
    how the promise returned by the [n]-th call of [pipeline(...)]
    settles.  Reading and decoding a WAV file are left to the environment,
    as functions of the path (the file does not change during a call):
    [getDurationFromWav] is the duration computed from the header, of
    which only the failure matters since the program does not use the
    value, and [wav_samples] is the mono 16 kHz sample array that both
    [wavToFloat32] and [transcribeLocal] build. *)

Module LocalWhisperRun.

Section Run.
Context {sample : Type}.

Definition transcriber_fn : Type :=
  list sample -> js_error + option (option string).

Record LibEnv := {
  pipeline : nat -> js_error + transcriber_fn;
  getDurationFromWav : string -> js_error + Q;
  wav_samples : string -> js_error + list sample;
}.

Record lib_state := {
  transcriberPromise : option (js_error + transcriber_fn);
  pipeline_calls : nat;
}.

(** The module right after it was loaded. *)
Definition initial : lib_state :=
  {| transcriberPromise := None; pipeline_calls := 0 |}.

Context (lib : LibEnv).

(** [getTranscriber()]: the promise is created once and then reused. *)
Definition getTranscriber (st : lib_state)
  : lib_state * (js_error + transcriber_fn) :=
  match transcriberPromise st with
  | Some promise => (st, promise)
  | None =>
      let promise := pipeline lib (pipeline_calls st) in
      ({| transcriberPromise := Some promise;
          pipeline_calls := S (pipeline_calls st) |}, promise)
  end.

(** [transcribeWavFile(transcriber, wavPath)] *)
Definition transcribeWavFile (transcriber : transcriber_fn) (wavPath : string)
  : js_error + string :=
  match wav_samples lib wavPath with
  | inl e => inl e
  | inr audioData =>
      match transcriber audioData with
      | inl e => inl e
      | inr result => inr (or_else (LocalWhisper.chunk_text result) "")
      end
  end.

(** [transcribeLocal(inputPath, extractToWav)] *)
Definition transcribeLocal (inputPath : string)
    (extractToWav : string -> js_error + string) (st : lib_state)
  : lib_state * (js_error + string) :=
  let (st1, loaded) := getTranscriber st in
  (st1,
   match loaded with
   | inl e => inl e
   | inr transcriber =>
       match extractToWav inputPath with
       | inl e => inl e
       | inr wavPath =>
           match getDurationFromWav lib wavPath with
           | inl e => inl e
           | inr _ =>
               match wav_samples lib wavPath with
               | inl e => inl e
               | inr audioData =>
                   LocalWhisper.transcribeLocal transcriber audioData
               end
           end
       end
   end).

(** Calls of [transcribeLocal] one after the other. *)
Fixpoint transcribe_all
    (requests : list (string * (string -> js_error + string)))
    (st : lib_state) : lib_state * list (js_error + string) :=
  match requests with
  | [] => (st, [])
  | (inputPath, extractToWav) :: rest =>
      let (st1, r) := transcribeLocal inputPath extractToWav st in
      let (st2, rs) := transcribe_all rest st1 in
      (st2, r :: rs)
  end.

(** What the loop of [transcribeLocal] does with a list of chunks. *)
Fixpoint feed (transcriber : transcriber_fn) (texts : list string)
    (chunks : list (list sample)) : js_error + list string :=
  match chunks with
  | [] => inr texts
  | chunk :: rest =>
      match transcriber chunk with
      | inl e => inl e
      | inr result =>
          let t := LocalWhisper.chunk_text result in
          feed transcriber (if truthy t then texts ++ [t] else texts) rest
      end
  end.

End Run.

Arguments LibEnv : clear implicits.
Arguments lib_state : clear implicits.
Arguments transcriber_fn : clear implicits.

End LocalWhisperRun.

(** ** The page

    The elements of the page that the script changes, and what a request
    to the server comes back with: [fetch] rejects, or [res.json()]
    rejects, or there is a status that is [ok] or not and a body whose
    [text] and [error], when present, are strings. *)

Module Client.

Record page := {
  dropzoneContent_hidden : bool;
  dropzoneLoading_hidden : bool;
  resultSection_hidden : bool;
  errorSection_hidden : bool;
  transcriptEl_textContent : string;
  errorMessage_textContent : string;
}.

Record data := { data_text : option string; data_error : option string }.

Inductive fetched :=
| FetchRejected (message : string)
| JsonRejected (ok : bool) (message : string)
| Fetched (ok : bool) (d : data).

Definition hideAll (p : page) : page :=
  {| dropzoneContent_hidden := dropzoneContent_hidden p;
     dropzoneLoading_hidden := dropzoneLoading_hidden p;
     resultSection_hidden := true;
     errorSection_hidden := true;
     transcriptEl_textContent := transcriptEl_textContent p;
     errorMessage_textContent := errorMessage_textContent p |}.

Definition showLoading (show : bool) (p : page) : page :=
  {| dropzoneContent_hidden := show;
     dropzoneLoading_hidden := negb show;
     resultSection_hidden := resultSection_hidden p;
     errorSection_hidden := errorSection_hidden p;
     transcriptEl_textContent := transcriptEl_textContent p;
     errorMessage_textContent := errorMessage_textContent p |}.

Definition showResult (text : option string) (p : page) : page :=
  let p := hideAll p in
  {| dropzoneContent_hidden := dropzoneContent_hidden p;
     dropzoneLoading_hidden := dropzoneLoading_hidden p;
     resultSection_hidden := false;
     errorSection_hidden := errorSection_hidden p;
     transcriptEl_textContent := or_default text NO_SPEECH;
     errorMessage_textContent := errorMessage_textContent p |}.

Definition showError (msg : string) (p : page) : page :=
  let p := hideAll p in
  {| dropzoneContent_hidden := dropzoneContent_hidden p;
     dropzoneLoading_hidden := dropzoneLoading_hidden p;
     resultSection_hidden := resultSection_hidden p;
     errorSection_hidden := false;
     transcriptEl_textContent := transcriptEl_textContent p;
     errorMessage_textContent := msg |}.

(** [transcribe(file)], from the click to the end of its [finally]
    block, when the request comes back with [r]. *)
Definition transcribe (r : fetched) (p : page) : page :=
  let p := showLoading true (hideAll p) in
  let p :=
    match r with
    | FetchRejected message => showError message p
    | JsonRejected _ message => showError message p
    | Fetched ok d =>
        if ok then showResult (data_text d) p
        else showError (or_default (data_error d) "Transcription failed") p
    end in
  showLoading false p.

(** The text of the mode badge once [GET /api/mode] has come back with
    the property [mode] of its body, or has failed. *)
Definition modeBadge_textContent (fetched_mode : js_error + option string)
  : string :=
  match fetched_mode with
  | inr (Some mode) => if String.eqb mode "local" then "Local mode" else "API mode"
  | inr None => "API mode"
  | inl _ => ""
  end.

(** A response of the server as the page receives it: [res.ok] is a status
    from 200 to 299, and the body is the object that was sent. *)
Definition received (r : response) : fetched :=
  Fetched ((200 <=? res_status r)%Z && (res_status r <=? 299)%Z)
    match res_body r with
    | BodyText text => {| data_text := Some text; data_error := None |}
    | BodyError error => {| data_text := None; data_error := Some error |}
    end.

End Client.

(** ** Around the route: the mode endpoint, the upload middleware and the
    error-handling middleware *)

(** [GET /api/mode]: the property [mode] of the body of its response. *)
Definition api_mode (env : Env) : string := TRANSCRIPTION_MODE env.

(** The error-handling middleware, which answers an error passed on by
    the upload middleware. *)
Definition error_middleware {L} (err : js_error) : M L unit :=
  if bool_decide (err_code err = Some "LIMIT_FILE_SIZE") then
    res_json 400 (BodyError "File too large. Maximum size is 200 MB.")
  else
    emit (EvConsoleError err) >>
    res_json 500 (BodyError (or_default (err_message err) "An error occurred")).

(** The file filter of the upload middleware, on the extension of the
    original name: the error it passes on, if any.  The pattern is not
    anchored at its start and ignores case. *)
Fixpoint ends_with (s suffix : string) : bool :=
  String.eqb s suffix
  || match s with
     | EmptyString => false
     | String _ s' => ends_with s' suffix
     end.

Definition allowed (ext : string) : bool :=
  existsb (fun kind => ends_with (toLowerCase ext) ("." +:+ kind))
    ["mp4"; "webm"; "mp3"; "mpeg"; "mpga"; "m4a"; "wav"].

Definition INVALID_FILE_TYPE : string :=
  "Invalid file type. Use mp4, webm, mp3, mpeg, mpga, m4a, or wav.".

Definition fileFilter (env : Env) (originalname : string) : option js_error :=
  if allowed (path_extname env originalname) then None
  else Some (new_Error INVALID_FILE_TYPE).

(** The name under which the upload middleware stores a file: [now] is
    [Date.now()] and [rnd] is [Math.round(Math.random() * 1e9)], both
    integers that JavaScript prints in plain decimal. *)
Definition filename (env : Env) (now rnd : N) (originalname : string)
  : string :=
  let uniqueSuffix := pretty now +:+ "-" +:+ pretty rnd in
  let ext := or_else (path_extname env originalname) ".mp4" in
  "video-" +:+ uniqueSuffix +:+ ext.

(** What the upload middleware hands on: an error, or the request with
    its stored file, if it had one. *)
Inductive uploaded :=
| UploadError (err : js_error)
| UploadDone (file : option upload).

(** [POST /api/transcribe] behind the upload middleware. *)
Definition post_transcribe {L} (env : Env) (u : uploaded) : M L unit :=
  match u with
  | UploadError err => error_middleware err
  | UploadDone file => handler env file
  end.

(** ** Sample runs

    A small installation: uploads are stored as [uploads/video-1.mp4],
    temporary files go to [uploads/temp], the extracted audio is one
    megabyte, every rendered segment has [segmentSize] bytes, the probe
    reports [duration] seconds, and the remote service answers [answer p]
    for the file [p]. *)
Definition sample_env (mode key : option string) (segmentSize : N)
    (duration : Q) (answer : string -> js_error + option string) : Env :=
  {| env_TRANSCRIPTION_MODE := mode;
     env_OPENAI_API_KEY := key;
     TEMP_DIR := "uploads/temp";
     path_join := fun dir name => dir +:+ "/" +:+ name;
     path_basename := fun _ _ => "video-1";
     path_extname := fun _ => ".mp4";
     JSON_parse_get := fun _ _ => Some None;
     ffmpeg_extractAudio := fun _ _ _ => inr 1048576%N;
     ffmpeg_ffprobe := fun _ _ => inr (Some duration);
     ffmpeg_extractSegment := fun _ _ _ _ _ => inr segmentSize;
     ffmpeg_partial_output := fun _ _ => None;
     openai_transcriptions_create := fun _ _ p => answer p;
     unlink_failure := fun _ _ => None;
     spawn_python := fun _ _ => ChildClose (Some 0%Z) "{}" "" |}.

Definition sample_path : string := "uploads/video-1.mp4".

(** The world right after the upload middleware stored [size] bytes. *)
Definition stored (size : N) : world :=
  {| fs := {[ sample_path := size ]}; trace := [] |}.

Definition sample_upload (size : N) : upload :=
  {| upload_path := sample_path; upload_size := size |}.

Definition rate_limited : js_error :=
  {| err_message := Some "429 Too Many Requests";
     err_name := "RateLimitError"; err_status := Some 429%Z;
     err_code := None; err_cause_code := None |}.

(** The service fails on the second segment and answers the others. *)
Definition fails_on_second (p : string) : js_error + option string :=
  if String.eqb p "uploads/temp/video-1-seg-1.mp3"
  then inl rate_limited
  else inr (Some " hello ").

Definition api_env : Env :=
  sample_env (Some "API") (Some "sk-test") 9600000 1500
    (fun _ => inr (Some " hello ")).

Definition nokey_env : Env :=
  sample_env None None 9600000 1500 (fun _ => inr (Some " hello ")).

Definition oversized_env : Env :=
  sample_env (Some "api") (Some "sk-test") 30000000 700
    (fun _ => inr (Some " hello ")).

Definition failing_env : Env :=
  sample_env (Some "api") (Some "sk-test") 9600000 1500 fails_on_second.

Definition local_env : Env :=
  sample_env (Some "Local") None 9600000 1500 (fun _ => inr None).

Definition nokey_run : outcome unit unit :=
  handler nokey_env (Some (sample_upload 1000)) tt (stored 1000).

Definition small_run : outcome unit unit :=
  handler api_env (Some (sample_upload 1000)) tt (stored 1000).

Definition local_run : outcome unit unit :=
  handler local_env (Some (sample_upload 1000)) tt (stored 1000).


Definition failed_run : outcome unit unit :=
  handler failing_env (Some (sample_upload 30000000)) tt (stored 30000000).

Definition probe_failure : js_error :=
  new_Error "ffprobe exited with code 1".

(** The sample installation with a prober that fails. *)
Definition unprobed_env : Env :=
  {| env_TRANSCRIPTION_MODE := Some "api";
     env_OPENAI_API_KEY := Some "sk-test";
     TEMP_DIR := TEMP_DIR api_env;
     path_join := path_join api_env;
     path_basename := path_basename api_env;
     path_extname := path_extname api_env;
     JSON_parse_get := JSON_parse_get api_env;
     ffmpeg_extractAudio := ffmpeg_extractAudio api_env;
     ffmpeg_ffprobe := fun _ _ => inl probe_failure;
     ffmpeg_extractSegment := ffmpeg_extractSegment api_env;
     ffmpeg_partial_output := ffmpeg_partial_output api_env;
     openai_transcriptions_create := openai_transcriptions_create api_env;
     unlink_failure := unlink_failure api_env;
     spawn_python := spawn_python api_env |}.

(** The sample installation receiving a text document. *)
Definition document_env : Env :=
  {| env_TRANSCRIPTION_MODE := Some "api";
     env_OPENAI_API_KEY := Some "sk-test";
     TEMP_DIR := TEMP_DIR api_env;
     path_join := path_join api_env;
     path_basename := path_basename api_env;
     path_extname := fun _ => ".txt";
     JSON_parse_get := JSON_parse_get api_env;
     ffmpeg_extractAudio := ffmpeg_extractAudio api_env;
     ffmpeg_ffprobe := ffmpeg_ffprobe api_env;
     ffmpeg_extractSegment := ffmpeg_extractSegment api_env;
     ffmpeg_partial_output := ffmpeg_partial_output api_env;
     openai_transcriptions_create := openai_transcriptions_create api_env;
     unlink_failure := unlink_failure api_env;
     spawn_python := spawn_python api_env |}.

(** A model that hears the same two words in every chunk, and a library
    environment in which every file decodes to three samples. *)
Definition sample_transcriber : LocalWhisperRun.transcriber_fn nat :=
  fun _ => inr (Some (Some " hello there ")).

Definition sample_lib : LocalWhisperRun.LibEnv nat :=
  {| LocalWhisperRun.pipeline := fun _ => inr sample_transcriber;
     LocalWhisperRun.getDurationFromWav := fun _ => inr 1%Q;
     LocalWhisperRun.wav_samples := fun _ => inr [1; 2; 3]%nat |}.

(** The sample installation on an upload whose audio track is empty. *)
Definition silent_env : Env :=
  sample_env (Some "api") (Some "sk-test") 9600000 0
    (fun _ => inr (Some " hello ")).

Definition tool_killed : js_error :=
  new_Error "ffmpeg was killed with signal SIGKILL".

(** The sample installation with a media tool that is killed while it
    writes the second segment, of which 4096 bytes are on disk by then. *)
Definition interrupted_env : Env :=
  {| env_TRANSCRIPTION_MODE := Some "api";
     env_OPENAI_API_KEY := Some "sk-test";
     TEMP_DIR := TEMP_DIR api_env;
     path_join := path_join api_env;
     path_basename := path_basename api_env;
     path_extname := path_extname api_env;
     JSON_parse_get := JSON_parse_get api_env;
     ffmpeg_extractAudio := ffmpeg_extractAudio api_env;
     ffmpeg_ffprobe := ffmpeg_ffprobe api_env;
     ffmpeg_extractSegment :=
       fun _ _ out _ _ =>
         if String.eqb out "uploads/temp/video-1-seg-1.mp3"
         then inl tool_killed else inr 9600000%N;
     ffmpeg_partial_output :=
       fun _ out =>
         if String.eqb out "uploads/temp/video-1-seg-1.mp3"
         then Some 4096%N else None;
     openai_transcriptions_create := openai_transcriptions_create api_env;
     unlink_failure := unlink_failure api_env;
     spawn_python := spawn_python api_env |}.

Definition interrupted_run : outcome unit string :=
  transcribeLargeFile interrupted_env "sk-test" sample_path tt
    (stored 30000000).

(** * Properties *)

(** ** The segment plan *)


Section PlanFacts.
Variable L : Q.
Hypothesis L_pos : (0 < L)%Q.

Lemma plan_from_more (duration start : Q) :
  (start < duration)%Q ->
  plan_from L L_pos duration start
  = (start, Qmin L (duration - start))
      :: plan_from L L_pos duration (start + Qmin L (duration - start)).
Proof.
  intros Hlt. rewrite plan_from_equation_1.
  destruct (Qlt_le_dec start duration) as [?|Hle]; [reflexivity | lra].
Qed.

Lemma plan_from_done (duration start : Q) :
  (duration <= start)%Q -> plan_from L L_pos duration start = [].
Proof.
  intros Hle. rewrite plan_from_equation_1.
  destruct (Qlt_le_dec start duration) as [Hlt|?]; [lra | reflexivity].
Qed.

(** Induction along the turns of the loop. *)
Lemma loop_ind (duration : Q) (P : Q -> Prop) :
  (forall start, (duration <= start)%Q -> P start) ->
  (forall start, (start < duration)%Q ->
                 P (start + Qmin L (duration - start))%Q -> P start) ->
  forall start, P start.
Proof using L_pos.
  intros Hdone Hstep start.
  remember (iterations_left L duration start) as n eqn:Hn.
  revert start Hn. induction n as [|n IH]; intros start Hn.
  - destruct (Qlt_le_dec start duration) as [Hlt|Hle]; [|auto].
    rewrite (iterations_left_step L L_pos _ _ Hlt) in Hn. discriminate.
  - destruct (Qlt_le_dec start duration) as [Hlt|Hle]; [|auto].
    apply Hstep; [assumption|]. apply IH.
    rewrite (iterations_left_step L L_pos _ _ Hlt) in Hn. congruence.
Qed.

Lemma plan_from_length (duration start : Q) :
  length (plan_from L L_pos duration start)
  = iterations_left L duration start.
Proof.
  revert start. apply (loop_ind duration); intros start H.
  - rewrite plan_from_done, iterations_left_done by assumption. reflexivity.
  - intros IH. rewrite plan_from_more, (iterations_left_step L L_pos) by assumption.
    simpl. by rewrite IH.
Qed.



End PlanFacts.



(** ** Running the monad *)

Lemma network_calls_app (t1 t2 : list event) :
  network_calls (t1 ++ t2) = network_calls t1 ++ network_calls t2.
Proof. apply omap_app. Qed.

Lemma adapter_calls_app (t1 t2 : list event) :
  adapter_calls (t1 ++ t2) = adapter_calls t1 ++ adapter_calls t2.
Proof. apply omap_app. Qed.

Lemma responses_app (t1 t2 : list event) :
  responses (t1 ++ t2) = responses t1 ++ responses t2.
Proof. apply omap_app. Qed.

Lemma added_app (before new : list event) : added before (before ++ new) = new.
Proof. unfold added. apply drop_app_length. Qed.

(** ** The remote adapter *)

Section TranscribeFile.
Context (env : Env) {L : Type}.

Lemma transcribeFile_run (openai p : string) (l : L) (w : world) :
  transcribeFile env openai p l w
  = match fs w !! p with
    | None =>
        Out l (log_event (EvStat p (inl (ENOENT "stat" p))) w)
          (inl (ENOENT "stat" p))
    | Some size =>
        let w1 := log_event (EvStat p (inr size)) w in
        if (WHISPER_MAX_SIZE <? size)%N
        then Out l w1 (inl (segment_too_large size))
        else
          let r := openai_transcriptions_create env (trace w1) openai p in
          Out l (log_event (EvCreateTranscription openai p r) w1) r
    end.
Proof.
  unfold transcribeFile, fs_stat, transcriptions_create, bind; simpl.
  destruct (fs w !! p) as [size|]; simpl; [|reflexivity].
  destruct (WHISPER_MAX_SIZE <? size)%N; reflexivity.
Qed.

End TranscribeFile.

(** C6.  On a file of [size] bytes, [transcribeFile] throws the
    segment-too-large error without any network call exactly when [size]
    exceeds the 25 MB limit.  In that case the stat is all that happened:
    nothing is retried, shrunk or written, and the error is the result.
    When the size is within the limit the file is sent once and the
    service's answer is the result, so the error branch is not taken. *)
Theorem transcribeFile_size_guard (env : Env) (L : Type) (openai p : string)
    (size : N) (l : L) (w : world) :
  fs w !! p = Some size ->
  let o := transcribeFile env openai p l w in
  ((WHISPER_MAX_SIZE < size)%N <->
     out_result o = inl (segment_too_large size)
     /\ network_calls (trace (out_world o)) = network_calls (trace w))
  /\ ((WHISPER_MAX_SIZE < size)%N ->
        out_world o = log_event (EvStat p (inr size)) w)
  /\ ((size <= WHISPER_MAX_SIZE)%N ->
        let w1 := log_event (EvStat p (inr size)) w in
        let r := openai_transcriptions_create env (trace w1) openai p in
        out_result o = r
        /\ out_world o = log_event (EvCreateTranscription openai p r) w1
        /\ network_calls (added (trace w) (trace (out_world o))) = [p]).
Proof.
  intros Hfs o. unfold o. rewrite transcribeFile_run, Hfs. cbv zeta.
  destruct (N.ltb_spec WHISPER_MAX_SIZE size) as [Hbig|Hsmall]; simpl.
  - split; [|split]; [| reflexivity | lia].
    split; [intros _|intros _; assumption].
    split; [reflexivity|].
    rewrite network_calls_app. simpl. apply app_nil_r.
  - split; [|split]; [| lia |].
    + split; [lia|]. intros [_ Hnet].
      rewrite <- !app_assoc, network_calls_app in Hnet. simpl in Hnet.
      apply (f_equal length) in Hnet. rewrite length_app in Hnet.
      simpl in Hnet. lia.
    + intros _. split; [reflexivity|]. split; [reflexivity|].
      rewrite <- app_assoc, added_app. reflexivity.
Qed.

(** ** The segmented path *)

Lemma omap_nil_Forall {A} (P : event -> bool) (f : event -> option A)
    (new : list event) :
  (forall e, P e = true -> f e = None) ->
  Forall (fun e => P e = true) new -> omap f new = [].
Proof.
  intros Hf Hall. induction Hall as [|e new He _ IH]; [reflexivity|].
  simpl. rewrite (Hf e He). exact IH.
Qed.

Lemma leave_partial_trace (env : Env) (p : string) (w w' : world) :
  trace (leave_partial env p w w') = trace w'.
Proof. unfold leave_partial. by destruct (ffmpeg_partial_output env _ p). Qed.

Lemma leave_partial_fs (env : Env) (p q : string) (w w' : world) :
  q <> p -> fs (leave_partial env p w w') !! q = fs w' !! q.
Proof.
  intros Hq. unfold leave_partial.
  destruct (ffmpeg_partial_output env _ p); [|reflexivity].
  simpl. by apply lookup_insert_ne.
Qed.

Section LargeFile.
Context (env : Env) (jobId audioPath : string).

Lemma segment_loop_plan (duration start : Q) (l : list string) (w : world) :
  segment_loop env jobId audioPath duration start l w
  = extract_ranges env jobId audioPath
      (plan_from SEGMENT_DURATION_SEC SEGMENT_DURATION_SEC_pos duration start)
      l w.
Proof.
  revert start l w.
  apply (loop_ind SEGMENT_DURATION_SEC SEGMENT_DURATION_SEC_pos duration
           (fun start => forall l w,
              segment_loop env jobId audioPath duration start l w
              = extract_ranges env jobId audioPath
                  (plan_from SEGMENT_DURATION_SEC SEGMENT_DURATION_SEC_pos
                     duration start) l w)); intros start H.
  - intros l w. rewrite plan_from_done by assumption.
    rewrite segment_loop_equation_1.
    destruct (Qlt_le_dec start duration) as [Hlt|?]; [lra | reflexivity].
  - intros IH l w. rewrite plan_from_more by assumption.
    rewrite segment_loop_equation_1.
    destruct (Qlt_le_dec start duration) as [?|Hle]; [|lra].
    simpl. unfold bind, get_locals, set_locals; simpl.
    destruct (out_result (extractSegment env audioPath _ start _ l w));
      [reflexivity | apply IH].
Qed.

Lemma extractSegment_run (p : string) (s d : Q) (l : list string) (w : world) :
  let r := ffmpeg_extractSegment env (trace w) audioPath p s d in
  let ev := EvExtractSegment audioPath p s d r in
  trace (out_world (extractSegment env audioPath p s d l w)) = trace w ++ [ev]
  /\ out_locals (extractSegment env audioPath p s d l w) = l
  /\ match r with
     | inl e => out_result (extractSegment env audioPath p s d l w) = inl e
     | inr _ => out_result (extractSegment env audioPath p s d l w) = inr p
     end.
Proof.
  unfold extractSegment. cbv zeta.
  destruct (ffmpeg_extractSegment env (trace w) audioPath p s d);
    simpl; rewrite ?leave_partial_trace; auto.
Qed.

Lemma extract_ranges_spec (ranges : list (Q * Q)) (l : list string) (w : world) :
  let o := extract_ranges env jobId audioPath ranges l w in
  exists new,
    trace (out_world o) = trace w ++ new
    /\ Forall (fun e => is_media_event e = true) new
    /\ out_locals o = l ++ rendered new
    /\ (out_result o = inr tt ->
        exists items,
          map fst items = ranges
          /\ new = extract_events env jobId audioPath (length l) items).
Proof.
  revert l w. induction ranges as [|[s d] rest IH]; intros l w; simpl.
  - exists []. rewrite !app_nil_r. repeat split; [constructor|].
    intros _. exists []. split; reflexivity.
  - unfold bind, get_locals, set_locals; simpl.
    set (p := seg_path env jobId (length l)).
    destruct (extractSegment_run p s d l w) as (Htr & Hl & Hr).
    destruct (ffmpeg_extractSegment env (trace w) audioPath p s d)
      as [e|size] eqn:Eo; cbv zeta in *; rewrite Hr.
    + exists [EvExtractSegment audioPath p s d (inl e)]. simpl.
      rewrite Htr, Hl, app_nil_r.
      repeat split; [repeat constructor | discriminate].
    + destruct (IH (l ++ [p]) (out_world (extractSegment env audioPath p s d l w)))
        as (new & Htr' & Hall & Hloc & Hok).
      exists (EvExtractSegment audioPath p s d (inr size) :: new).
      rewrite Htr', Htr, <- app_assoc. simpl.
      repeat split; [constructor; [reflexivity | assumption] | |].
      * rewrite Hloc, <- app_assoc. reflexivity.
      * intros Hres. destruct (Hok Hres) as (items & Hmap & Hnew).
        exists ((s, d, size) :: items). simpl. rewrite Hmap. split; [reflexivity|].
        rewrite Hnew, length_app, Nat.add_comm. reflexivity.
Qed.

End LargeFile.

Section LargeFileRun.
Context (env : Env).

Lemma rendered_extract_events (jobId audioPath : string) (n : nat)
    (items : list (Q * Q * N)) :
  rendered (extract_events env jobId audioPath n items)
  = map (seg_path env jobId) (seq n (length items)).
Proof.
  revert n. induction items as [|[[s d] size] rest IH]; intros n; simpl;
    [reflexivity | by rewrite IH].
Qed.

(** Extraction, probing and the loop: only media events; every rendered
    file is the audio file or a registered segment; on success the
    segments extracted are those of the plan of the probed duration. *)
Lemma extract_phase_spec (filePath jobId audioPath : string) (w : world) :
  let o := extract_phase env filePath jobId audioPath [] w in
  exists new,
    trace (out_world o) = trace w ++ new
    /\ Forall (fun e => is_media_event e = true) new
    /\ (exists a, rendered new = a ++ out_locals o
                  /\ (a = [] \/ a = [audioPath]))
    /\ (out_result o = inr tt ->
        exists audioSize duration items,
          new = EvExtractAudio filePath audioPath (inr audioSize)
                :: EvFfprobe audioPath (inr duration)
                :: extract_events env jobId audioPath 0 items
          /\ map fst items
             = plan SEGMENT_DURATION_SEC SEGMENT_DURATION_SEC_pos
                 (default 0%Q duration)
          /\ out_locals o = map (seg_path env jobId) (seq 0 (length items))).
Proof.
  unfold extract_phase, bind, extractAudio, getDuration. simpl.
  destruct (ffmpeg_extractAudio env (trace w) filePath audioPath)
    as [e|audioSize] eqn:Ea; simpl.
  { exists [EvExtractAudio filePath audioPath (inl e)].
    rewrite leave_partial_trace.
    repeat split; [repeat constructor | | discriminate].
    exists []. auto. }
  destruct (ffmpeg_ffprobe env _ audioPath) as [e|duration] eqn:Ed; simpl.
  { exists [EvExtractAudio filePath audioPath (inr audioSize);
            EvFfprobe audioPath (inl e)].
    rewrite <- app_assoc.
    repeat split; [repeat constructor | | discriminate].
    exists [audioPath]. auto. }
  assert (Hrun : forall d w2,
    trace w2 = trace w ++ [EvExtractAudio filePath audioPath (inr audioSize);
                           EvFfprobe audioPath (inr duration)] ->
    let o := segment_loop env jobId audioPath d 0 [] w2 in
    exists new,
      trace (out_world o) = trace w ++ new
      /\ Forall (fun e => is_media_event e = true) new
      /\ (exists a, rendered new = a ++ out_locals o
                    /\ (a = [] \/ a = [audioPath]))
      /\ (out_result o = inr tt ->
          exists items,
            new = EvExtractAudio filePath audioPath (inr audioSize)
                  :: EvFfprobe audioPath (inr duration)
                  :: extract_events env jobId audioPath 0 items
            /\ map fst items
               = plan SEGMENT_DURATION_SEC SEGMENT_DURATION_SEC_pos d
            /\ out_locals o = map (seg_path env jobId) (seq 0 (length items)))).
  { intros d w2 Hw2. cbv zeta. rewrite segment_loop_plan.
    destruct (extract_ranges_spec env jobId audioPath
                (plan_from SEGMENT_DURATION_SEC SEGMENT_DURATION_SEC_pos d 0)
                [] w2) as (new & Htr & Hall & Hloc & Hok).
    exists (EvExtractAudio filePath audioPath (inr audioSize)
            :: EvFfprobe audioPath (inr duration) :: new).
    rewrite Htr, Hw2, <- !app_assoc. simpl.
    repeat split; [repeat constructor; assumption | |].
    - exists [audioPath]. rewrite Hloc. auto.
    - intros Hres. destruct (Hok Hres) as (items & Hmap & Hnew).
      exists items. rewrite Hloc, Hnew, rendered_extract_events.
      repeat split. exact Hmap. }
  destruct duration as [d|]; simpl.
  - edestruct (Hrun d) as (new & H1 & H2 & H3 & H4);
      [|exists new; repeat split; try eassumption].
    { simpl. rewrite <- app_assoc. reflexivity. }
    intros Hres. destruct (H4 Hres) as (items & ? & ? & ?).
    exists audioSize, (Some d), items. auto.
  - edestruct (Hrun 0%Q) as (new & H1 & H2 & H3 & H4);
      [|exists new; repeat split; try eassumption].
    { simpl. rewrite <- app_assoc. reflexivity. }
    intros Hres. destruct (H4 Hres) as (items & ? & ? & ?).
    exists audioSize, None, items. auto.
Qed.

Lemma transcribe_segments_spec {L} (openai : string) (segments : list string)
    (texts : list string) (l : L) (w : world) :
  let o := transcribe_segments env openai segments texts l w in
  exists new,
    trace (out_world o) = trace w ++ new
    /\ fs (out_world o) = fs w
    /\ out_locals o = l
    /\ Forall (fun e => is_adapter_event e = true) new
    /\ (forall texts',
        out_result o = inr texts' ->
        exists items,
          map (fun it => fst (fst it)) items = segments
          /\ Forall (fun it => (snd (fst it) <= WHISPER_MAX_SIZE)%N) items
          /\ new = transcribe_events openai items
          /\ texts' = texts ++ map (fun it => segment_text (snd it)) items).
Proof.
  revert texts l w. induction segments as [|p rest IH]; intros texts l w; simpl.
  - exists []. rewrite app_nil_r. repeat split; [constructor|].
    intros texts' [= <-]. exists []. rewrite app_nil_r.
    repeat split; constructor.
  - unfold bind. rewrite transcribeFile_run.
    destruct (fs w !! p) as [size|] eqn:Efs; simpl.
    2:{ exists [EvStat p (inl (ENOENT "stat" p))].
        repeat split; [repeat constructor | discriminate]. }
    destruct (N.ltb_spec WHISPER_MAX_SIZE size) as [Hbig|Hsmall]; simpl.
    { exists [EvStat p (inr size)].
      repeat split; [repeat constructor | discriminate]. }
    destruct (openai_transcriptions_create env _ openai p)
      as [e|text] eqn:Er; simpl.
    { exists [EvStat p (inr size); EvCreateTranscription openai p (inl e)].
      rewrite <- app_assoc.
      repeat split; [repeat constructor | discriminate]. }
    match goal with
    | |- context [transcribe_segments env openai rest _ l ?w2] =>
        destruct (IH (texts ++ [segment_text text]) l w2)
          as (new & Htr & Hfs & Hloc & Hall & Hok)
    end.
    exists (EvStat p (inr size)
            :: EvCreateTranscription openai p (inr text) :: new).
    rewrite Htr, Hfs, Hloc. simpl. rewrite <- !app_assoc.
    repeat split; [repeat constructor; assumption|].
    intros texts' Hres. destruct (Hok texts' Hres) as (items & H1 & H2 & H3 & H4).
    exists ((p, size, text) :: items). simpl.
    rewrite H1, H3, H4, <- app_assoc.
    repeat split. constructor; assumption.
Qed.

Lemma fs_unlink_run {L} (p : string) (l : L) (w : world) :
  exists r,
    trace (out_world (fs_unlink env p l w)) = trace w ++ [EvUnlink p r]
    /\ out_locals (fs_unlink env p l w) = l
    /\ out_result (fs_unlink env p l w) = r
    /\ match r with
       | inl _ => fs (out_world (fs_unlink env p l w)) = fs w
       | inr _ => fs (out_world (fs_unlink env p l w)) = delete p (fs w)
       end
    /\ (unlink_failure env (trace w) p = None ->
        fs (out_world (fs_unlink env p l w)) !! p = None).
Proof.
  unfold fs_unlink. cbv zeta.
  destruct (unlink_failure env (trace w) p) as [e|]; simpl.
  { exists (inl e). repeat split. discriminate. }
  destruct (fs w !! p) eqn:Efs; simpl.
  - exists (inr tt). repeat split. intros _. apply lookup_delete_eq.
  - exists (inl (ENOENT "unlink" p)). auto.
Qed.

Lemma unlink_quietly_cons {L} (p : string) (rest : list string) (l : L)
    (w : world) :
  unlink_quietly env (p :: rest) l w
  = unlink_quietly env rest l (out_world (fs_unlink env p l w)).
Proof.
  simpl. unfold bind, try_catch, ret.
  destruct (fs_unlink_run p l w) as (r & _ & Hl & Hr & _ & _).
  destruct (fs_unlink env p l w) as [l1 w1 [e|[]]]; simpl in *; by subst.
Qed.

(** The cleanup loop: one unlink per path, in order; it never throws; a
    path whose unlink succeeded is absent afterwards, and nothing is
    created. *)
Lemma unlink_quietly_spec {L} (toDelete : list string) (l : L) (w : world) :
  let o := unlink_quietly env toDelete l w in
  exists rs,
    length rs = length toDelete
    /\ trace (out_world o) = trace w ++ zip_with EvUnlink toDelete rs
    /\ out_locals o = l
    /\ out_result o = inr tt
    /\ (forall i p, toDelete !! i = Some p -> rs !! i = Some (inr tt) ->
                    fs (out_world o) !! p = None)
    /\ (forall q, fs w !! q = None -> fs (out_world o) !! q = None)
    /\ ((forall h q, unlink_failure env h q = None) ->
        forall p, p ∈ toDelete -> fs (out_world o) !! p = None).
Proof.
  revert l w. induction toDelete as [|p rest IH]; intros l w.
  - exists []. simpl. rewrite app_nil_r. repeat split; [|auto|].
    + intros i p. rewrite lookup_nil. discriminate.
    + intros _ p Hp. by apply elem_of_nil in Hp.
  - cbv zeta. rewrite unlink_quietly_cons.
    destruct (fs_unlink_run p l w) as (r & Htr & _ & _ & Hfs & Hquiet).
    destruct (IH l (out_world (fs_unlink env p l w)))
      as (rs & Hlen & Htr' & Hl' & Hres & Hdel & Hnone & Hall).
    exists (r :: rs). simpl. rewrite Hlen, Htr', Htr, <- app_assoc.
    repeat split; [assumption..| | |].
    + intros [|i] q; simpl; [|apply Hdel].
      intros [= <-] [= ->]. apply Hnone. rewrite Hfs. apply lookup_delete_eq.
    + intros q Hq. apply Hnone. destruct r; rewrite Hfs; [assumption|].
      rewrite lookup_delete_None. auto.
    + intros Hnofail q Hq. apply elem_of_cons in Hq as [->|Hq].
      * apply Hnone, Hquiet, Hnofail.
      * by apply Hall.
Qed.

End LargeFileRun.

(** ** Reading traces *)

Lemma rendered_app (t1 t2 : list event) :
  rendered (t1 ++ t2) = rendered t1 ++ rendered t2.
Proof. apply omap_app. Qed.

Lemma local_calls_app (t1 t2 : list event) :
  local_calls (t1 ++ t2) = local_calls t1 ++ local_calls t2.
Proof. apply omap_app. Qed.

Lemma Forall_unlink_events (paths : list string) (rs : list (js_error + unit)) :
  Forall (fun e => is_unlink_event e = true) (zip_with EvUnlink paths rs).
Proof.
  revert rs. induction paths as [|p paths IH]; intros [|r rs]; simpl;
    constructor; auto.
Qed.

Lemma adapter_calls_transcribe_events (openai : string)
    (items : list (string * N * option string)) :
  adapter_calls (transcribe_events openai items)
  = map (fun it => fst (fst it)) items.
Proof.
  induction items as [|[[p size] t] rest IH]; simpl; [reflexivity | by rewrite IH].
Qed.

Lemma network_calls_transcribe_events (openai : string)
    (items : list (string * N * option string)) :
  network_calls (transcribe_events openai items)
  = map (fun it => fst (fst it)) items.
Proof.
  induction items as [|[[p size] t] rest IH]; simpl; [reflexivity | by rewrite IH].
Qed.

Ltac no_events :=
  first
    [ eapply (omap_nil_Forall is_media_event); [|eassumption]
    | eapply (omap_nil_Forall is_adapter_event); [|eassumption]
    | eapply (omap_nil_Forall is_unlink_event); [|apply Forall_unlink_events] ];
  intros [] ?; (reflexivity || discriminate).

(** ** [transcribeLargeFile] as a whole *)

Section LargeFileWhole.
Context (env : Env).

Lemma transcribeLargeFile_try_run (openai filePath jobId audioPath : string)
    (w : world) :
  transcribeLargeFile_try env openai filePath jobId audioPath [] w
  = let o1 := extract_phase env filePath jobId audioPath [] w in
    match out_result o1 with
    | inl e => Out (out_locals o1) (out_world o1) (inl e)
    | inr _ =>
        let o2 := transcribe_segments env openai (out_locals o1) []
                    (out_locals o1) (out_world o1) in
        match out_result o2 with
        | inl e => Out (out_locals o2) (out_world o2) (inl e)
        | inr texts => Out (out_locals o2) (out_world o2) (inr (assemble texts))
        end
    end.
Proof.
  unfold transcribeLargeFile_try, bind, get_locals, ret. simpl.
  destruct (out_result (extract_phase env filePath jobId audioPath [] w));
    reflexivity.
Qed.

Lemma transcribeLargeFile_run {L} (openai filePath : string) (l : L)
    (w : world) :
  let jobId := job_id env filePath in
  let audioPath := audio_path env jobId in
  let o1 := transcribeLargeFile_try env openai filePath jobId audioPath [] w in
  transcribeLargeFile env openai filePath l w
  = Out l
      (out_world (unlink_quietly env (audioPath :: out_locals o1)
                    (out_locals o1) (out_world o1)))
      (out_result o1).
Proof.
  cbv zeta. unfold transcribeLargeFile, call, try_finally,
    transcribeLargeFile_finally, bind, get_locals.
  cbn [out_result out_locals out_world].
  set (o1 := transcribeLargeFile_try env openai filePath _ _ [] w).
  destruct (unlink_quietly_spec env
              (audio_path env (job_id env filePath) :: out_locals o1)
              (out_locals o1) (out_world o1))
    as (rs & _ & _ & _ & Hres & _).
  cbv zeta in Hres. rewrite Hres. reflexivity.
Qed.

(** What the [try] block adds to the trace, whatever its completion. *)
Lemma transcribeLargeFile_try_trace (openai filePath jobId audioPath : string)
    (w : world) :
  let o := transcribeLargeFile_try env openai filePath jobId audioPath [] w in
  exists new1 new2 a,
    trace (out_world o) = trace w ++ new1 ++ new2
    /\ Forall (fun e => is_media_event e = true) new1
    /\ Forall (fun e => is_adapter_event e = true) new2
    /\ rendered new1 = a ++ out_locals o
    /\ (a = [] \/ a = [audioPath]).
Proof.
  cbv zeta. rewrite transcribeLargeFile_try_run. cbv zeta.
  destruct (extract_phase_spec env filePath jobId audioPath w)
    as (new1 & Htr1 & Hall1 & (a & Hrend & Ha) & _).
  cbv zeta in *.
  destruct (out_result (extract_phase env filePath jobId audioPath [] w)).
  { exists new1, [], a. rewrite app_nil_r. simpl. repeat split; auto. }
  match goal with
  | |- context [transcribe_segments env openai ?segs [] ?l1 ?w1] =>
      destruct (transcribe_segments_spec env openai segs [] l1 w1)
        as (new2 & Htr2 & _ & Hl2 & Hall2 & _);
      cbv zeta in *;
      exists new1, new2, a;
      destruct (out_result (transcribe_segments env openai segs [] l1 w1));
      simpl; rewrite Htr2, Htr1, Hl2, <- app_assoc; repeat split; auto
  end.
Qed.

End LargeFileWhole.

(** Nothing in the [try] block of [transcribeLargeFile] depends on how
    [fs.unlink] fails. *)
Section UnlinkIrrelevant.
Context (u : list event -> string -> option js_error) (env : Env).

Lemma extract_ranges_any_unlink (jobId audioPath : string)
    (ranges : list (Q * Q)) (l : list string) (w : world) :
  extract_ranges (with_unlink_failure u env) jobId audioPath ranges l w
  = extract_ranges env jobId audioPath ranges l w.
Proof.
  revert l w. induction ranges as [|[s d] rest IH]; intros l w; [reflexivity|].
  simpl. unfold bind, get_locals, set_locals, extractSegment. simpl.
  destruct (ffmpeg_extractSegment env (trace w) audioPath _ s d);
    simpl; [reflexivity | apply IH].
Qed.

Lemma extract_phase_any_unlink (filePath jobId audioPath : string)
    (l : list string) (w : world) :
  extract_phase (with_unlink_failure u env) filePath jobId audioPath l w
  = extract_phase env filePath jobId audioPath l w.
Proof.
  unfold extract_phase, bind, extractAudio, getDuration. simpl.
  destruct (ffmpeg_extractAudio env (trace w) filePath audioPath);
    simpl; [reflexivity|].
  destruct (ffmpeg_ffprobe env _ audioPath) as [e|[d|]]; simpl;
    [reflexivity | |];
    by rewrite !segment_loop_plan, extract_ranges_any_unlink.
Qed.

Lemma transcribe_segments_any_unlink {L} (openai : string)
    (segments texts : list string) (l : L) (w : world) :
  transcribe_segments (with_unlink_failure u env) openai segments texts l w
  = transcribe_segments env openai segments texts l w.
Proof.
  revert texts l w. induction segments as [|p rest IH]; intros texts l w;
    [reflexivity|].
  simpl. unfold bind.
  change (transcribeFile (with_unlink_failure u env) openai p l w)
    with (transcribeFile env openai p l w).
  destruct (out_result (transcribeFile env openai p l w));
    [reflexivity | apply IH].
Qed.

Lemma transcribeLargeFile_try_any_unlink (openai filePath jobId audioPath : string)
    (w : world) :
  transcribeLargeFile_try (with_unlink_failure u env) openai filePath jobId
    audioPath [] w
  = transcribeLargeFile_try env openai filePath jobId audioPath [] w.
Proof.
  rewrite !transcribeLargeFile_try_run. cbv zeta.
  rewrite extract_phase_any_unlink.
  destruct (out_result (extract_phase env filePath jobId audioPath [] w));
    [reflexivity|].
  by rewrite transcribe_segments_any_unlink.
Qed.

Lemma transcribeLargeFile_any_unlink {L} (openai filePath : string) (l : L)
    (w : world) :
  out_result (transcribeLargeFile (with_unlink_failure u env) openai filePath
                l w)
  = out_result (transcribeLargeFile env openai filePath l w).
Proof.
  rewrite !transcribeLargeFile_run. cbv zeta. cbn [out_result].
  apply (f_equal out_result).
  apply transcribeLargeFile_try_any_unlink.
Qed.

Lemma backend_result_any_unlink (f : upload) (w : world) :
  backend_result (with_unlink_failure u env) f w = backend_result env f w.
Proof.
  unfold backend_result. cbv zeta.
  change (TRANSCRIPTION_MODE (with_unlink_failure u env))
    with (TRANSCRIPTION_MODE env).
  change (usable_key (with_unlink_failure u env)) with (usable_key env).
  destruct (String.eqb (TRANSCRIPTION_MODE env) "local"); [reflexivity|].
  destruct (usable_key env) as [openai|]; [|reflexivity].
  destruct (upload_size f <=? WHISPER_MAX_SIZE)%N; [reflexivity|].
  by rewrite transcribeLargeFile_any_unlink.
Qed.

End UnlinkIrrelevant.

(** X20.  [transcribeLargeFile] completes as its [try] block completed,
    with the same transcript or the same error: the cleanup cannot change
    it, and the completion is the same however [fs.unlink] fails.
    Every file that an extraction which completed has rendered during the
    [try] block, the whole-audio file and each segment file, is on the
    deletion list; the cleanup that follows the [try] block consists of
    exactly one unlink per path of that list; a file whose unlink
    succeeded no longer exists on return, a failed unlink is passed over,
    and when no unlink is made to fail, no file of the list exists on
    return.  What an extraction that failed has written is not covered. *)
Theorem cleanup_always_runs (env : Env) (L : Type) (openai filePath : string)
    (l : L) (w : world) :
  let jobId := job_id env filePath in
  let audioPath := audio_path env jobId in
  let o_try :=
    transcribeLargeFile_try env openai filePath jobId audioPath [] w in
  let o := transcribeLargeFile env openai filePath l w in
  let toDelete := audioPath :: out_locals o_try in
  out_result o = out_result o_try
  /\ (forall u,
        out_result (transcribeLargeFile (with_unlink_failure u env) openai
                      filePath l w) = out_result o)
  /\ (forall p, p ∈ rendered (added (trace w) (trace (out_world o_try))) ->
                p ∈ toDelete)
  /\ exists rs,
       length rs = length toDelete
       /\ trace (out_world o)
          = trace (out_world o_try) ++ zip_with EvUnlink toDelete rs
       /\ (forall i p, toDelete !! i = Some p -> rs !! i = Some (inr tt) ->
                       fs (out_world o) !! p = None)
       /\ ((forall h p, unlink_failure env h p = None) ->
           forall p, p ∈ toDelete -> fs (out_world o) !! p = None).
Proof.
  intros jobId audioPath o_try o toDelete. unfold o.
  split; [|split; [intros u; apply transcribeLargeFile_any_unlink|]];
    rewrite transcribeLargeFile_run; fold jobId audioPath o_try; simpl;
    [reflexivity|].
  split.
  - destruct (transcribeLargeFile_try_trace env openai filePath jobId audioPath w)
      as (new1 & new2 & a & Htr & Hall1 & Hall2 & Hrend & Ha).
    fold o_try in Htr, Hrend. rewrite Htr, added_app, rendered_app, Hrend.
    assert (rendered new2 = []) as -> by no_events.
    rewrite app_nil_r. intros p Hp. unfold toDelete.
    apply elem_of_cons. apply elem_of_app in Hp as [Hp|Hp]; [|by right].
    destruct Ha as [-> | ->]; [by apply elem_of_nil in Hp|].
    apply list_elem_of_singleton in Hp as ->. by left.
  - destruct (unlink_quietly_spec env toDelete (out_locals o_try)
                (out_world o_try))
      as (rs & Hlen & Htr & _ & _ & Hdel & _ & Hall).
    exists rs. auto.
Qed.

(** C2.  Not every temporary file is deleted before [transcribeLargeFile]
    returns.  On a run in which the media tool is killed while it writes
    the second of three segments, after 4096 bytes,
    [transcribeLargeFile] throws the error of the tool; its cleanup
    unlinks the extracted audio and the first segment, the two files on
    its deletion list, and both are gone on return; the path of the second
    segment was to be put on the list after its extraction only, so no
    unlink is made for it, and what the tool had written is still on disk
    when the function returns. *)
Theorem failed_extraction_leaves_orphan :
  let new :=
    added (trace (stored 30000000)) (trace (out_world interrupted_run)) in
  out_result interrupted_run = inl tool_killed
  /\ failed_segments new = ["uploads/temp/video-1-seg-1.mp3"]
  /\ rendered new
     = ["uploads/temp/video-1-audio.mp3"; "uploads/temp/video-1-seg-0.mp3"]
  /\ unlink_calls new
     = ["uploads/temp/video-1-audio.mp3"; "uploads/temp/video-1-seg-0.mp3"]
  /\ fs (out_world interrupted_run) !! "uploads/temp/video-1-audio.mp3" = None
  /\ fs (out_world interrupted_run) !! "uploads/temp/video-1-seg-0.mp3" = None
  /\ fs (out_world interrupted_run) !! "uploads/temp/video-1-seg-1.mp3"
     = Some 4096%N.
Proof. vm_compute. repeat split. Qed.

(** ** The route *)

Section Route.
Context (env : Env).

Lemma transcribeFile_locals {L} (openai p : string) (l : L) (w : world) :
  out_locals (transcribeFile env openai p l w) = l.
Proof.
  rewrite transcribeFile_run. destruct (fs w !! p) as [size|]; [|reflexivity].
  simpl. destruct (WHISPER_MAX_SIZE <? size)%N; reflexivity.
Qed.

Lemma handler_try_run (f : upload) (w : world) :
  let path := upload_path f in
  handler_try env (Some f) None w
  = if String.eqb (TRANSCRIPTION_MODE env) "local"
    then respond_text path (runLocalWhisper env path (Some path) w)
    else
      match usable_key env with
      | None =>
          Out (Some path) (log_event (EvResponse key_missing_response) w)
            (inr tt)
      | Some openai =>
          if (upload_size f <=? WHISPER_MAX_SIZE)%N
          then
            let o := transcribeFile env openai path (Some path) w in
            respond_text path
              (Out (out_locals o) (out_world o)
                 match out_result o with
                 | inl e => inl e
                 | inr t => inr (or_default t NO_SPEECH)
                 end)
          else respond_text path
                 (transcribeLargeFile env openai path (Some path) w)
      end.
Proof.
  cbv zeta. unfold handler_try, usable_key, respond_text, bind, set_locals,
    res_json, emit.
  cbn [out_result out_locals out_world].
  destruct (String.eqb (TRANSCRIPTION_MODE env) "local").
  { unfold runLocalWhisper. cbn [out_result out_locals out_world].
    destruct (local_result env _); reflexivity. }
  destruct (env_OPENAI_API_KEY env) as [apiKey|]; [|reflexivity].
  destruct (truthy apiKey); [|reflexivity].
  destruct (upload_size f <=? WHISPER_MAX_SIZE)%N.
  - pose proof (transcribeFile_locals apiKey (upload_path f)
                  (Some (upload_path f)) w) as Hl.
    destruct (transcribeFile env apiKey (upload_path f) (Some (upload_path f)) w)
      as [l1 w1 [e|t]]; simpl in *; subst l1; reflexivity.
  - rewrite transcribeLargeFile_run. cbv zeta.
    cbn [out_result out_locals out_world].
    destruct (out_result (transcribeLargeFile_try env apiKey _ _ _ [] w));
      reflexivity.
Qed.

Lemma response_eta (r : response) :
  {| res_status := res_status r; res_body := res_body r |} = r.
Proof. by destruct r. Qed.

(** The route as the sequence of its three blocks. *)
Lemma handler_run {L} (file : option upload) (l : L) (w : world) :
  let o1 := handler_try env file None w in
  let w2 := match out_result o1 with
            | inl e =>
                log_event (EvResponse (error_response e))
                  (log_event (EvConsoleError e) (out_world o1))
            | inr _ => out_world o1
            end in
  handler env file l w
  = Out l (out_world (handler_finally env (out_locals o1) w2))
      (out_result (handler_finally env (out_locals o1) w2)).
Proof.
  cbv zeta. unfold handler, call, try_finally, try_catch, handler_catch, bind,
    res_json, emit.
  cbn [out_result out_locals out_world].
  destruct (handler_try env file None w) as [l1 w1 [e|[]]];
    cbn [out_result out_locals out_world]; rewrite ?response_eta.
  - destruct (handler_finally env l1 _) as [l3 w3 [e3|[]]]; reflexivity.
  - destruct (handler_finally env l1 _) as [l3 w3 [e3|[]]]; reflexivity.
Qed.

Lemma handler_finally_spec (p : string) (w : world) :
  exists r,
    out_result (handler_finally env (Some p) w) = inr tt
    /\ trace (out_world (handler_finally env (Some p) w))
       = trace w ++ cleanup_events p r
    /\ (truthy p = true -> r = inr tt ->
        fs (out_world (handler_finally env (Some p) w)) !! p = None).
Proof.
  unfold handler_finally, bind, get_locals, try_catch, emit, cleanup_events.
  cbn [out_result out_locals out_world].
  destruct (truthy p).
  2:{ exists (inr tt). simpl. rewrite app_nil_r. repeat split. discriminate. }
  destruct (fs_unlink_run env p (Some p) w) as (r & Htr & Hl & Hr & Hfs & _).
  exists r. destruct (fs_unlink env p (Some p) w) as [l1 w1 [e|[]]];
    simpl in *; subst; simpl; rewrite ?Htr, <- ?app_assoc.
  - repeat split. discriminate.
  - repeat split. intros _ _. rewrite Hfs. apply lookup_delete_eq.
Qed.

(** The route when its [try] block ends by answering with [text], or
    throws, after a backend whose run added [work] to the trace. *)
Lemma handler_after_backend {L} (f : upload) (l : L) (w : world)
    (backend : outcome (option string) string) (work : list event) :
  handler_try env (Some f) None w = respond_text (upload_path f) backend ->
  trace (out_world backend) = trace w ++ work ->
  exists r,
    trace (out_world (handler env (Some f) l w))
    = trace w ++ work ++ answer_events (out_result backend)
        ++ cleanup_events (upload_path f) r
    /\ out_result (handler env (Some f) l w) = inr tt
    /\ (truthy (upload_path f) = true -> r = inr tt ->
        fs (out_world (handler env (Some f) l w)) !! upload_path f = None).
Proof.
  intros Htry Hwork. rewrite handler_run. cbv zeta. rewrite Htry.
  unfold respond_text.
  destruct (out_result backend) as [e|text];
    cbn [out_result out_locals out_world].
  - match goal with
    | |- context [handler_finally env _ ?w2] =>
        destruct (handler_finally_spec (upload_path f) w2) as (r & Hres & Htr & Hfs)
    end.
    exists r. rewrite Htr, Hres. simpl. rewrite Hwork, <- !app_assoc. auto.
  - match goal with
    | |- context [handler_finally env _ ?w2] =>
        destruct (handler_finally_spec (upload_path f) w2) as (r & Hres & Htr & Hfs)
    end.
    exists r. rewrite Htr, Hres. simpl. rewrite Hwork, <- !app_assoc. auto.
Qed.

Lemma handler_main_after_backend (f : upload) (w : world)
    (backend : outcome (option string) string) (work : list event) :
  handler_try env (Some f) None w = respond_text (upload_path f) backend ->
  trace (out_world backend) = trace w ++ work ->
  trace (out_world (try_catch (handler_try env (Some f)) handler_catch None w))
  = trace w ++ work ++ answer_events (out_result backend).
Proof.
  intros Htry Hwork. unfold try_catch. rewrite Htry. unfold respond_text.
  destruct (out_result backend) as [e|text];
    cbn [out_result out_locals out_world];
    unfold handler_catch, bind, res_json, emit;
    cbn [out_result out_locals out_world log_event trace];
    rewrite ?response_eta, Hwork, <- ?app_assoc; reflexivity.
Qed.

Lemma handler_main_no_key (f : upload) (w : world) :
  String.eqb (TRANSCRIPTION_MODE env) "local" = false ->
  usable_key env = None ->
  trace (out_world (try_catch (handler_try env (Some f)) handler_catch None w))
  = trace w ++ [EvResponse key_missing_response].
Proof.
  intros Hmode Hkey. unfold try_catch.
  rewrite handler_try_run. cbv zeta. rewrite Hmode, Hkey. reflexivity.
Qed.

Lemma handler_no_key {L} (f : upload) (l : L) (w : world) :
  String.eqb (TRANSCRIPTION_MODE env) "local" = false ->
  usable_key env = None ->
  exists r,
    trace (out_world (handler env (Some f) l w))
    = trace w ++ EvResponse key_missing_response
                 :: cleanup_events (upload_path f) r
    /\ out_result (handler env (Some f) l w) = inr tt
    /\ (truthy (upload_path f) = true -> r = inr tt ->
        fs (out_world (handler env (Some f) l w)) !! upload_path f = None).
Proof.
  intros Hmode Hkey. rewrite handler_run. cbv zeta.
  rewrite handler_try_run. cbv zeta. rewrite Hmode, Hkey.
  cbn [out_result out_locals out_world].
  match goal with
  | |- context [handler_finally env _ ?w2] =>
      destruct (handler_finally_spec (upload_path f) w2) as (r & Hres & Htr & Hfs)
  end.
  exists r. rewrite Htr, Hres. simpl. rewrite <- !app_assoc. auto.
Qed.

Lemma handler_no_file {L} (l : L) (w : world) :
  handler env None l w
  = Out l (log_event (EvResponse no_file_response) w) (inr tt).
Proof. reflexivity. Qed.

(** The three backends, as the route runs them. *)
Lemma local_backend_trace (path : string) (l : option string) (w : world) :
  trace (out_world (runLocalWhisper env path l w))
  = trace w ++ [EvSpawnPython path (spawn_python env (trace w) path)].
Proof. reflexivity. Qed.

Lemma remote_backend_trace {L} (openai path : string) (l : L) (w : world) :
  exists work,
    trace (out_world (transcribeFile env openai path l w)) = trace w ++ work
    /\ Forall (fun e => is_adapter_event e = true) work
    /\ adapter_calls work = [path]
    /\ (network_calls work = [] \/ network_calls work = [path])
    /\ (forall size, fs w !! path = Some size ->
                     (size <= WHISPER_MAX_SIZE)%N ->
                     network_calls work = [path]).
Proof.
  rewrite transcribeFile_run. destruct (fs w !! path) as [size|]; simpl.
  2:{ exists [EvStat path (inl (ENOENT "stat" path))].
      repeat split; [repeat constructor | auto | discriminate]. }
  destruct (N.ltb_spec WHISPER_MAX_SIZE size); simpl.
  { exists [EvStat path (inr size)].
    repeat split; [repeat constructor | auto |].
    intros ? [= <-] ?. lia. }
  eexists [EvStat path (inr size); EvCreateTranscription openai path _].
  rewrite <- app_assoc. repeat split; [repeat constructor | auto].
Qed.

Lemma segmented_backend_trace {L} (openai path : string) (l : L) (w : world) :
  exists new1 new2 unl,
    trace (out_world (transcribeLargeFile env openai path l w))
    = trace w ++ new1 ++ new2 ++ unl
    /\ Forall (fun e => is_media_event e = true) new1
    /\ Forall (fun e => is_adapter_event e = true) new2
    /\ Forall (fun e => is_unlink_event e = true) unl.
Proof.
  rewrite transcribeLargeFile_run. cbv zeta. cbn [out_world].
  destruct (transcribeLargeFile_try_trace env openai path
              (job_id env path) (audio_path env (job_id env path)) w)
    as (new1 & new2 & a & Htr & Hall1 & Hall2 & _).
  cbv zeta in Htr.
  match goal with
  | |- context [unlink_quietly env ?d ?l1 ?w1] =>
      destruct (unlink_quietly_spec env d l1 w1) as (rs & _ & Htr' & _);
      cbv zeta in Htr';
      exists new1, new2, (zip_with EvUnlink d rs)
  end.
  rewrite Htr', Htr, <- !app_assoc.
  repeat split; auto using Forall_unlink_events.
Qed.

End Route.

(** ** What the route answers *)

Lemma or_else_nonempty (a b : string) : b <> "" -> or_else a b <> "".
Proof. unfold or_else. destruct a; simpl; [auto | discriminate]. Qed.

Lemma or_default_nonempty (a : option string) (b : string) :
  b <> "" -> or_default a b <> "".
Proof. destruct a; simpl; [apply or_else_nonempty | auto]. Qed.

Lemma assemble_nonempty (texts : list string) : assemble texts <> "".
Proof. apply or_else_nonempty. discriminate. Qed.

Lemma filter_nil_Forall (P Q : event -> bool) (new : list event) :
  (forall e, P e = true -> Q e = false) ->
  Forall (fun e => P e = true) new -> List.filter Q new = [].
Proof.
  intros HPQ Hall. induction Hall as [|e new He _ IH]; [reflexivity|].
  simpl. rewrite (HPQ e He). exact IH.
Qed.

Lemma filter_media_app (t1 t2 : list event) :
  List.filter is_media_event (t1 ++ t2)
  = List.filter is_media_event t1 ++ List.filter is_media_event t2.
Proof. apply List.filter_app. Qed.

Lemma cleanup_events_quiet (p : string) (r : js_error + unit) :
  responses (cleanup_events p r) = []
  /\ adapter_calls (cleanup_events p r) = []
  /\ network_calls (cleanup_events p r) = []
  /\ local_calls (cleanup_events p r) = []
  /\ List.filter is_media_event (cleanup_events p r) = [].
Proof.
  unfold cleanup_events, final_events.
  destruct (truthy p); [|by repeat split]. destruct r; by repeat split.
Qed.

Lemma answer_events_quiet (r : js_error + string) :
  adapter_calls (answer_events r) = []
  /\ network_calls (answer_events r) = []
  /\ local_calls (answer_events r) = []
  /\ List.filter is_media_event (answer_events r) = []
  /\ responses (answer_events r)
     = [match r with
        | inl e => error_response e
        | inr text => text_response text
        end].
Proof. destruct r; by repeat split. Qed.

Lemma error_response_body (e : js_error) :
  exists msg, res_body (error_response e) = BodyError msg.
Proof. unfold error_response. repeat case_match; simpl; eauto. Qed.

Lemma error_response_not_text (e : js_error) (text : string) :
  text_response text <> error_response e.
Proof.
  intros H. destruct (error_response_body e) as (msg & Hmsg).
  rewrite <- H in Hmsg. discriminate Hmsg.
Qed.

Section Answers.
Context (env : Env).

Lemma local_result_nonempty (r : child_result) (text : string) :
  local_result env r = inr text -> text <> "".
Proof.
  unfold local_result. destruct r as [msg|code out err]; [discriminate|].
  destruct (bool_decide (code = Some 0%Z)).
  - destruct (JSON_get env "text" (trim out)); [|discriminate].
    intros [= <-]. by apply or_default_nonempty.
  - destruct (JSON_get env "error" _); [discriminate|].
    destruct (includes _ _ || includes _ _); discriminate.
Qed.

Lemma transcribeLargeFile_text {L} (openai path : string) (l : L) (w : world)
    (text : string) :
  out_result (transcribeLargeFile env openai path l w) = inr text ->
  text <> "".
Proof.
  rewrite transcribeLargeFile_run. cbv zeta. cbn [out_result].
  rewrite transcribeLargeFile_try_run. cbv zeta.
  destruct (out_result (extract_phase env _ _ _ _ _)); [discriminate|].
  destruct (out_result (transcribe_segments env _ _ _ _ _)); [discriminate|].
  intros [= <-]. apply assemble_nonempty.
Qed.

(** Every request with an upload either stops at the missing key or is
    served by one backend, answered, and cleaned up. *)
Lemma handler_cases {L} (f : upload) (l : L) (w : world) :
  let o := handler env (Some f) l w in
  let o_main := try_catch (handler_try env (Some f)) handler_catch None w in
  exists r,
    out_result o = inr tt
    /\ (truthy (upload_path f) = true -> r = inr tt ->
        fs (out_world o) !! upload_path f = None)
    /\ ((String.eqb (TRANSCRIPTION_MODE env) "local" = false
         /\ usable_key env = None
         /\ trace (out_world o_main)
            = trace w ++ [EvResponse key_missing_response]
         /\ trace (out_world o)
            = trace w ++ EvResponse key_missing_response
                         :: cleanup_events (upload_path f) r)
        \/ exists work res,
             served env f w work res
             /\ trace (out_world o_main) = trace w ++ work ++ answer_events res
             /\ trace (out_world o)
                = trace w ++ work ++ answer_events res
                    ++ cleanup_events (upload_path f) r).
Proof.
  cbv zeta.
  pose proof (handler_try_run env f w) as Htry. cbv zeta in Htry.
  destruct (String.eqb (TRANSCRIPTION_MODE env) "local") eqn:Hmode.
  { destruct (handler_after_backend env f l w _ _ Htry
                (local_backend_trace env _ _ _)) as (r & Htr & Hres & Hfs).
    pose proof (handler_main_after_backend env f w _ _ Htry
                  (local_backend_trace env _ _ _)) as Hmain.
    exists r. repeat split; [assumption..|]. right.
    eexists _, _. split; [|split; [exact Hmain | exact Htr]].
    unfold runLocalWhisper. cbn [out_result]. by apply served_local. }
  destruct (usable_key env) as [openai|] eqn:Hkey.
  2:{ destruct (handler_no_key env f l w Hmode Hkey) as (r & Htr & Hres & Hfs).
      pose proof (handler_main_no_key env f w Hmode Hkey) as Hmain.
      exists r. repeat split; [assumption..|]. left. auto. }
  destruct (N.leb_spec (upload_size f) WHISPER_MAX_SIZE) as [Hsmall|Hbig].
  - destruct (remote_backend_trace env openai (upload_path f)
                (Some (upload_path f)) w) as (work & Hwork & _).
    destruct (handler_after_backend env f l w _ work Htry Hwork)
      as (r & Htr & Hres & Hfs).
    pose proof (handler_main_after_backend env f w _ work Htry Hwork) as Hmain.
    exists r. repeat split; [assumption..|]. right.
    eexists _, _. split; [|split; [exact Hmain | exact Htr]].
    cbn [out_result]. by eapply served_single.
  - destruct (segmented_backend_trace env openai (upload_path f)
                (Some (upload_path f)) w)
      as (new1 & new2 & unl & Hwork & _).
    destruct (handler_after_backend env f l w _ _ Htry Hwork)
      as (r & Htr & Hres & Hfs).
    pose proof (handler_main_after_backend env f w _ _ Htry Hwork) as Hmain.
    exists r. repeat split; [assumption..|]. right.
    eexists _, _. split; [|split; [exact Hmain | exact Htr]].
    by eapply served_segmented.
Qed.

(** The backend's events contain no response, and a text it returns is
    not empty. *)
Lemma served_quiet (f : upload) (w : world) (work : list event)
    (res : js_error + string) :
  served env f w work res ->
  responses work = []
  /\ (forall text, res = inr text -> text <> "").
Proof.
  intros [Hmode | openai work' Hmode Hkey Hsize Hwork
          | openai work' Hmode Hkey Hsize Hwork].
  - split; [reflexivity|]. intros text. apply local_result_nonempty.
  - destruct (remote_backend_trace env openai (upload_path f)
                (Some (upload_path f)) w) as (work2 & Hwork2 & Hall & _).
    rewrite Hwork in Hwork2. apply app_inv_head in Hwork2 as <-.
    split; [no_events|].
    intros text. destruct (out_result _); [discriminate|].
    intros [= <-]. by apply or_default_nonempty.
  - destruct (segmented_backend_trace env openai (upload_path f)
                (Some (upload_path f)) w)
      as (new1 & new2 & unl & Hwork2 & Hall1 & Hall2 & Hall3).
    rewrite Hwork in Hwork2. apply app_inv_head in Hwork2 as ->.
    split.
    + rewrite !responses_app.
      assert (responses new1 = []) as -> by no_events.
      assert (responses new2 = []) as -> by no_events.
      eapply (omap_nil_Forall is_unlink_event); [|eassumption].
      intros [] ?; (reflexivity || discriminate).
    + intros text. apply transcribeLargeFile_text.
Qed.

End Answers.

Section RouteAnswers.
Context (env : Env).

(** The route answers exactly once, with one of four kinds of response. *)
Lemma handler_answers_once {L} (file : option upload) (l : L) (w : world) :
  let new := added (trace w) (trace (out_world (handler env file l w))) in
  exists resp,
    responses new = [resp]
    /\ ((file = None /\ resp = no_file_response)
        \/ resp = key_missing_response
        \/ (exists text, resp = text_response text /\ text <> "")
        \/ (exists e, resp = error_response e)).
Proof.
  cbv zeta. destruct file as [f|].
  2:{ rewrite handler_no_file. cbn [out_world log_event trace].
      rewrite added_app. exists no_file_response. auto. }
  destruct (handler_cases env f l w)
    as (r & _ & _ & [(_ & _ & _ & Htr) | (work & res & Hserved & _ & Htr)]);
    cbv zeta in Htr; rewrite Htr, added_app.
  - exists key_missing_response.
    change (EvResponse key_missing_response :: cleanup_events (upload_path f) r)
      with ([EvResponse key_missing_response] ++ cleanup_events (upload_path f) r).
    rewrite responses_app.
    destruct (cleanup_events_quiet (upload_path f) r) as (-> & _). auto.
  - destruct (served_quiet env f w work res Hserved) as (Hquiet & Htext).
    destruct (answer_events_quiet res) as (_ & _ & _ & _ & Hans).
    destruct (cleanup_events_quiet (upload_path f) r) as (Hcl & _).
    rewrite !responses_app, Hquiet, Hans, Hcl. simpl.
    eexists. split; [reflexivity|].
    destruct res as [e|text]; [right; right; right; eauto|].
    right; right; left. eauto.
Qed.

Lemma served_backend_result (f : upload) (w : world) (work : list event)
    (res : js_error + string) :
  served env f w work res -> backend_result env f w = Some res.
Proof.
  intros [Hmode | openai work' Hmode Hkey Hsize Hwork
          | openai work' Hmode Hkey Hsize Hwork];
    unfold backend_result; cbv zeta; rewrite Hmode; [reflexivity | |];
    rewrite Hkey.
  - apply N.leb_le in Hsize. by rewrite Hsize.
  - apply N.leb_gt in Hsize. by rewrite Hsize.
Qed.

(** The single response of the route is decided by the backend. *)
Lemma handler_response {L} (f : upload) (l : L) (w : world) :
  responses (added (trace w) (trace (out_world (handler env (Some f) l w))))
  = [match backend_result env f w with
     | Some res => answer res
     | None => key_missing_response
     end].
Proof.
  destruct (handler_cases env f l w)
    as (r & _ & _
        & [(Hmode & Hkey & _ & Htr) | (work & res & Hserved & _ & Htr)]);
    cbv zeta in Htr; rewrite Htr, added_app;
    destruct (cleanup_events_quiet (upload_path f) r) as (Hc & _).
  - change (EvResponse key_missing_response :: cleanup_events (upload_path f) r)
      with ([EvResponse key_missing_response] ++ cleanup_events (upload_path f) r).
    rewrite responses_app, Hc. unfold backend_result. cbv zeta.
    by rewrite Hmode, Hkey.
  - destruct (served_quiet env f w work res Hserved) as (Hq & _).
    destruct (answer_events_quiet res) as (_ & _ & _ & _ & Hans).
    rewrite !responses_app, Hq, Hans, Hc.
    by rewrite (served_backend_result f w work res Hserved).
Qed.

End RouteAnswers.

(** ** A failing segment *)

Section Abort.
Context (env : Env).

Lemma transcribe_segments_abort {L} (openai : string) (pre : list string) :
  forall (texts0 : list string) (l : L) (w : world) (l2 : L) (w2 : world)
         (texts : list string) (p : string) (post : list string),
    transcribe_segments env openai pre texts0 l w = Out l2 w2 (inr texts) ->
    forall e, out_result (transcribeFile env openai p l2 w2) = inl e ->
    transcribe_segments env openai (pre ++ p :: post) texts0 l w
    = Out (out_locals (transcribeFile env openai p l2 w2))
          (out_world (transcribeFile env openai p l2 w2)) (inl e).
Proof.
  induction pre as [|q pre IH]; intros texts0 l w l2 w2 texts p post Hpre e He.
  - simpl in Hpre. injection Hpre as <- <- <-. simpl. unfold bind.
    rewrite He. reflexivity.
  - simpl in *. unfold bind in *.
    destruct (out_result (transcribeFile env openai q l w)) as [e'|t].
    + discriminate.
    + eapply IH; eassumption.
Qed.

(** The events of one failing call of the adapter: the stat, and the
    network call when the stat allowed it. *)
Lemma transcribeFile_failure_events {L} (openai p : string) (l : L) (w : world)
    (e : js_error) :
  out_result (transcribeFile env openai p l w) = inl e ->
  exists r,
    (trace (out_world (transcribeFile env openai p l w))
       = trace w ++ [EvStat p r]
     \/ trace (out_world (transcribeFile env openai p l w))
        = trace w ++ [EvStat p r; EvCreateTranscription openai p (inl e)])
    /\ fs (out_world (transcribeFile env openai p l w)) = fs w.
Proof.
  rewrite transcribeFile_run.
  destruct (fs w !! p) as [size|]; simpl.
  2:{ intros _. exists (inl (ENOENT "stat" p)). auto. }
  destruct (WHISPER_MAX_SIZE <? size)%N; simpl.
  { intros _. exists (inr size). auto. }
  intros ->. exists (inr size). split; [right|reflexivity].
  simpl. rewrite <- app_assoc. reflexivity.
Qed.

End Abort.

(** C3.  Let the extraction phase have produced the segment files
    [pre ++ p :: post]; let the transcription of the files of [pre] have
    succeeded and that of [p], segment number [k = length pre], fail with
    [e].  Then [transcribeLargeFile] throws [e] and returns no transcript;
    the adapter was called on the segments up to [p] and on no segment of
    [post], none of which reached the network; after the failed call the
    cleanup unlinks the audio file and every segment file, those of [post]
    included; and the route, when it served the upload by this run,
    answers with the error response of [e] and with nothing else. *)
Theorem segment_failure_aborts (env : Env) (L : Type)
    (openai filePath : string) (l : L) (w : world)
    (pre : list string) (p : string) (post : list string)
    (w1 w2 : world) (texts : list string) (e : js_error) :
  let jobId := job_id env filePath in
  let audioPath := audio_path env jobId in
  let segments := pre ++ p :: post in
  extract_phase env filePath jobId audioPath [] w = Out segments w1 (inr tt) ->
  transcribe_segments env openai pre [] segments w1
  = Out segments w2 (inr texts) ->
  out_result (transcribeFile env openai p segments w2) = inl e ->
  let w3 := out_world (transcribeFile env openai p segments w2) in
  let o := transcribeLargeFile env openai filePath l w in
  let new := added (trace w) (trace (out_world o)) in
  out_result o = inl e
  /\ adapter_calls new = pre ++ [p]
  /\ (network_calls new = pre \/ network_calls new = pre ++ [p])
  /\ (exists rs,
        length rs = S (length segments)
        /\ trace (out_world o)
           = trace w3 ++ zip_with EvUnlink (audioPath :: segments) rs
        /\ (forall i q, (audioPath :: segments) !! i = Some q ->
                        rs !! i = Some (inr tt) ->
                        fs (out_world o) !! q = None))
  /\ (forall f,
        upload_path f = filePath ->
        TRANSCRIPTION_MODE env <> "local" ->
        usable_key env = Some openai ->
        (WHISPER_MAX_SIZE < upload_size f)%N ->
        responses
          (added (trace w) (trace (out_world (handler env (Some f) l w))))
        = [error_response e]).
Proof.
  intros jobId audioPath segments Hext Hpre Hfail w3 o new.
  pose proof (transcribe_segments_abort env openai pre [] segments w1
                segments w2 texts p post Hpre e Hfail) as Hloop.
  fold segments in Hloop.
  assert (Hl3 : out_locals (transcribeFile env openai p segments w2) = segments).
  { rewrite transcribeFile_run. destruct (fs w2 !! p); simpl; [|reflexivity].
    destruct (WHISPER_MAX_SIZE <? n)%N; reflexivity. }
  assert (Htry : transcribeLargeFile_try env openai filePath jobId audioPath [] w
                 = Out segments w3 (inl e)).
  { rewrite transcribeLargeFile_try_run. cbv zeta. rewrite Hext. simpl.
    rewrite Hloop. simpl. rewrite Hl3. reflexivity. }
  pose proof (transcribeLargeFile_run env openai filePath l w) as Hrun.
  cbv zeta in Hrun. fold jobId audioPath in Hrun. rewrite Htry in Hrun.
  cbn [out_locals out_world out_result] in Hrun.
  destruct (unlink_quietly_spec env (audioPath :: segments) segments w3)
    as (rs & Hlen & Htr & _ & _ & Hdel & _ & _).
  cbv zeta in Htr, Hdel.
  assert (Hw3 : exists new1 newpre newp,
             trace w3 = trace w ++ new1 ++ newpre ++ newp
             /\ adapter_calls new1 = [] /\ network_calls new1 = []
             /\ adapter_calls newpre = pre /\ network_calls newpre = pre
             /\ adapter_calls newp = [p]
             /\ (network_calls newp = [] \/ network_calls newp = [p])).
  { destruct (extract_phase_spec env filePath jobId audioPath w)
      as (new1 & Htr1 & Hall1 & _ & _).
    cbv zeta in Htr1. rewrite Hext in Htr1. simpl in Htr1.
    destruct (transcribe_segments_spec env openai pre [] segments w1)
      as (newpre & Htr2 & _ & _ & _ & Hok).
    cbv zeta in Htr2, Hok. rewrite Hpre in Htr2, Hok. simpl in Htr2, Hok.
    destruct (Hok texts eq_refl) as (items & Hmap & _ & Hnew & _).
    destruct (transcribeFile_failure_events env openai p segments w2 e Hfail)
      as (r & Htr3 & _).
    fold w3 in Htr3.
    exists new1, newpre.
    destruct Htr3 as [Htr3|Htr3];
      [exists [EvStat p r]
      |exists [EvStat p r; EvCreateTranscription openai p (inl e)]];
      rewrite Htr3, Htr2, Htr1, <- !app_assoc;
      (split; [reflexivity|]);
      (split; [no_events|]); (split; [no_events|]);
      rewrite Hnew, adapter_calls_transcribe_events,
        network_calls_transcribe_events, Hmap; simpl; auto. }
  destruct Hw3 as (new1 & newpre & newp & Hw3 & Ha1 & Hn1 & Ha2 & Hn2 & Ha3 & Hn3).
  assert (Hnew : new = new1 ++ newpre ++ newp
                       ++ zip_with EvUnlink (audioPath :: segments) rs).
  { unfold new, o. rewrite Hrun. cbn [out_world].
    rewrite Htr, Hw3, <- !app_assoc. apply added_app. }
  assert (Hau : adapter_calls (zip_with EvUnlink (audioPath :: segments) rs) = [])
    by no_events.
  assert (Hnu : network_calls (zip_with EvUnlink (audioPath :: segments) rs) = [])
    by no_events.
  split; [unfold o; rewrite Hrun; reflexivity|].
  split; [|split; [|split]].
  - rewrite Hnew, !adapter_calls_app, Ha1, Ha2, Ha3, Hau, app_nil_r.
    reflexivity.
  - rewrite Hnew, !network_calls_app, Hn1, Hn2, Hnu, app_nil_r. simpl.
    destruct Hn3 as [-> | ->]; [left; apply app_nil_r | right; reflexivity].
  - exists rs. unfold o. rewrite Hrun. cbn [out_world]. auto.
  - intros f Hf Hmode Hkey Hsize. rewrite handler_response.
    unfold backend_result. cbv zeta.
    apply String.eqb_neq in Hmode. apply N.leb_gt in Hsize.
    rewrite Hmode, Hkey, Hsize, Hf.
    rewrite (transcribeLargeFile_run env openai filePath (Some filePath) w).
    cbv zeta. fold jobId audioPath. rewrite Htry. reflexivity.
Qed.

(** C9.  Whatever the mode and the path taken, a response of the route
    that carries a transcript never carries an empty one.  In particular,
    on the single-shot path a transcription whose text is missing or empty
    is answered with the sentinel, and so is, in local mode, an output of
    the Python process whose text is missing or empty.  The in-process
    local backend of [lib/local-whisper.js] never resolves to an empty
    text either. *)
Theorem transcript_never_empty (env : Env) (L : Type) (file : option upload)
    (l : L) (w : world) :
  let new := added (trace w) (trace (out_world (handler env file l w))) in
  (forall resp text,
      resp ∈ responses new -> res_body resp = BodyText text -> text <> "")
  /\ (forall f openai size t,
        file = Some f ->
        String.eqb (TRANSCRIPTION_MODE env) "local" = false ->
        usable_key env = Some openai ->
        (upload_size f <= WHISPER_MAX_SIZE)%N ->
        fs w !! upload_path f = Some size ->
        (size <= WHISPER_MAX_SIZE)%N ->
        openai_transcriptions_create env
          (trace w ++ [EvStat (upload_path f) (inr size)]) openai
          (upload_path f) = inr t ->
        t = None \/ t = Some "" ->
        responses new = [text_response NO_SPEECH])
  /\ (forall f stdout stderr t,
        file = Some f ->
        String.eqb (TRANSCRIPTION_MODE env) "local" = true ->
        spawn_python env (trace w) (upload_path f)
        = ChildClose (Some 0%Z) stdout stderr ->
        JSON_get env "text" (trim stdout) = Some t ->
        t = None \/ t = Some "" ->
        responses new = [text_response NO_SPEECH])
  /\ (forall (sample : Type)
             (transcriber : list sample -> js_error + option (option string))
             (audioData : list sample) (text : string),
        LocalWhisper.transcribeLocal transcriber audioData = inr text ->
        text <> "").
Proof.
  intros new. split; [|split; [|split]].
  4:{ intros sample transcriber audioData text.
      unfold LocalWhisper.transcribeLocal.
      destruct (LocalWhisper.chunk_loop transcriber audioData 0 []);
        [discriminate|].
      intros [= <-]. by apply or_else_nonempty. }
  - intros resp text Hin Hbody.
    destruct (handler_answers_once env file l w) as (resp' & Hresp & Hkind).
    fold new in Hresp. rewrite Hresp in Hin.
    apply list_elem_of_singleton in Hin as ->.
    destruct Hkind as [(_ & ->) | [-> | [(text' & -> & Hne) | (e & ->)]]];
      try discriminate.
    + simpl in Hbody. by injection Hbody as <-.
    + exfalso. destruct (error_response_body e) as (msg & Hmsg).
      rewrite Hmsg in Hbody. discriminate Hbody.
  - intros f openai size t -> Hmode Hkey Hsize Hfs Hsize' Hcreate Ht.
    pose proof (handler_try_run env f w) as Htry. cbv zeta in Htry.
    rewrite Hmode, Hkey in Htry.
    apply N.leb_le in Hsize. rewrite Hsize in Htry.
    pose proof (transcribeFile_run env openai (upload_path f)
                  (Some (upload_path f)) w) as Hrun.
    rewrite Hfs in Hrun. cbv zeta in Hrun.
    apply N.ltb_ge in Hsize'. rewrite Hsize' in Hrun.
    cbn [log_event trace] in Hrun. rewrite Hcreate in Hrun.
    rewrite Hrun in Htry. cbn [out_result out_locals out_world] in Htry.
    edestruct (handler_after_backend env f l w) as (r & Htr & _);
      [exact Htry | cbn [out_world log_event trace];
                    rewrite <- app_assoc; reflexivity |].
    unfold new. rewrite Htr, added_app. cbn [out_result].
    rewrite !responses_app.
    destruct (cleanup_events_quiet (upload_path f) r) as (-> & _).
    destruct Ht as [-> | ->]; reflexivity.
  - intros f stdout stderr t -> Hmode Hspawn Hjson Ht.
    pose proof (handler_try_run env f w) as Htry. cbv zeta in Htry.
    rewrite Hmode in Htry.
    edestruct (handler_after_backend env f l w) as (r & Htr & _);
      [exact Htry | apply local_backend_trace |].
    unfold new. rewrite Htr, added_app.
    unfold runLocalWhisper. cbn [out_result]. rewrite Hspawn.
    unfold local_result. rewrite bool_decide_eq_true_2 by reflexivity.
    rewrite Hjson, !responses_app.
    destruct (cleanup_events_quiet (upload_path f) r) as (-> & _).
    destruct Ht as [-> | ->]; reflexivity.
Qed.

(** C10.  When the upload was stored under a path [p], the route ends,
    after its [try] and [catch] blocks and thus after the response was
    sent, by unlinking [p]; a failure of that unlink is logged with
    [console.warn] and goes no further: the route completes normally and
    its single response is the one sent before, the same however
    [fs.unlink] fails.  When the unlink succeeds the uploaded file no
    longer exists. *)
Theorem upload_always_unlinked (env : Env) (L : Type) (f : upload) (l : L)
    (w : world) :
  upload_path f <> "" ->
  let p := upload_path f in
  let o_main := try_catch (handler_try env (Some f)) handler_catch None w in
  let o := handler env (Some f) l w in
  exists r resp,
    trace (out_world o)
    = trace (out_world o_main)
      ++ EvUnlink p r
         :: match r with
            | inl e => [EvConsoleWarn (err_message e)]
            | inr _ => []
            end
    /\ out_result o = inr tt
    /\ responses (added (trace w) (trace (out_world o_main))) = [resp]
    /\ responses (added (trace w) (trace (out_world o))) = [resp]
    /\ (forall u,
          responses
            (added (trace w)
               (trace (out_world
                         (handler (with_unlink_failure u env) (Some f) l w))))
          = [resp])
    /\ (r = inr tt -> fs (out_world o) !! p = None).
Proof.
  intros Hp p o_main o.
  assert (Htruthy : truthy p = true)
    by (unfold p; destruct (upload_path f); [congruence | reflexivity]).
  pose proof (handler_response env f l w) as Hresp. fold o in Hresp.
  set (resp := match backend_result env f w with
               | Some res => answer res
               | None => key_missing_response
               end) in Hresp.
  assert (Hany : forall u,
             responses
               (added (trace w)
                  (trace (out_world
                            (handler (with_unlink_failure u env) (Some f) l w))))
             = [resp]).
  { intros u. rewrite handler_response, backend_result_any_unlink.
    reflexivity. }
  assert (Hshape : exists r new,
             trace (out_world o_main) = trace w ++ new
             /\ trace (out_world o) = trace w ++ new ++ cleanup_events p r
             /\ out_result o = inr tt
             /\ (r = inr tt -> fs (out_world o) !! p = None)).
  { unfold o, o_main, p in *.
    destruct (handler_cases env f l w)
      as (r & Hres & Hfs
          & [(_ & _ & Hmain & Htr) | (work & res & _ & Hmain & Htr)]);
      cbv zeta in Hres, Hfs, Hmain, Htr;
      exists r; eexists; (split; [exact Hmain|]);
      (split; [|split; [exact Hres | exact (Hfs Htruthy)]]);
      rewrite Htr, <- ?app_assoc; reflexivity. }
  destruct Hshape as (r & new & Hmain & Htr & Hres & Hfs).
  exists r, resp.
  assert (Hce : cleanup_events p r
                = EvUnlink p r
                  :: match r with
                     | inl e => [EvConsoleWarn (err_message e)]
                     | inr _ => []
                     end)
    by (unfold cleanup_events; by rewrite Htruthy).
  destruct (cleanup_events_quiet p r) as (Hq & _).
  rewrite Htr, added_app, responses_app, Hq, app_nil_r in Hresp.
  repeat split; try assumption.
  - by rewrite Htr, Hmain, <- app_assoc, Hce.
  - by rewrite Hmain, added_app.
  - by rewrite Htr, added_app, responses_app, Hq, app_nil_r.
Qed.

Section Segmented.
Context (env : Env).

(** A successful run of [transcribeLargeFile], event by event. *)
Lemma transcribeLargeFile_success {L} (openai filePath : string) (l : L)
    (w : world) (text : string) :
  let jobId := job_id env filePath in
  let audioPath := audio_path env jobId in
  let o := transcribeLargeFile env openai filePath l w in
  out_result o = inr text ->
  exists audioSize duration eitems titems rs,
    map fst eitems
    = plan SEGMENT_DURATION_SEC SEGMENT_DURATION_SEC_pos (default 0%Q duration)
    /\ map (fun it => fst (fst it)) titems
       = map (seg_path env jobId) (seq 0 (length eitems))
    /\ Forall (fun it => (snd (fst it) <= WHISPER_MAX_SIZE)%N) titems
    /\ length rs = S (length eitems)
    /\ trace (out_world o)
       = trace w
         ++ EvExtractAudio filePath audioPath (inr audioSize)
            :: EvFfprobe audioPath (inr duration)
            :: extract_events env jobId audioPath 0 eitems
         ++ transcribe_events openai titems
         ++ zip_with EvUnlink
              (audioPath :: map (seg_path env jobId) (seq 0 (length eitems))) rs
    /\ text = assemble (map (fun it => segment_text (snd it)) titems).
Proof.
  intros jobId audioPath o. unfold o.
  rewrite transcribeLargeFile_run. fold jobId audioPath.
  cbn [out_result out_world]. rewrite transcribeLargeFile_try_run. cbv zeta.
  destruct (extract_phase_spec env filePath jobId audioPath w)
    as (new1 & Htr1 & _ & _ & Hok1).
  cbv zeta in Htr1, Hok1.
  destruct (out_result (extract_phase env filePath jobId audioPath [] w))
    as [e|[]]; [discriminate|].
  destruct (Hok1 eq_refl) as (audioSize & duration & eitems & Hnew1 & Hplan & Hsegs).
  match goal with
  | |- context [transcribe_segments env openai ?segs [] ?l1 ?w1] =>
      destruct (transcribe_segments_spec env openai segs [] l1 w1)
        as (new2 & Htr2 & _ & Hl2 & _ & Hok2);
      cbv zeta in Htr2, Hl2, Hok2;
      destruct (out_result (transcribe_segments env openai segs [] l1 w1))
        as [e|texts]; [discriminate|]
  end.
  destruct (Hok2 texts eq_refl) as (titems & Hmap & Hsizes & Hnew2 & Htexts).
  cbn [out_result out_world out_locals]. intros [= <-].
  match goal with
  | |- context [unlink_quietly env ?d ?l1 ?w1] =>
      destruct (unlink_quietly_spec env d l1 w1) as (rs & Hlen & Htr3 & _);
      cbv zeta in Htr3
  end.
  exists audioSize, duration, eitems, titems, rs.
  rewrite Htr3, Htr2, Htr1, Hnew1, Hnew2, <- !app_assoc.
  rewrite Hl2, Hsegs in *.
  repeat split; try assumption.
  - rewrite Hlen. simpl. by rewrite length_map, length_seq.
  - rewrite Htexts. reflexivity.
Qed.

End Segmented.

(** C1.  In remote mode, for an upload larger than the service limit that
    the route answers with a transcript: the run consists of one audio
    extraction, one probe of the extracted audio, one segment extraction
    per range of the plan of the probed duration, in plan order and into
    the files [seg-0], [seg-1], ...; then one transcription per segment
    file, in the same order, each sent once and within the limit; then
    the cleanup; and the transcript answered is the join of the texts
    returned for the segments, in that order. *)
Theorem segmented_job_follows_plan (env : Env) (L : Type) (f : upload) (l : L)
    (w : world) (text : string) :
  TRANSCRIPTION_MODE env <> "local" ->
  (WHISPER_MAX_SIZE < upload_size f)%N ->
  let o := handler env (Some f) l w in
  text_response text ∈ responses (added (trace w) (trace (out_world o))) ->
  let filePath := upload_path f in
  let jobId := job_id env filePath in
  let audioPath := audio_path env jobId in
  exists openai audioSize duration eitems titems rs r,
    usable_key env = Some openai
    /\ map fst eitems
       = plan SEGMENT_DURATION_SEC SEGMENT_DURATION_SEC_pos (default 0%Q duration)
    /\ map (fun it => fst (fst it)) titems
       = map (seg_path env jobId) (seq 0 (length eitems))
    /\ Forall (fun it => (snd (fst it) <= WHISPER_MAX_SIZE)%N) titems
    /\ length rs = S (length eitems)
    /\ trace (out_world o)
       = trace w
         ++ (EvExtractAudio filePath audioPath (inr audioSize)
             :: EvFfprobe audioPath (inr duration)
             :: extract_events env jobId audioPath 0 eitems
             ++ transcribe_events openai titems
             ++ zip_with EvUnlink
                  (audioPath :: map (seg_path env jobId) (seq 0 (length eitems)))
                  rs)
         ++ [EvResponse (text_response text)]
         ++ cleanup_events filePath r
    /\ text = assemble (map (fun it => segment_text (snd it)) titems).
Proof.
  intros Hmode Hsize o Hin filePath jobId audioPath.
  apply String.eqb_neq in Hmode.
  destruct (handler_cases env f l w)
    as (r & _ & _ & [(_ & _ & _ & Htr) | (work & res & Hserved & _ & Htr)]);
    cbv zeta in Htr; fold o in Htr; rewrite Htr, added_app in Hin.
  { exfalso. revert Hin.
    change (EvResponse key_missing_response :: cleanup_events (upload_path f) r)
      with ([EvResponse key_missing_response] ++ cleanup_events (upload_path f) r).
    rewrite responses_app.
    destruct (cleanup_events_quiet (upload_path f) r) as (-> & _).
    simpl. intros Hin. apply list_elem_of_singleton in Hin.
    discriminate Hin. }
  destruct (served_quiet env f w work res Hserved) as (Hq & _).
  destruct (answer_events_quiet res) as (_ & _ & _ & _ & Hans).
  destruct (cleanup_events_quiet (upload_path f) r) as (Hcl & _).
  rewrite !responses_app, Hq, Hans, Hcl in Hin. simpl in Hin.
  apply list_elem_of_singleton in Hin.
  destruct Hserved as [Hmode' | openai work' Hmode' Hkey Hsize' Hwork
                      | openai work' Hmode' Hkey Hsize' Hwork].
  - congruence.
  - lia.
  - destruct (out_result (transcribeLargeFile env openai (upload_path f)
                            (Some (upload_path f)) w)) as [e|text'] eqn:Eres.
    { exfalso. by apply error_response_not_text in Hin. }
    injection Hin as ->.
    destruct (transcribeLargeFile_success env openai (upload_path f)
                (Some (upload_path f)) w text' Eres)
      as (audioSize & duration & eitems & titems & rs
          & Hplan & Hmap & Hsizes & Hlen & Htrace & Htext).
    fold filePath jobId audioPath in Hplan, Hmap, Hlen, Htrace, Hwork.
    rewrite Hwork in Htrace. apply app_inv_head in Htrace.
    exists openai, audioSize, duration, eitems, titems, rs, r.
    repeat split; try assumption.
    rewrite Htr, Htrace. reflexivity.
Qed.

(** ** The result assembler *)

Module TrimFacts.

Lemma trimStart_clean (s : string) : starts_clean s = true -> trimStart s = s.
Proof. destruct s as [|c s]; simpl; [reflexivity|]. by destruct (is_ws c). Qed.

Lemma trimEnd_clean (s : string) : ends_clean s = true -> trimEnd s = s.
Proof.
  induction s as [|c s IH]; [reflexivity|].
  destruct s as [|c' s'].
  - simpl. by destruct (is_ws c).
  - intros H. change (ends_clean (String c' s') = true) in H.
    change (trimEnd (String c (String c' s')))
      with (match trimEnd (String c' s') with
            | EmptyString => if is_ws c then EmptyString else String c EmptyString
            | r => String c r
            end).
    rewrite (IH H). reflexivity.
Qed.

Lemma starts_clean_trimStart (s : string) : starts_clean (trimStart s) = true.
Proof.
  induction s as [|c s IH]; [reflexivity|]. simpl.
  destruct (is_ws c) eqn:E; [exact IH | simpl; by rewrite E].
Qed.

Lemma trimEnd_cons (c : ascii) (s : string) :
  trimEnd (String c s)
  = match trimEnd s with
    | EmptyString => if is_ws c then EmptyString else String c EmptyString
    | r => String c r
    end.
Proof. reflexivity. Qed.

Lemma starts_clean_trimEnd (s : string) :
  starts_clean s = true -> starts_clean (trimEnd s) = true.
Proof.
  destruct s as [|c s]; [reflexivity|]. rewrite trimEnd_cons. simpl.
  intros Hc. destruct (trimEnd s); [|exact Hc].
  destruct (is_ws c) eqn:E; [discriminate | simpl; by rewrite E].
Qed.

Lemma ends_clean_trimEnd (s : string) : ends_clean (trimEnd s) = true.
Proof.
  induction s as [|c s IH]; [reflexivity|]. rewrite trimEnd_cons.
  destruct (trimEnd s) as [|c' r].
  - destruct (is_ws c) eqn:E; simpl; [reflexivity | by rewrite E].
  - exact IH.
Qed.

Lemma trim_clean (s : string) :
  starts_clean s = true -> ends_clean s = true -> trim s = s.
Proof.
  intros H1 H2. unfold trim. by rewrite trimStart_clean, trimEnd_clean.
Qed.

Lemma trim_is_clean (s : string) :
  starts_clean (trim s) = true /\ ends_clean (trim s) = true.
Proof.
  unfold trim. split.
  - apply starts_clean_trimEnd, starts_clean_trimStart.
  - apply ends_clean_trimEnd.
Qed.

Lemma starts_clean_app (a b : string) :
  truthy a = true -> starts_clean a = true -> starts_clean (a +:+ b) = true.
Proof. destruct a; [discriminate | auto]. Qed.

Lemma ends_clean_app (a b : string) :
  truthy b = true -> ends_clean b = true -> ends_clean (a +:+ b) = true.
Proof.
  intros Hb Hc. induction a as [|c a IH]; [exact Hc|].
  simpl. destruct (a +:+ b) eqn:E; [|exact IH].
  destruct a; [change (b = "") in E; rewrite E in Hb; discriminate Hb
              |discriminate E].
Qed.

Lemma truthy_app_l (a b : string) : truthy a = true -> truthy (a +:+ b) = true.
Proof. by destruct a. Qed.

Lemma join_kept (sep : string) (parts : list string) :
  Forall kept parts -> parts <> [] -> kept (join sep parts).
Proof.
  induction 1 as [|x rest (Hx1 & Hx2 & Hx3) Hrest IH]; [congruence|].
  intros _. destruct rest as [|y rest]; [by repeat split|].
  change (join sep (x :: y :: rest))
    with (x +:+ sep +:+ join sep (y :: rest)).
  destruct IH as (H1 & H2 & H3); [discriminate|].
  repeat split.
  - by apply truthy_app_l.
  - by apply starts_clean_app.
  - apply ends_clean_app; [|by apply ends_clean_app].
    destruct sep; [exact H1 | reflexivity].
Qed.

Lemma or_else_empty (a : string) : or_else a "" = a.
Proof. by destruct a. Qed.

Lemma filter_trim_kept (texts : list string) :
  Forall kept (List.filter truthy (map trim texts)).
Proof.
  induction texts as [|t texts IH]; [constructor|]. simpl.
  destruct (truthy (trim t)) eqn:E; [|exact IH].
  constructor; [|exact IH]. destruct (trim_is_clean t). by repeat split.
Qed.

End TrimFacts.

(** C5.  The assembler of the program agrees, on every ordered list of
    per-segment texts, with the assembler of the specification: trim each
    text, drop the empty ones, join what is left in order with a blank
    line, trim the result, and answer the sentinel when nothing is left.
    On the three examples of the specification it returns the sentinel,
    the sentinel, and "Hello", a blank line, "world". *)
Theorem join_matches_spec :
  (forall orderedTexts, join_transcripts orderedTexts = join_spec orderedTexts)
  /\ join_transcripts [] = "(No speech detected)"
  /\ join_transcripts [""; "  "] = "(No speech detected)"
  /\ join_transcripts ["  Hello "; ""; "world  "]
     = "Hello" +:+ LF +:+ LF +:+ "world".
Proof.
  split; [|by repeat split].
  intros texts. unfold join_transcripts, join_spec, assemble, segment_text.
  cbv zeta.
  assert (Hmap : map (fun t => or_else (trim t) "") texts = map trim texts).
  { apply map_ext. intros t. apply TrimFacts.or_else_empty. }
  rewrite Hmap.
  pose proof (TrimFacts.filter_trim_kept texts) as Hkept.
  destruct (List.filter truthy (map trim texts)) as [|x rest] eqn:E.
  - reflexivity.
  - destruct (TrimFacts.join_kept SEPARATOR (x :: rest) Hkept) as (H1 & H2 & H3);
      [discriminate|].
    rewrite (TrimFacts.trim_clean _ H2 H3). reflexivity.
Qed.

(** ** Dispatch *)

Lemma served_calls (env : Env) (f : upload) (w : world) (work : list event)
    (res : js_error + string) :
  served env f w work res ->
  let p := upload_path f in
  (TRANSCRIPTION_MODE env = "local"
   /\ local_calls work = [p] /\ adapter_calls work = []
   /\ network_calls work = [] /\ List.filter is_media_event work = [])
  \/ (TRANSCRIPTION_MODE env <> "local"
      /\ usable_key env <> None
      /\ (upload_size f <= WHISPER_MAX_SIZE)%N
      /\ local_calls work = [] /\ adapter_calls work = [p]
      /\ List.filter is_media_event work = []
      /\ (network_calls work = [] \/ network_calls work = [p])
      /\ (fs w !! p = Some (upload_size f) -> network_calls work = [p]))
  \/ (TRANSCRIPTION_MODE env <> "local"
      /\ usable_key env <> None
      /\ (WHISPER_MAX_SIZE < upload_size f)%N
      /\ local_calls work = []).
Proof.
  intros [Hmode | openai work' Hmode Hkey Hsize Hwork
          | openai work' Hmode Hkey Hsize Hwork]; cbv zeta.
  - left. apply String.eqb_eq in Hmode. by repeat split.
  - right; left. apply String.eqb_neq in Hmode.
    destruct (remote_backend_trace env openai (upload_path f)
                (Some (upload_path f)) w)
      as (work2 & Hwork2 & Hall & Had & Hnet & Hnet').
    rewrite Hwork in Hwork2. apply app_inv_head in Hwork2 as <-.
    repeat split; try assumption; try congruence.
    + no_events.
    + eapply (filter_nil_Forall is_adapter_event); [|eassumption].
      by intros [].
    + intros Hfs. by eapply Hnet'.
  - right; right. apply String.eqb_neq in Hmode.
    destruct (segmented_backend_trace env openai (upload_path f)
                (Some (upload_path f)) w)
      as (new1 & new2 & unl & Hwork2 & Hall1 & Hall2 & Hall3).
    rewrite Hwork in Hwork2. apply app_inv_head in Hwork2 as ->.
    repeat split; try assumption; try congruence.
    rewrite !local_calls_app.
    assert (local_calls new1 = []) as -> by no_events.
    assert (local_calls new2 = []) as -> by no_events.
    eapply (omap_nil_Forall is_unlink_event); [|eassumption].
    intros [] ?; (reflexivity || discriminate).
Qed.

(** C7, as the program has it.  The dispatch is decided at entry by the
    mode, by the presence of an API key, and by the size of the upload.
    In local mode the file is handed to the local backend exactly once,
    whatever its size, and the media tool, the segmentation loop and the
    remote adapter are not used.  In remote mode without a usable API key
    no backend is used at all and the answer is the 500 response that asks
    for the key.  In remote mode with a key and a size within the limit the
    remote adapter is called exactly once, on the upload itself, without
    any extraction, probing or planning; it sends the file once when the
    stored file has the announced size. *)
Theorem dispatch_by_mode_key_and_size (env : Env) (L : Type) (f : upload)
    (l : L) (w : world) :
  let new := added (trace w) (trace (out_world (handler env (Some f) l w))) in
  let p := upload_path f in
  (TRANSCRIPTION_MODE env = "local" ->
     local_calls new = [p] /\ List.filter is_media_event new = []
     /\ adapter_calls new = [] /\ network_calls new = [])
  /\ (TRANSCRIPTION_MODE env <> "local" -> usable_key env = None ->
        local_calls new = [] /\ List.filter is_media_event new = []
        /\ adapter_calls new = [] /\ network_calls new = []
        /\ responses new = [key_missing_response])
  /\ (TRANSCRIPTION_MODE env <> "local" -> usable_key env <> None ->
        (upload_size f <= WHISPER_MAX_SIZE)%N ->
        adapter_calls new = [p] /\ List.filter is_media_event new = []
        /\ local_calls new = []
        /\ (network_calls new = [] \/ network_calls new = [p])
        /\ (fs w !! p = Some (upload_size f) -> network_calls new = [p])).
Proof.
  intros new p.
  destruct (handler_cases env f l w)
    as (r & _ & _ & [(Hmode & Hkey & _ & Htr) | (work & res & Hserved & _ & Htr)]);
    cbv zeta in Htr; unfold new; rewrite Htr, added_app; clear Htr;
    destruct (cleanup_events_quiet (upload_path f) r)
      as (Hc1 & Hc2 & Hc3 & Hc4 & Hc5).
  - apply String.eqb_neq in Hmode.
    change (EvResponse key_missing_response :: cleanup_events (upload_path f) r)
      with ([EvResponse key_missing_response] ++ cleanup_events (upload_path f) r).
    rewrite local_calls_app, filter_media_app, adapter_calls_app,
      network_calls_app, responses_app, Hc1, Hc2, Hc3, Hc4, Hc5.
    split; [by intros ?|]. split; [by repeat split | by intros ? ?].
  - destruct (answer_events_quiet res) as (Ha1 & Ha2 & Ha3 & Ha4 & _).
    rewrite !local_calls_app, !filter_media_app, !adapter_calls_app,
      !network_calls_app, Hc2, Hc3, Hc4, Hc5, Ha1, Ha2, Ha3, Ha4, !app_nil_r.
    pose proof (served_calls env f w work res Hserved) as Hcalls.
    cbv zeta in Hcalls. fold p in Hcalls.
    destruct Hcalls as [(Hm & H1 & H2 & H3 & H4)
                       | [(Hm & Hkey & Hs & H1 & H2 & H3 & H4 & H5)
                         | (Hm & Hkey & Hs & H1)]].
    + split; [auto|]. split; by intros ?.
    + split; [by intros ?|]. split; [by intros ? ?|]. auto 10.
    + split; [by intros ?|]. split; [by intros ? ?|]. intros _ _ Hsize. lia.
Qed.

(** ** The status of an error *)

Module MessageFacts.

Lemma lacks_app (c : ascii) (a b : string) :
  lacks c (a +:+ b) = lacks c a && lacks c b.
Proof.
  induction a as [|c' a IH]; [reflexivity|].
  change (String c' a +:+ b) with (String c' (a +:+ b)). simpl.
  by rewrite IH, andb_assoc.
Qed.




Lemma pretty_N_char_digit (x : N) : is_digit (pretty_N_char x) = true.
Proof.
  unfold pretty_N_char. repeat case_match; reflexivity.
Qed.

Lemma pretty_N_go_digits (x : N) (s : string) :
  all_digits s = true -> all_digits (pretty_N_go x s) = true.
Proof.
  revert s. induction (N.lt_wf_0 x) as [x _ IH]; intros s Hs.
  destruct (decide (x = 0%N)) as [->|Hx]; [by rewrite pretty_N_go_0|].
  rewrite pretty_N_go_step by lia.
  apply IH; [apply N.div_lt; lia|].
  simpl. by rewrite pretty_N_char_digit.
Qed.

Lemma pretty_N_digits (x : N) : all_digits (pretty x) = true.
Proof.
  unfold pretty, pretty_N. destruct (decide (x = 0%N)); [reflexivity|].
  by apply pretty_N_go_digits.
Qed.

Lemma digit_not_letter (c l : ascii) :
  is_digit c = true -> is_digit l = false ->
  Ascii.eqb (lower_char c) l = false /\ Ascii.eqb c l = false.
Proof.
  intros Hc Hl.
  assert (Hlow : lower_char c = c).
  { unfold lower_char, is_digit in *. cbv zeta.
    destruct (N.leb_spec 48 (N_of_ascii c)); [|discriminate].
    destruct (N.leb_spec (N_of_ascii c) 57); [|discriminate].
    destruct (N.leb_spec 65 (N_of_ascii c)); [lia|].
    destruct (N.leb_spec 192 (N_of_ascii c)); [lia|]. reflexivity. }
  rewrite Hlow. split; apply Ascii.eqb_neq; intros ->; congruence.
Qed.

Lemma digits_lack (l : ascii) (s : string) :
  is_digit l = false -> all_digits s = true ->
  lacks l s = true /\ lacks l (toLowerCase s) = true.
Proof.
  intros Hl. induction s as [|c s IH]; [by split|]. simpl.
  intros H. apply andb_true_iff in H as [Hc Hs].
  destruct (digit_not_letter c l Hc Hl) as [-> ->].
  destruct (IH Hs) as [-> ->]. by split.
Qed.


End MessageFacts.



(** ** Sample runs *)

Lemma segment_plan_sample :
  plan SEGMENT_DURATION_SEC SEGMENT_DURATION_SEC_pos 1500
  = [(0, 600); (600, 600); (1200, 300)]%Q.
Proof. vm_compute. reflexivity. Qed.

Lemma transcribeFile_size_guard_witness :
  out_result (transcribeFile oversized_env "sk-test" sample_path tt
                (stored 30000000))
  = inl (segment_too_large 30000000).
Proof.
  assert (Hfs : fs (stored 30000000) !! sample_path = Some 30000000%N)
    by (vm_compute; reflexivity).
  pose proof (transcribeFile_size_guard oversized_env unit "sk-test"
                sample_path 30000000 tt (stored 30000000) Hfs) as H.
  cbv zeta in H. destruct H as ((Hbig & _) & _).
  apply Hbig. reflexivity.
Defined.

Lemma cleanup_always_runs_witness :
  fs (out_world (transcribeLargeFile failing_env "sk-test" sample_path tt
                   (stored 30000000))) !! "uploads/temp/video-1-seg-2.mp3"
  = None.
Proof.
  pose proof (cleanup_always_runs failing_env unit "sk-test" sample_path tt
                (stored 30000000)) as H.
  cbv zeta in H. destruct H as (_ & _ & _ & rs & _ & _ & _ & Hall).
  apply Hall; [reflexivity|].
  vm_compute. do 3 apply elem_of_cons, or_intror. apply elem_of_cons. by left.
Defined.

Lemma segment_failure_aborts_witness :
  out_result (transcribeLargeFile failing_env "sk-test" sample_path tt
                (stored 30000000)) = inl rate_limited
  /\ adapter_calls
       (added [] (trace (out_world
                           (transcribeLargeFile failing_env "sk-test"
                              sample_path tt (stored 30000000)))))
     = ["uploads/temp/video-1-seg-0.mp3"; "uploads/temp/video-1-seg-1.mp3"].
Proof.
  set (jobId := job_id failing_env sample_path).
  set (audioPath := audio_path failing_env jobId).
  set (pre := ["uploads/temp/video-1-seg-0.mp3"]).
  set (p := "uploads/temp/video-1-seg-1.mp3").
  set (post := ["uploads/temp/video-1-seg-2.mp3"]).
  set (w1 := out_world (extract_phase failing_env sample_path jobId audioPath
                          [] (stored 30000000))).
  set (w2 := out_world (transcribe_segments failing_env "sk-test" pre []
                          (pre ++ p :: post) w1)).
  pose proof (segment_failure_aborts failing_env unit "sk-test" sample_path tt
                (stored 30000000) pre p post w1 w2 ["hello"] rate_limited) as H.
  cbv zeta in H.
  destruct H as (Hres & Hcalls & _).
  - vm_compute. reflexivity.
  - vm_compute. reflexivity.
  - vm_compute. reflexivity.
  - split; [exact Hres | exact Hcalls].
Defined.

Lemma segmented_job_follows_plan_witness :
  exists (eitems : list (Q * Q * N)) (titems : list (string * N * option string)),
    map (fun it => fst (fst it)) titems
    = map (seg_path api_env "video-1") (seq 0 (length eitems))
    /\ "hello" +:+ LF +:+ LF +:+ "hello" +:+ LF +:+ LF +:+ "hello"
       = assemble (map (fun it => segment_text (snd it)) titems).
Proof.
  pose proof (segmented_job_follows_plan api_env unit
                (sample_upload 30000000) tt (stored 30000000)
                ("hello" +:+ LF +:+ LF +:+ "hello" +:+ LF +:+ LF +:+ "hello"))
    as H.
  cbv zeta in H.
  destruct H as (openai & audioSize & duration & eitems & titems & rs & r
                 & _ & _ & Hmap & _ & _ & _ & Htext).
  - vm_compute. discriminate.
  - reflexivity.
  - vm_compute. constructor.
  - exists eitems, titems. split; [exact Hmap | exact Htext].
Defined.

(** In remote mode without an API key an upload within the limit is not
    handed to the remote adapter at all: "remote mode and a size within
    the limit" does not by itself give one call of the remote backend. *)
Lemma dispatch_counterexample :
  TRANSCRIPTION_MODE nokey_env <> "local"
  /\ (upload_size (sample_upload 1000) <= WHISPER_MAX_SIZE)%N
  /\ adapter_calls (trace (out_world nokey_run)) = []
  /\ network_calls (trace (out_world nokey_run)) = []
  /\ responses (trace (out_world nokey_run)) = [key_missing_response].
Proof. vm_compute. repeat split; discriminate. Qed.

Lemma dispatch_by_mode_key_and_size_witness :
  adapter_calls (added [] (trace (out_world small_run))) = [sample_path]
  /\ network_calls (added [] (trace (out_world small_run))) = [sample_path]
  /\ List.filter is_media_event (added [] (trace (out_world small_run))) = [].
Proof.
  pose proof (dispatch_by_mode_key_and_size api_env unit (sample_upload 1000)
                tt (stored 1000)) as H.
  cbv zeta in H. destruct H as (_ & _ & H).
  destruct H as (Hadapter & Hmedia & _ & _ & Hnet).
  - vm_compute. discriminate.
  - vm_compute. discriminate.
  - vm_compute. discriminate.
  - split; [exact Hadapter|]. split; [|exact Hmedia].
    apply Hnet. vm_compute. reflexivity.
Defined.



Lemma transcript_never_empty_witness :
  responses (added [] (trace (out_world local_run)))
  = [text_response NO_SPEECH].
Proof.
  pose proof (transcript_never_empty local_env unit
                (Some (sample_upload 1000)) tt (stored 1000)) as H.
  cbv zeta in H. destruct H as (_ & _ & H & _).
  apply (H (sample_upload 1000) "{}" "" None).
  - reflexivity.
  - vm_compute. reflexivity.
  - reflexivity.
  - vm_compute. reflexivity.
  - by left.
Defined.

Lemma upload_always_unlinked_witness :
  exists r resp,
    trace (out_world failed_run)
    = trace (out_world (try_catch
                          (handler_try failing_env
                             (Some (sample_upload 30000000)))
                          handler_catch None (stored 30000000)))
      ++ final_events sample_path r
    /\ responses (added [] (trace (out_world failed_run))) = [resp]
    /\ (r = inr tt -> fs (out_world failed_run) !! sample_path = None).
Proof.
  pose proof (upload_always_unlinked failing_env unit (sample_upload 30000000)
                tt (stored 30000000)) as H.
  cbv zeta in H. destruct H as (r & resp & Htr & _ & _ & Hresp & _ & Hfs).
  - discriminate.
  - exists r, resp. split; [exact Htr|]. split; [exact Hresp | exact Hfs].
Defined.

(** ** The file system along a job *)

Lemma failed_segments_app (t1 t2 : list event) :
  failed_segments (t1 ++ t2) = failed_segments t1 ++ failed_segments t2.
Proof. apply omap_app. Qed.

Section FileSystem.
Context (env : Env).

(** The segmentation loop writes the next segment files, numbered from the
    current length of [segments], and nothing else; the one file it can
    write without registering it is the output of the extraction that
    failed. *)
Lemma extract_ranges_fs (jobId audioPath : string) (ranges : list (Q * Q))
    (l : list string) (w : world) :
  let o := extract_ranges env jobId audioPath ranges l w in
  exists new k,
    trace (out_world o) = trace w ++ new
    /\ out_locals o = l ++ map (seg_path env jobId) (seq (length l) k)
    /\ Forall (fun q => exists n, q = seg_path env jobId n)
         (failed_segments new)
    /\ (forall q, q ∉ map (seg_path env jobId) (seq (length l) k) ->
                  q ∉ failed_segments new ->
                  fs (out_world o) !! q = fs w !! q).
Proof.
  revert l w. induction ranges as [|[s d] rest IH]; intros l w; simpl.
  - exists [], 0%nat. simpl. rewrite !app_nil_r.
    repeat split; constructor.
  - unfold bind, get_locals, set_locals, extractSegment; simpl.
    destruct (ffmpeg_extractSegment env (trace w) audioPath _ s d)
      as [e|size]; simpl.
    + eexists [_], 0%nat. simpl. rewrite app_nil_r, leave_partial_trace.
      repeat split; [repeat constructor; eauto|].
      intros q _ Hq. apply not_elem_of_cons in Hq as [Hq _].
      by rewrite leave_partial_fs.
    + match goal with
      | |- context [extract_ranges env jobId audioPath rest ?l1 ?w1] =>
          destruct (IH l1 w1) as (new & k & Htr & Hloc & Hall & Hfs)
      end.
      rewrite length_app, Nat.add_comm in Hloc, Hfs. simpl in Htr, Hloc, Hfs.
      eexists (_ :: new), (S k). rewrite Htr, <- app_assoc.
      repeat split; [by rewrite Hloc, <- app_assoc | exact Hall |].
      intros q Hq Hfail. simpl in Hq.
      apply not_elem_of_cons in Hq as [Hne Hq].
      rewrite (Hfs q Hq Hfail). simpl. by apply lookup_insert_ne.
Qed.

Lemma extract_phase_fs (filePath jobId audioPath : string) (w : world) :
  let o := extract_phase env filePath jobId audioPath [] w in
  exists new k,
    trace (out_world o) = trace w ++ new
    /\ out_locals o = map (seg_path env jobId) (seq 0 k)
    /\ Forall (fun q => exists n, q = seg_path env jobId n)
         (failed_segments new)
    /\ (forall q, q <> audioPath -> q ∉ out_locals o ->
                  q ∉ failed_segments new ->
                  fs (out_world o) !! q = fs w !! q).
Proof.
  unfold extract_phase, bind, extractAudio, getDuration. simpl.
  destruct (ffmpeg_extractAudio env (trace w) filePath audioPath)
    as [e|audioSize]; simpl.
  { eexists [_], 0%nat. rewrite leave_partial_trace.
    repeat split; [constructor|].
    intros q Hq _ _. by rewrite leave_partial_fs. }
  destruct (ffmpeg_ffprobe env _ audioPath) as [e|duration]; simpl.
  { eexists [_; _], 0%nat. rewrite <- app_assoc.
    repeat split; [constructor|].
    intros q Hq _ _. by apply lookup_insert_ne. }
  assert (Hloop : forall d w2,
            trace w2 = trace w
                       ++ [EvExtractAudio filePath audioPath (inr audioSize);
                           EvFfprobe audioPath (inr duration)] ->
            fs w2 = <[audioPath := audioSize]> (fs w) ->
            let o := segment_loop env jobId audioPath d 0 [] w2 in
            exists new k,
              trace (out_world o) = trace w ++ new
              /\ out_locals o = map (seg_path env jobId) (seq 0 k)
              /\ Forall (fun q => exists n, q = seg_path env jobId n)
                   (failed_segments new)
              /\ (forall q, q <> audioPath -> q ∉ out_locals o ->
                            q ∉ failed_segments new ->
                            fs (out_world o) !! q = fs w !! q)).
  { intros d w2 Htr2 Hw2. cbv zeta. rewrite segment_loop_plan.
    destruct (extract_ranges_fs jobId audioPath
                (plan_from SEGMENT_DURATION_SEC SEGMENT_DURATION_SEC_pos d 0)
                [] w2) as (new & k & Htr & Hloc & Hall & Hfs).
    exists (EvExtractAudio filePath audioPath (inr audioSize)
            :: EvFfprobe audioPath (inr duration) :: new), k.
    rewrite Htr, Htr2, <- app_assoc.
    repeat split; [exact Hloc | exact Hall |].
    intros q Hq1 Hq2 Hq3. rewrite Hloc in Hq2.
    rewrite (Hfs q Hq2 Hq3), Hw2. by apply lookup_insert_ne. }
  destruct duration as [d|]; simpl; apply Hloop; simpl;
    by rewrite <- ?app_assoc.
Qed.

Lemma transcribeFile_fs {L} (openai p : string) (l : L) (w : world) :
  fs (out_world (transcribeFile env openai p l w)) = fs w.
Proof.
  rewrite transcribeFile_run. destruct (fs w !! p) as [size|]; [|reflexivity].
  simpl. by destruct (WHISPER_MAX_SIZE <? size)%N.
Qed.

Lemma unlink_quietly_fs {L} (toDelete : list string) (l : L) (w : world) :
  forall q, q ∉ toDelete ->
            fs (out_world (unlink_quietly env toDelete l w)) !! q = fs w !! q.
Proof.
  revert l w. induction toDelete as [|p rest IH]; intros l w q Hq;
    [reflexivity|].
  rewrite unlink_quietly_cons.
  apply not_elem_of_cons in Hq as [Hne Hq].
  rewrite (IH _ _ q Hq).
  destruct (fs_unlink_run env p l w) as (r & _ & _ & _ & Hfs & _).
  destruct r; rewrite Hfs; [reflexivity|]. by apply lookup_delete_ne.
Qed.

Lemma transcribeLargeFile_try_fs (openai filePath jobId audioPath : string)
    (w : world) :
  let o := transcribeLargeFile_try env openai filePath jobId audioPath [] w in
  exists new k,
    trace (out_world o) = trace w ++ new
    /\ out_locals o = map (seg_path env jobId) (seq 0 k)
    /\ Forall (fun q => exists n, q = seg_path env jobId n)
         (failed_segments new)
    /\ (forall q, q <> audioPath -> q ∉ out_locals o ->
                  q ∉ failed_segments new ->
                  fs (out_world o) !! q = fs w !! q).
Proof.
  cbv zeta. rewrite transcribeLargeFile_try_run. cbv zeta.
  destruct (extract_phase_fs filePath jobId audioPath w)
    as (new1 & k & Htr1 & Hloc & Hall & Hfs).
  cbv zeta in Htr1, Hloc, Hfs.
  destruct (out_result (extract_phase env filePath jobId audioPath [] w)).
  { exists new1, k. by repeat split. }
  match goal with
  | |- context [transcribe_segments env openai ?segs [] ?l1 ?w1] =>
      destruct (transcribe_segments_spec env openai segs [] l1 w1)
        as (new2 & Htr2 & Hfs2 & Hl2 & Hall2 & _);
      cbv zeta in Htr2, Hfs2, Hl2;
      assert (Hnone : failed_segments new2 = []) by no_events;
      exists (new1 ++ new2), k;
      destruct (out_result (transcribe_segments env openai segs [] l1 w1));
      cbn [out_locals out_world];
      rewrite Htr2, Htr1, Hl2, Hfs2, failed_segments_app, Hnone, app_nil_r,
        <- app_assoc; by repeat split
  end.
Qed.

(** What [transcribeLargeFile] leaves on disk. *)
Lemma transcribeLargeFile_fs {L} (openai filePath : string) (l : L)
    (w : world) :
  let jobId := job_id env filePath in
  let o := transcribeLargeFile env openai filePath l w in
  let new := added (trace w) (trace (out_world o)) in
  (forall q, q <> audio_path env jobId ->
             (forall n, q <> seg_path env jobId n) ->
             fs (out_world o) !! q = fs w !! q)
  /\ ((forall h q, unlink_failure env h q = None) ->
      fs w !! audio_path env jobId = None ->
      (forall n, fs w !! seg_path env jobId n = None) ->
      forall q, q ∉ failed_segments new -> fs (out_world o) !! q = fs w !! q).
Proof.
  cbv zeta. rewrite transcribeLargeFile_run. cbv zeta. cbn [out_world].
  set (jobId := job_id env filePath).
  set (audioPath := audio_path env jobId).
  set (o_try := transcribeLargeFile_try env openai filePath jobId audioPath [] w).
  destruct (transcribeLargeFile_try_fs openai filePath jobId audioPath w)
    as (new1 & k & Htr1 & Hloc & Hall & Hfs).
  fold o_try in Htr1, Hloc, Hfs.
  destruct (unlink_quietly_spec env (audioPath :: out_locals o_try)
              (out_locals o_try) (out_world o_try))
    as (rs & _ & Htr3 & _ & _ & _ & _ & Hgone).
  cbv zeta in Htr3, Hgone.
  assert (Hfailed :
            failed_segments
              (added (trace w)
                 (trace (out_world
                           (unlink_quietly env (audioPath :: out_locals o_try)
                              (out_locals o_try) (out_world o_try)))))
            = failed_segments new1).
  { rewrite Htr3, Htr1, <- app_assoc, added_app, failed_segments_app.
    assert (failed_segments
              (zip_with EvUnlink (audioPath :: out_locals o_try) rs) = [])
      as -> by no_events.
    apply app_nil_r. }
  rewrite Hfailed. split.
  - intros q Haudio Hsegs.
    assert (Hout : q ∉ out_locals o_try).
    { rewrite Hloc. intros Hin. apply list_elem_of_fmap in Hin as (n & -> & _).
      by apply (Hsegs n). }
    rewrite unlink_quietly_fs; [|apply not_elem_of_cons; by split].
    apply Hfs; [assumption..|].
    intros Hin. apply (proj1 (Forall_forall _ _) Hall) in Hin as (n & ->).
    by apply (Hsegs n).
  - intros Hquiet Haudio Hsegs q Hq.
    destruct (decide (q ∈ audioPath :: out_locals o_try)) as [Hin|Hout].
    + rewrite (Hgone Hquiet q Hin). symmetry.
      apply elem_of_cons in Hin as [->|Hin]; [exact Haudio|].
      rewrite Hloc in Hin. apply list_elem_of_fmap in Hin as (n & -> & _).
      apply Hsegs.
    + rewrite (unlink_quietly_fs _ _ _ q Hout).
      apply not_elem_of_cons in Hout as [Hne Hout]. by apply Hfs.
Qed.

(** X1.  [transcribeLargeFile] touches no file but the temporary files
    of its job, whether it returns a transcript or throws and whatever
    [fs.unlink] and the media tool do.  When [fs.unlink] does not fail
    and the names of those files were free, it leaves the file system as
    it found it everywhere except at the output path of a segment
    extraction that failed, which is not on its deletion list; so it
    leaves the file system exactly as it found it when no segment
    extraction failed. *)
Theorem transcribeLargeFile_restores_fs {L} (openai filePath : string) (l : L)
    (w : world) :
  let jobId := job_id env filePath in
  let o := transcribeLargeFile env openai filePath l w in
  let new := added (trace w) (trace (out_world o)) in
  (forall q, q <> audio_path env jobId ->
             (forall n, q <> seg_path env jobId n) ->
             fs (out_world o) !! q = fs w !! q)
  /\ ((forall h q, unlink_failure env h q = None) ->
      fs w !! audio_path env jobId = None ->
      (forall n, fs w !! seg_path env jobId n = None) ->
      (forall q, q ∉ failed_segments new ->
                 fs (out_world o) !! q = fs w !! q)
      /\ (failed_segments new = [] -> fs (out_world o) = fs w)).
Proof.
  cbv zeta.
  destruct (transcribeLargeFile_fs openai filePath l w) as [Hother Hrest].
  cbv zeta in Hother, Hrest. split; [exact Hother|].
  intros Hquiet Haudio Hsegs. split; [by apply Hrest|].
  intros Hnone. apply map_eq. intros q. apply Hrest; try assumption.
  rewrite Hnone. apply not_elem_of_nil.
Qed.

Lemma handler_finally_fs (p : string) (w : world) :
  (forall h q, unlink_failure env h q = None) ->
  truthy p = true ->
  fs (out_world (handler_finally env (Some p) w)) = delete p (fs w).
Proof.
  intros Hquiet Hp.
  unfold handler_finally, bind, get_locals, try_catch, emit, fs_unlink.
  cbn [out_result out_locals out_world]. rewrite Hp. cbv zeta.
  rewrite Hquiet.
  destruct (fs w !! p) eqn:Efs; cbn [out_result out_locals out_world];
    [reflexivity|].
  simpl. symmetry. by apply delete_id.
Qed.

Lemma respond_text_fs (path : string) (o : outcome (option string) string) :
  fs (out_world (respond_text path o)) = fs (out_world o)
  /\ out_locals (respond_text path o) = Some path.
Proof. unfold respond_text. by destruct (out_result o). Qed.

(** The file system after the route, through that after its [try]
    block. *)
Lemma handler_fs {L} (f : upload) (l : L) (w : world) :
  (forall h q, unlink_failure env h q = None) ->
  truthy (upload_path f) = true ->
  fs (out_world (handler env (Some f) l w))
  = delete (upload_path f)
      (fs (out_world (handler_try env (Some f) None w))).
Proof.
  intros Hquiet Hp. rewrite handler_run. cbv zeta. cbn [out_world].
  assert (Hloc : out_locals (handler_try env (Some f) None w)
                 = Some (upload_path f)).
  { rewrite handler_try_run. cbv zeta.
    destruct (String.eqb (TRANSCRIPTION_MODE env) "local");
      [apply respond_text_fs|].
    destruct (usable_key env); [|reflexivity].
    destruct (upload_size f <=? WHISPER_MAX_SIZE)%N; apply respond_text_fs. }
  rewrite Hloc, handler_finally_fs by assumption.
  by destruct (out_result (handler_try env (Some f) None w)).
Qed.

(** X2.  When [fs.unlink] does not fail and the names of the temporary
    files were free, a request with a stored upload, in every mode and
    whatever its answer, removes the upload and leaves every other file as
    it was, except at the output path of a segment extraction that
    failed; so when no segment extraction failed, the file system after
    the request is the one before it without the upload. *)
Theorem handler_removes_only_upload {L} (f : upload) (l : L) (w : world) :
  let o := handler env (Some f) l w in
  let new := added (trace w) (trace (out_world o)) in
  (forall h q, unlink_failure env h q = None) ->
  truthy (upload_path f) = true ->
  fs w !! audio_path env (job_id env (upload_path f)) = None ->
  (forall n, fs w !! seg_path env (job_id env (upload_path f)) n = None) ->
  (forall q, q ∉ failed_segments new ->
             fs (out_world o) !! q = delete (upload_path f) (fs w) !! q)
  /\ (failed_segments new = [] ->
      fs (out_world o) = delete (upload_path f) (fs w)).
Proof.
  intros o new Hquiet Hp Haudio Hsegs.
  assert (Hpoint : forall q, q ∉ failed_segments new ->
                     fs (out_world o) !! q
                     = delete (upload_path f) (fs w) !! q).
  { intros q Hq. unfold o. rewrite handler_fs by assumption.
    destruct (decide (q = upload_path f)) as [->|Hne].
    { by rewrite !lookup_delete_eq. }
    rewrite !lookup_delete_ne by congruence.
    pose proof (handler_try_run env f w) as Htry. cbv zeta in Htry.
    destruct (String.eqb (TRANSCRIPTION_MODE env) "local").
    { rewrite Htry. by destruct (respond_text_fs (upload_path f)
                                   (runLocalWhisper env (upload_path f)
                                      (Some (upload_path f)) w)) as [-> _]. }
    destruct (usable_key env) as [openai|]; [|by rewrite Htry].
    destruct (upload_size f <=? WHISPER_MAX_SIZE)%N.
    - rewrite Htry.
      match goal with
      | |- context [respond_text _ ?b] =>
          destruct (respond_text_fs (upload_path f) b) as [-> _]
      end.
      cbn [out_world]. by rewrite transcribeFile_fs.
    - destruct (segmented_backend_trace env openai (upload_path f)
                  (Some (upload_path f)) w)
        as (new1 & new2 & unl & Hwork & _).
      destruct (handler_after_backend env f l w _ _ Htry Hwork)
        as (r & Htr & _).
      rewrite Htry.
      match goal with
      | |- context [respond_text _ ?b] =>
          destruct (respond_text_fs (upload_path f) b) as [-> _]
      end.
      destruct (transcribeLargeFile_fs openai (upload_path f)
                  (Some (upload_path f)) w) as [_ Hrest].
      cbv zeta in Hrest. apply Hrest; try assumption.
      rewrite Hwork, added_app. intros Hin. apply Hq.
      unfold new, o. rewrite Htr, added_app, failed_segments_app.
      apply elem_of_app. by left. }
  split; [exact Hpoint|].
  intros Hnone. apply map_eq. intros q. apply Hpoint.
  rewrite Hnone. apply not_elem_of_nil.
Qed.

End FileSystem.

Lemma transcribeLargeFile_restores_fs_witness :
  fs (out_world (transcribeLargeFile failing_env "sk-test" sample_path tt
                   (stored 30000000)))
  = fs (stored 30000000).
Proof.
  apply (transcribeLargeFile_restores_fs failing_env "sk-test" sample_path tt
           (stored 30000000)).
  - intros h q. reflexivity.
  - reflexivity.
  - intros n. apply lookup_singleton_ne. discriminate.
  - vm_compute. reflexivity.
Defined.

Lemma handler_removes_only_upload_witness :
  fs (out_world failed_run) = delete sample_path (fs (stored 30000000)).
Proof.
  apply (handler_removes_only_upload failing_env (sample_upload 30000000) tt
           (stored 30000000)).
  - intros h q. reflexivity.
  - reflexivity.
  - reflexivity.
  - intros n. apply lookup_singleton_ne. discriminate.
  - vm_compute. reflexivity.
Defined.

(** ** The size check before every upload *)

Lemma size_checked_from_weaken (prev : option event) (tr : list event) :
  size_checked tr = true -> size_checked_from prev tr = true.
Proof.
  unfold size_checked. destruct tr as [|e rest]; [reflexivity|]. simpl.
  destruct e; simpl; auto. discriminate.
Qed.

Lemma size_checked_from_app (prev : option event) (t1 t2 : list event) :
  size_checked_from prev t1 = true -> size_checked t2 = true ->
  size_checked_from prev (t1 ++ t2) = true.
Proof.
  revert prev. induction t1 as [|e t1 IH]; intros prev H1 H2; simpl in *.
  - by apply size_checked_from_weaken.
  - apply andb_true_iff in H1 as [He H1]. rewrite He. simpl. by apply IH.
Qed.

Lemma size_checked_app (t1 t2 : list event) :
  size_checked t1 = true -> size_checked t2 = true ->
  size_checked (t1 ++ t2) = true.
Proof. apply size_checked_from_app. Qed.

Lemma size_checked_no_upload (tr : list event) :
  network_calls tr = [] -> size_checked tr = true.
Proof.
  unfold size_checked. generalize (@None event).
  induction tr as [|e tr IH]; intros prev H; [reflexivity|].
  simpl. destruct e; simpl in *; try discriminate; by apply IH.
Qed.

Section SizeCheck.
Context (env : Env).

Lemma transcribeFile_size_checked {L} (openai p : string) (l : L) (w : world) :
  exists work,
    trace (out_world (transcribeFile env openai p l w)) = trace w ++ work
    /\ size_checked work = true.
Proof.
  rewrite transcribeFile_run. destruct (fs w !! p) as [size|]; simpl.
  2:{ by exists [EvStat p (inl (ENOENT "stat" p))]. }
  destruct (N.ltb_spec WHISPER_MAX_SIZE size) as [Hbig|Hsmall]; simpl.
  { by exists [EvStat p (inr size)]. }
  eexists [EvStat p (inr size); EvCreateTranscription openai p _].
  rewrite <- app_assoc. split; [reflexivity|].
  unfold size_checked. simpl. rewrite String.eqb_refl.
  apply N.leb_le in Hsmall. by rewrite Hsmall.
Qed.

Lemma transcribe_segments_size_checked {L} (openai : string)
    (segments texts : list string) (l : L) (w : world) :
  exists new,
    trace (out_world (transcribe_segments env openai segments texts l w))
    = trace w ++ new
    /\ size_checked new = true.
Proof.
  revert texts l w. induction segments as [|p rest IH]; intros texts l w.
  - exists []. simpl. by rewrite app_nil_r.
  - simpl. unfold bind.
    destruct (transcribeFile_size_checked openai p l w) as (work & Htr & Hok).
    destruct (out_result (transcribeFile env openai p l w)) as [e|t].
    { exists work. by split. }
    match goal with
    | |- context [transcribe_segments env openai rest ?t1 ?l1 ?w1] =>
        destruct (IH t1 l1 w1) as (new & Htr' & Hok')
    end.
    exists (work ++ new). rewrite Htr', Htr, <- app_assoc.
    split; [reflexivity | by apply size_checked_app].
Qed.

Lemma served_size_checked (f : upload) (w : world) (work : list event)
    (res : js_error + string) :
  served env f w work res -> size_checked work = true.
Proof.
  intros [Hmode | openai work' Hmode Hkey Hsize Hwork
          | openai work' Hmode Hkey Hsize Hwork].
  - reflexivity.
  - destruct (transcribeFile_size_checked openai (upload_path f)
                (Some (upload_path f)) w) as (work2 & Hwork2 & Hok).
    rewrite Hwork in Hwork2. by apply app_inv_head in Hwork2 as <-.
  - revert Hwork. rewrite transcribeLargeFile_run. cbv zeta. cbn [out_world].
    set (jobId := job_id env (upload_path f)).
    set (audioPath := audio_path env jobId).
    rewrite transcribeLargeFile_try_run. cbv zeta.
    destruct (extract_phase_spec env (upload_path f) jobId audioPath w)
      as (new1 & Htr1 & Hall1 & _).
    cbv zeta in Htr1.
    assert (Hq1 : size_checked new1 = true).
    { apply size_checked_no_upload. no_events. }
    assert (Hunl : forall (d l1 : list string) (w1 : world) (mid : list event),
              trace w1 = trace w ++ mid -> size_checked mid = true ->
              trace (out_world (unlink_quietly env d l1 w1))
              = trace w ++ work' ->
              size_checked work' = true).
    { intros d l1 w1 mid Hw1 Hmid.
      destruct (unlink_quietly_spec env d l1 w1) as (rs & _ & Htr3 & _).
      cbv zeta in Htr3. rewrite Htr3, Hw1, <- app_assoc.
      intros Heq. apply app_inv_head in Heq as <-.
      apply size_checked_app; [assumption|].
      apply size_checked_no_upload. no_events. }
    destruct (out_result (extract_phase env _ jobId audioPath [] w)).
    { cbn [out_locals out_world]. by apply (Hunl _ _ _ new1). }
    match goal with
    | |- context [transcribe_segments env openai ?segs [] ?l1 ?w1] =>
        destruct (transcribe_segments_size_checked openai segs [] l1 w1)
          as (new2 & Htr2 & Hq2);
        destruct (out_result (transcribe_segments env openai segs [] l1 w1))
    end; cbn [out_locals out_world];
      apply (Hunl _ _ _ (new1 ++ new2));
      try (by apply size_checked_app);
      by rewrite Htr2, Htr1, <- app_assoc.
Qed.

(** X3.  Whatever the request, the mode and the answers of the
    environment, every upload to the remote service that the route makes
    comes right after a successful [fs.stat] of the same file that found it
    within the limit of 25 MB. *)
Theorem handler_size_checked {L} (file : option upload) (l : L) (w : world) :
  size_checked (added (trace w) (trace (out_world (handler env file l w))))
  = true.
Proof.
  destruct file as [f|].
  2:{ rewrite handler_no_file. cbn [out_world log_event trace].
      by rewrite added_app. }
  destruct (handler_cases env f l w)
    as (r & _ & _ & [(_ & _ & _ & Htr) | (work & res & Hserved & _ & Htr)]);
    cbv zeta in Htr; rewrite Htr, added_app.
  - apply size_checked_no_upload.
    change (EvResponse key_missing_response :: cleanup_events (upload_path f) r)
      with ([EvResponse key_missing_response] ++ cleanup_events (upload_path f) r).
    rewrite network_calls_app.
    by destruct (cleanup_events_quiet (upload_path f) r) as (_ & _ & -> & _).
  - apply size_checked_app; [by eapply served_size_checked|].
    apply size_checked_no_upload. rewrite network_calls_app.
    destruct (answer_events_quiet res) as (_ & -> & _).
    by destruct (cleanup_events_quiet (upload_path f) r) as (_ & _ & -> & _).
Qed.

End SizeCheck.

(** ** The shape of every response *)

Lemma truthy_nonempty (s : string) : truthy s = true <-> s <> "".
Proof. destruct s; simpl; split; (congruence || auto). Qed.

Lemma includes_nonempty (hay needle : string) :
  needle <> "" -> includes hay needle = true -> hay <> "".
Proof. intros Hn Hi ->. destruct needle; [congruence | discriminate]. Qed.

Lemma error_response_well_formed (e : js_error) :
  well_formed (error_response e) = true.
Proof.
  unfold error_response.
  repeat case_match; try reflexivity; unfold well_formed; simpl;
    rewrite andb_true_r; apply truthy_nonempty.
  - eapply includes_nonempty; [|eassumption]. discriminate.
  - by apply or_else_nonempty.
Qed.

Section Shape.
Context (env : Env).

Lemma handler_response_well_formed {L} (file : option upload) (l : L)
    (w : world) :
  exists resp,
    responses (added (trace w) (trace (out_world (handler env file l w))))
    = [resp]
    /\ well_formed resp = true.
Proof.
  destruct (handler_answers_once env file l w)
    as (resp & Hresp
        & [(_ & ->) | [-> | [(text & -> & Htext) | (e & ->)]]]);
    cbv zeta in Hresp; eexists; (split; [exact Hresp|]);
    try reflexivity.
  - unfold well_formed. simpl. by apply truthy_nonempty.
  - apply error_response_well_formed.
Qed.

(** Errors raised by the local backend are plain [Error]s. *)
Lemma local_result_plain (r : child_result) (e : js_error) :
  local_result env r = inl e ->
  exists msg, e = new_Error msg /\ msg <> "".
Proof.
  unfold local_result. destruct r as [msg|code out err].
  { intros [= <-]. eexists. split; [reflexivity|]. discriminate. }
  destruct (bool_decide (code = Some 0%Z)).
  { destruct (JSON_get env "text" (trim out)); [discriminate|].
    intros [= <-]. eexists. split; [reflexivity|]. discriminate. }
  destruct (JSON_get env "error" _) as [err_error|].
  { intros [= <-]. eexists. split; [reflexivity|].
    apply or_default_nonempty, or_else_nonempty. discriminate. }
  destruct (includes _ _ || includes _ _); intros [= <-];
    eexists; (split; [reflexivity|]); [discriminate|].
  apply or_else_nonempty. discriminate.
Qed.

Lemma plain_error_status (msg : string) :
  res_status (error_response (new_Error msg)) = 500%Z
  \/ (res_status (error_response (new_Error msg)) = 400%Z
      /\ includes msg "Invalid file type" = true
      /\ res_body (error_response (new_Error msg)) = BodyError msg).
Proof.
  unfold error_response, isConnectionError. simpl.
  repeat case_match; simpl; auto.
Qed.

(** X5.  In local mode the route answers a stored upload with status 200
    and the text of the child process, or with status 500, or with status
    400; never with 401, 429 or 503.  It answers 400 only when the error
    message of the child process itself contains "Invalid file type", and
    then that message is the answer. *)
Theorem local_mode_statuses {L} (f : upload) (l : L) (w : world) :
  TRANSCRIPTION_MODE env = "local" ->
  exists resp,
    responses (added (trace w) (trace (out_world (handler env (Some f) l w))))
    = [resp]
    /\ ((res_status resp = 200%Z
         /\ exists text, res_body resp = BodyText text
                         /\ local_result env
                              (spawn_python env (trace w) (upload_path f))
                            = inr text)
        \/ (res_status resp = 500%Z
            /\ exists msg, res_body resp = BodyError msg)
        \/ (res_status resp = 400%Z
            /\ exists msg, res_body resp = BodyError msg
                           /\ includes msg "Invalid file type" = true
                           /\ local_result env
                                (spawn_python env (trace w) (upload_path f))
                              = inl (new_Error msg))).
Proof.
  intros Hmode. rewrite handler_response. eexists. split; [reflexivity|].
  unfold backend_result. cbv zeta. rewrite Hmode. simpl.
  destruct (local_result env _) as [e|text] eqn:Eres; simpl.
  2:{ left. split; [reflexivity|]. by exists text. }
  right. destruct (local_result_plain _ _ Eres) as (msg & -> & _).
  destruct (plain_error_status msg) as [H500 | (H400 & Hinc & Hbody)].
  - left. split; [exact H500|]. apply error_response_body.
  - right. split; [exact H400|]. by exists msg.
Qed.

End Shape.

Lemma local_mode_statuses_witness :
  exists resp,
    responses (added (trace (stored 1000)) (trace (out_world local_run)))
    = [resp]
    /\ ((res_status resp = 200%Z
         /\ exists text, res_body resp = BodyText text
                         /\ local_result local_env
                              (spawn_python local_env (trace (stored 1000))
                                 (upload_path (sample_upload 1000)))
                            = inr text)
        \/ (res_status resp = 500%Z
            /\ exists msg, res_body resp = BodyError msg)
        \/ (res_status resp = 400%Z
            /\ exists msg, res_body resp = BodyError msg
                           /\ includes msg "Invalid file type" = true
                           /\ local_result local_env
                                (spawn_python local_env (trace (stored 1000))
                                   (upload_path (sample_upload 1000)))
                              = inl (new_Error msg))).
Proof. apply (local_mode_statuses local_env). reflexivity. Defined.

(** ** The segmented path at its edges *)

Lemma media_errors_app (t1 t2 : list event) :
  media_errors (t1 ++ t2) = media_errors t1 ++ media_errors t2.
Proof. apply omap_app. Qed.

Ltac quiet :=
  first
    [ eapply (omap_nil_Forall is_media_event); [|eassumption]
    | eapply (omap_nil_Forall is_adapter_event); [|eassumption]
    | eapply (omap_nil_Forall is_unlink_event); [|eassumption] ];
  intros [] ?; (reflexivity || discriminate).

Section Edges.
Context (env : Env).

Lemma extract_ranges_errors (jobId audioPath : string) (ranges : list (Q * Q))
    (l : list string) (w : world) :
  let o := extract_ranges env jobId audioPath ranges l w in
  exists new k,
    trace (out_world o) = trace w ++ new
    /\ media_errors new = match out_result o with
                          | inl e => [e]
                          | inr _ => []
                          end
    /\ out_locals o = l ++ map (seg_path env jobId) (seq (length l) k)
    /\ (k <= length ranges)%nat.
Proof.
  revert l w. induction ranges as [|[s d] rest IH]; intros l w; simpl.
  - exists [], 0%nat. simpl. rewrite !app_nil_r. auto.
  - unfold bind, get_locals, set_locals, extractSegment; simpl.
    destruct (ffmpeg_extractSegment env (trace w) audioPath _ s d)
      as [e|size]; simpl.
    + eexists [_], 0%nat. simpl. rewrite app_nil_r, leave_partial_trace.
      repeat split; try reflexivity; lia.
    + match goal with
      | |- context [extract_ranges env jobId audioPath rest ?l1 ?w1] =>
          destruct (IH l1 w1) as (new & k & Htr & Herr & Hloc & Hk)
      end.
      rewrite length_app, Nat.add_comm in Hloc. simpl in Hloc, Htr.
      eexists (_ :: new), (S k). rewrite Htr, <- app_assoc.
      repeat split; [exact Herr | by rewrite Hloc, <- app_assoc | lia].
Qed.

(** The extraction phase once the audio is extracted and probed. *)
Lemma extract_phase_probed (filePath jobId audioPath : string) (w : world)
    (audioSize : N) (duration : option Q) :
  let ev1 := EvExtractAudio filePath audioPath (inr audioSize) in
  ffmpeg_extractAudio env (trace w) filePath audioPath = inr audioSize ->
  ffmpeg_ffprobe env (trace w ++ [ev1]) audioPath = inr duration ->
  extract_phase env filePath jobId audioPath [] w
  = extract_ranges env jobId audioPath
      (plan SEGMENT_DURATION_SEC SEGMENT_DURATION_SEC_pos (default 0%Q duration))
      []
      (log_event (EvFfprobe audioPath (inr duration))
         (write_file audioPath audioSize (log_event ev1 w))).
Proof.
  intros ev1 Ha Hp. unfold extract_phase, bind, extractAudio, getDuration.
  cbn [out_result out_locals out_world]. rewrite Ha.
  cbn [out_result out_locals out_world write_file log_event trace].
  unfold ev1 in Hp. rewrite Hp.
  destruct duration as [d|]; cbn [out_result out_locals out_world];
    by rewrite segment_loop_plan.
Qed.

Lemma extract_phase_errors (filePath jobId audioPath : string) (w : world) :
  let o := extract_phase env filePath jobId audioPath [] w in
  exists new,
    trace (out_world o) = trace w ++ new
    /\ media_errors new = match out_result o with
                          | inl e => [e]
                          | inr _ => []
                          end.
Proof.
  cbv zeta.
  destruct (ffmpeg_extractAudio env (trace w) filePath audioPath)
    as [e|audioSize] eqn:Ea.
  { unfold extract_phase, bind, extractAudio.
    cbn [out_result out_locals out_world]. rewrite Ea.
    cbn [out_result out_locals out_world]. rewrite leave_partial_trace.
    by eexists [_]. }
  destruct (ffmpeg_ffprobe env
              (trace w ++ [EvExtractAudio filePath audioPath (inr audioSize)])
              audioPath) as [e|duration] eqn:Ep.
  { unfold extract_phase, bind, extractAudio, getDuration.
    cbn [out_result out_locals out_world]. rewrite Ea.
    cbn [out_result out_locals out_world write_file log_event trace].
    rewrite Ep. eexists [_; _]. simpl. by rewrite <- app_assoc. }
  rewrite (extract_phase_probed _ _ _ _ _ _ Ea Ep).
  match goal with
  | |- context [extract_ranges env jobId audioPath ?rs [] ?w1] =>
      destruct (extract_ranges_errors jobId audioPath rs [] w1)
        as (new & k & Htr & Herr & _)
  end.
  exists (EvExtractAudio filePath audioPath (inr audioSize)
          :: EvFfprobe audioPath (inr duration) :: new).
  rewrite Htr. cbn [log_event write_file trace]. rewrite <- !app_assoc.
  split; [reflexivity | exact Herr].
Qed.

(** The trace of [transcribeLargeFile] in its three parts. *)
Lemma transcribeLargeFile_parts {L} (openai filePath : string) (l : L)
    (w : world) :
  let jobId := job_id env filePath in
  let audioPath := audio_path env jobId in
  let o := transcribeLargeFile env openai filePath l w in
  let o1 := extract_phase env filePath jobId audioPath [] w in
  let o2 := transcribe_segments env openai (out_locals o1) [] (out_locals o1)
              (out_world o1) in
  exists new1 new2 unl,
    trace (out_world o) = trace w ++ new1 ++ new2 ++ unl
    /\ trace (out_world o1) = trace w ++ new1
    /\ Forall (fun e => is_media_event e = true) new1
    /\ Forall (fun e => is_unlink_event e = true) unl
    /\ match out_result o1 with
       | inl e => new2 = [] /\ out_result o = inl e
       | inr _ =>
           trace (out_world o2) = trace (out_world o1) ++ new2
           /\ Forall (fun e => is_adapter_event e = true) new2
           /\ out_result o = match out_result o2 with
                             | inl e => inl e
                             | inr texts => inr (assemble texts)
                             end
       end.
Proof.
  cbv zeta. rewrite transcribeLargeFile_run. cbv zeta.
  cbn [out_result out_world]. rewrite transcribeLargeFile_try_run. cbv zeta.
  set (jobId := job_id env filePath).
  set (audioPath := audio_path env jobId).
  destruct (extract_phase_spec env filePath jobId audioPath w)
    as (new1 & Htr1 & Hall1 & _).
  cbv zeta in Htr1.
  destruct (out_result (extract_phase env filePath jobId audioPath [] w)).
  { cbn [out_result out_locals out_world].
    match goal with
    | |- context [unlink_quietly env ?d ?l1 ?w1] =>
        destruct (unlink_quietly_spec env d l1 w1) as (rs & _ & Htr3 & _);
        cbv zeta in Htr3
    end.
    exists new1, [], (zip_with EvUnlink
                        (audioPath
                         :: out_locals
                              (extract_phase env filePath jobId audioPath [] w))
                        rs).
    rewrite Htr3, Htr1, <- app_assoc. cbn [app].
    repeat split; auto using Forall_unlink_events. }
  match goal with
  | |- context [transcribe_segments env openai ?segs [] ?l1 ?w1] =>
      destruct (transcribe_segments_spec env openai segs [] l1 w1)
        as (new2 & Htr2 & _ & _ & Hall2 & _);
      cbv zeta in Htr2
  end.
  rewrite Htr1, <- app_assoc in Htr2.
  assert (Hgoal : forall (l2 : list string) (w2 : world),
            trace w2 = trace w ++ new1 ++ new2 ->
            exists unl,
              trace (out_world (unlink_quietly env (audioPath :: l2) l2 w2))
              = trace w ++ new1 ++ new2 ++ unl
              /\ Forall (fun e => is_unlink_event e = true) unl).
  { intros l2 w2 Hw2.
    destruct (unlink_quietly_spec env (audioPath :: l2) l2 w2)
      as (rs & _ & Htr3 & _).
    cbv zeta in Htr3. eexists. rewrite Htr3, Hw2, <- !app_assoc.
    split; [reflexivity | apply Forall_unlink_events]. }
  destruct (out_result (transcribe_segments env openai _ _ _ _)) eqn:E2;
    cbn [out_result out_locals out_world];
    match goal with
    | |- context [unlink_quietly env (audioPath :: ?l2) _ ?w2] =>
        destruct (Hgoal l2 w2 Htr2) as (unl & Hunl & Hall3)
    end;
    exists new1, new2, unl; rewrite Htr1; repeat split; auto;
    by rewrite <- app_assoc.
Qed.

(** X6.  Once a run of the media tool has failed (the audio extraction,
    the probe, or the extraction of a segment), [transcribeLargeFile]
    throws the error of the tool, and no file is handed to the remote
    adapter or uploaded. *)
Theorem failed_extraction_stops_job {L} (openai filePath : string) (l : L)
    (w : world) (e : js_error) :
  let o := transcribeLargeFile env openai filePath l w in
  let new := added (trace w) (trace (out_world o)) in
  e ∈ media_errors new ->
  out_result o = inl e /\ adapter_calls new = [] /\ network_calls new = [].
Proof.
  cbv zeta.
  destruct (transcribeLargeFile_parts openai filePath l w)
    as (new1 & new2 & unl & Htr & Htr1 & Hall1 & Hall3 & Hcase).
  cbv zeta in Htr, Htr1, Hcase. rewrite Htr, added_app.
  destruct (extract_phase_errors filePath (job_id env filePath)
              (audio_path env (job_id env filePath)) w) as (new1' & Htr1' & Herr).
  cbv zeta in Htr1', Herr. rewrite Htr1 in Htr1'.
  apply app_inv_head in Htr1' as <-.
  assert (Hunl : media_errors unl = []) by quiet.
  assert (Hunl2 : adapter_calls unl = []) by quiet.
  assert (Hunl3 : network_calls unl = []) by quiet.
  assert (Hm2 : adapter_calls new1 = []) by quiet.
  assert (Hm3 : network_calls new1 = []) by quiet.
  rewrite !media_errors_app, !adapter_calls_app, !network_calls_app.
  rewrite Herr, Hunl, Hunl2, Hunl3, Hm2, Hm3.
  destruct (out_result (extract_phase env filePath _ _ [] w)) as [e0|[]].
  - destruct Hcase as [-> ->]. simpl. intros He.
    apply list_elem_of_singleton in He as ->. auto.
  - destruct Hcase as (_ & Hall2 & _).
    assert (Hm : media_errors new2 = []) by quiet.
    rewrite Hm. simpl. intros He. by apply elem_of_nil in He.
Qed.


Lemma transcribe_segments_calls {L} (openai : string)
    (segments texts : list string) (l : L) (w : world) (new : list event) :
  trace (out_world (transcribe_segments env openai segments texts l w))
  = trace w ++ new ->
  (length (network_calls new) <= length segments)%nat.
Proof.
  revert texts l w new.
  induction segments as [|p rest IH]; intros texts l w new.
  - simpl. rewrite <- (app_nil_r (trace w)) at 1.
    intros Heq. apply app_inv_head in Heq as <-. reflexivity.
  - simpl. unfold bind. rewrite transcribeFile_run.
    destruct (fs w !! p) as [size|]; simpl.
    2:{ intros Heq. apply app_inv_head in Heq as <-. simpl. lia. }
    destruct (WHISPER_MAX_SIZE <? size)%N; simpl.
    { intros Heq. apply app_inv_head in Heq as <-. simpl. lia. }
    destruct (openai_transcriptions_create env _ openai p) as [e|text]; simpl.
    { rewrite <- app_assoc. intros Heq. apply app_inv_head in Heq as <-.
      simpl. lia. }
    match goal with
    | |- context [transcribe_segments env openai rest ?t1 l ?w1] =>
        destruct (transcribe_segments_spec env openai rest t1 l w1)
          as (new' & Htr & _);
        pose proof (IH t1 l w1 new' Htr) as Hlen
    end.
    cbv zeta in Htr. rewrite Htr. simpl. rewrite <- !app_assoc.
    intros Heq. apply app_inv_head in Heq as <-. simpl. lia.
Qed.

(** X7.  Once the audio is extracted and probed, a job uploads at most
    [ceil (duration / 600)] files, whatever fails on the way. *)
Theorem uploads_bounded_by_plan {L} (openai filePath : string) (l : L)
    (w : world) (audioSize : N) (duration : option Q) :
  let audioPath := audio_path env (job_id env filePath) in
  let ev1 := EvExtractAudio filePath audioPath (inr audioSize) in
  let o := transcribeLargeFile env openai filePath l w in
  ffmpeg_extractAudio env (trace w) filePath audioPath = inr audioSize ->
  ffmpeg_ffprobe env (trace w ++ [ev1]) audioPath = inr duration ->
  (length (network_calls (added (trace w) (trace (out_world o))))
   <= Z.to_nat (Qceiling (default 0%Q duration / SEGMENT_DURATION_SEC)))%nat.
Proof.
  intros audioPath ev1 o Ha Hp. unfold o.
  destruct (transcribeLargeFile_parts openai filePath l w)
    as (new1 & new2 & unl & Htr & Htr1 & Hall1 & Hall3 & Hcase).
  cbv zeta in Htr, Htr1, Hcase. rewrite Htr, added_app.
  assert (Hunl : network_calls unl = []) by quiet.
  assert (Hm : network_calls new1 = []) by quiet.
  rewrite !network_calls_app, Hunl, Hm, app_nil_r. simpl.
  fold audioPath in Hcase, Htr1.
  destruct (out_result (extract_phase env filePath _ audioPath [] w)) as [e0|[]].
  { destruct Hcase as [-> _]. simpl. lia. }
  destruct Hcase as (Htr2 & _ & _).
  apply transcribe_segments_calls in Htr2.
  etransitivity; [exact Htr2|].
  rewrite (extract_phase_probed filePath _ audioPath w audioSize duration Ha Hp).
  match goal with
  | |- context [extract_ranges env ?j audioPath ?rs [] ?w1] =>
      destruct (extract_ranges_errors j audioPath rs [] w1)
        as (new & k & _ & _ & Hloc & Hk)
  end.
  cbv zeta in Hloc. rewrite Hloc. simpl. rewrite length_map, length_seq.
  etransitivity; [exact Hk|].
  unfold plan. rewrite plan_from_length. unfold iterations_left.
  apply Nat.eq_le_incl. f_equal. apply Qceiling_comp. field. discriminate.
Qed.

(** X8.  When the probe reports no duration, zero, or less,
    [transcribeLargeFile] returns the sentinel: nothing is segmented,
    nothing is handed to the remote adapter, and the run consists of the
    audio extraction, the probe and the removal of the extracted audio. *)
Theorem empty_audio_is_no_speech {L} (openai filePath : string) (l : L)
    (w : world) (audioSize : N) (duration : option Q) :
  let audioPath := audio_path env (job_id env filePath) in
  let ev1 := EvExtractAudio filePath audioPath (inr audioSize) in
  let o := transcribeLargeFile env openai filePath l w in
  ffmpeg_extractAudio env (trace w) filePath audioPath = inr audioSize ->
  ffmpeg_ffprobe env (trace w ++ [ev1]) audioPath = inr duration ->
  (default 0 duration <= 0)%Q ->
  out_result o = inr NO_SPEECH
  /\ exists r,
       trace (out_world o)
       = trace w ++ [ev1; EvFfprobe audioPath (inr duration);
                     EvUnlink audioPath r].
Proof.
  intros audioPath ev1 o Ha Hp Hd. unfold o.
  rewrite transcribeLargeFile_run. cbv zeta. cbn [out_result out_world].
  rewrite transcribeLargeFile_try_run. cbv zeta. fold audioPath.
  rewrite (extract_phase_probed filePath _ audioPath w audioSize duration Ha Hp).
  unfold plan. rewrite plan_from_done by exact Hd.
  cbn [extract_ranges ret out_result out_locals out_world transcribe_segments].
  split; [reflexivity|].
  rewrite unlink_quietly_cons.
  match goal with
  | |- context [fs_unlink env audioPath ?l1 ?w1] =>
      destruct (fs_unlink_run env audioPath l1 w1) as (r & Htr & _)
  end.
  exists r. cbn [unlink_quietly ret out_world]. rewrite Htr.
  cbn [log_event write_file trace]. by rewrite <- !app_assoc.
Qed.

End Edges.

Lemma failed_extraction_stops_job_witness :
  out_result (transcribeLargeFile unprobed_env "sk-test" sample_path tt
                (stored 30000000)) = inl probe_failure.
Proof.
  apply (failed_extraction_stops_job unprobed_env "sk-test" sample_path tt
           (stored 30000000) probe_failure).
  vm_compute. apply list_elem_of_singleton. reflexivity.
Defined.

Lemma uploads_bounded_by_plan_witness :
  (length (network_calls
             (added (trace (stored 30000000))
                (trace (out_world
                          (transcribeLargeFile failing_env "sk-test"
                             sample_path tt (stored 30000000))))))
   <= 3)%nat.
Proof.
  apply (uploads_bounded_by_plan failing_env "sk-test" sample_path tt
           (stored 30000000) 1048576 (Some 1500%Q)); reflexivity.
Defined.

Lemma empty_audio_is_no_speech_witness :
  out_result (transcribeLargeFile silent_env "sk-test" sample_path tt
                (stored 30000000)) = inr NO_SPEECH.
Proof.
  apply (empty_audio_is_no_speech silent_env "sk-test" sample_path tt
           (stored 30000000) 1048576 (Some 0%Q));
    [reflexivity | reflexivity | discriminate].
Defined.

(** ** The assembler on concatenated lists *)

Lemma append_assoc (a b c : string) : (a +:+ b) +:+ c = a +:+ (b +:+ c).
Proof.
  induction a as [|x a IH]; [reflexivity|].
  change ((String x a +:+ b) +:+ c) with (String x ((a +:+ b) +:+ c)).
  by rewrite IH.
Qed.

Lemma join_app (sep : string) (a b : list string) :
  a <> [] -> b <> [] -> join sep (a ++ b) = join sep a +:+ sep +:+ join sep b.
Proof.
  intros Ha Hb. induction a as [|x a IH]; [congruence|].
  destruct a as [|y a].
  - destruct b as [|z b]; [congruence | reflexivity].
  - change (join sep ((x :: y :: a) ++ b))
      with (x +:+ sep +:+ join sep ((y :: a) ++ b)).
    change (join sep (x :: y :: a)) with (x +:+ sep +:+ join sep (y :: a)).
    rewrite IH by discriminate.
    by rewrite !append_assoc.
Qed.

Lemma join_truthy (sep : string) (parts : list string) :
  Forall (fun s => truthy s = true) parts -> parts <> [] ->
  truthy (join sep parts) = true.
Proof.
  intros Hall Hne. destruct Hall as [|x rest Hx _]; [congruence|].
  destruct rest as [|y rest]; [exact Hx|].
  change (join sep (x :: y :: rest)) with (x +:+ sep +:+ join sep (y :: rest)).
  by apply TrimFacts.truthy_app_l.
Qed.

Lemma filter_truthy_Forall (texts : list string) :
  Forall (fun s => truthy s = true) (List.filter truthy texts).
Proof.
  apply List.Forall_forall. intros s Hs. by apply List.filter_In in Hs as [_ ?].
Qed.

Lemma filter_truthy_nil (texts : list string) :
  List.filter truthy texts = [] <-> existsb truthy texts = false.
Proof.
  induction texts as [|t texts IH]; [done|]. simpl.
  destruct (truthy t); simpl; [split; discriminate | exact IH].
Qed.

Lemma assemble_some (texts : list string) :
  existsb truthy texts = true ->
  assemble texts = join SEPARATOR (List.filter truthy texts).
Proof.
  intros Hex. unfold assemble, or_else.
  rewrite join_truthy; [reflexivity | apply filter_truthy_Forall |].
  intros Hnil. apply filter_truthy_nil in Hnil. congruence.
Qed.

(** X9.  The assembler on two lists of texts put together: when both
    hold some text the result is the two results separated by a blank
    line; a list without any text (empty, or of empty texts only) leaves
    the result of the other as it is. *)
Theorem assemble_app (a b : list string) :
  assemble (a ++ b)
  = if existsb truthy a
    then if existsb truthy b
         then assemble a +:+ SEPARATOR +:+ assemble b
         else assemble a
    else assemble b.
Proof.
  destruct (existsb truthy a) eqn:Ea, (existsb truthy b) eqn:Eb.
  - rewrite !assemble_some by (rewrite ?existsb_app, ?Ea, ?Eb; reflexivity).
    rewrite List.filter_app. apply join_app; intros Hnil;
      apply filter_truthy_nil in Hnil; congruence.
  - unfold assemble. rewrite List.filter_app.
    apply filter_truthy_nil in Eb. by rewrite Eb, app_nil_r.
  - unfold assemble. rewrite List.filter_app.
    apply filter_truthy_nil in Ea. by rewrite Ea.
  - unfold assemble. rewrite List.filter_app.
    apply filter_truthy_nil in Ea, Eb. by rewrite Ea, Eb.
Qed.

(** ** The shape of a segmented transcript *)

Lemma segment_text_kept (result : option string) :
  truthy (segment_text result) = true -> kept (segment_text result).
Proof.
  destruct result as [t|]; [|discriminate]. simpl.
  rewrite TrimFacts.or_else_empty. intros Ht.
  destruct (TrimFacts.trim_is_clean t). by repeat split.
Qed.

Lemma assemble_kept (results : list (option string)) :
  kept (assemble (map segment_text results)).
Proof.
  unfold assemble.
  assert (Hkept : Forall kept (List.filter truthy (map segment_text results))).
  { induction results as [|r results IH]; [constructor|]. simpl.
    destruct (truthy (segment_text r)) eqn:E; [|exact IH].
    constructor; [by apply segment_text_kept | exact IH]. }
  destruct (List.filter truthy (map segment_text results)) as [|x rest] eqn:E.
  - by repeat split.
  - destruct (TrimFacts.join_kept SEPARATOR (x :: rest) Hkept) as (H1 & H2 & H3);
      [discriminate|].
    unfold or_else. rewrite H1. by repeat split.
Qed.

(** X10.  A transcript returned by [transcribeLargeFile] is not empty and
    neither starts nor ends with white space. *)
Theorem segmented_transcript_is_trimmed (env : Env) (L : Type)
    (openai filePath : string) (l : L) (w : world) (text : string) :
  out_result (transcribeLargeFile env openai filePath l w) = inr text ->
  kept text.
Proof.
  intros Hres.
  destruct (transcribeLargeFile_success env openai filePath l w text Hres)
    as (audioSize & duration & eitems & titems & rs & _ & _ & _ & _ & _ & ->).
  rewrite <- (map_map snd segment_text). apply assemble_kept.
Qed.

Lemma segmented_transcript_is_trimmed_witness :
  kept ("hello" +:+ LF +:+ LF +:+ "hello" +:+ LF +:+ LF +:+ "hello").
Proof.
  apply (segmented_transcript_is_trimmed api_env unit "sk-test" sample_path tt
           (stored 30000000)).
  vm_compute. reflexivity.
Defined.

(** ** The local library *)

Module LocalWhisperFacts.
Import LocalWhisper LocalWhisperRun.

Section Blocks.
Context {A : Type}.

Lemma blocks_upto_irrel (fuel1 fuel2 n : nat) (l : list A) :
  (0 < n)%nat -> (length l <= fuel1)%nat -> (length l <= fuel2)%nat ->
  blocks_upto fuel1 n l = blocks_upto fuel2 n l.
Proof.
  intros Hn. revert fuel2 l.
  induction fuel1 as [|fuel1 IH]; intros fuel2 l H1 H2.
  - destruct l; [by destruct fuel2 | simpl in H1; lia].
  - destruct l as [|x l]; [by destruct fuel2|].
    destruct fuel2 as [|fuel2]; [simpl in H2; lia|].
    cbn [blocks_upto]. f_equal.
    apply IH; rewrite length_drop; simpl in *; lia.
Qed.

Lemma blocks_upto_more (fuel n : nat) (l : list A) :
  (0 < n)%nat -> (length l <= fuel)%nat ->
  blocks_upto fuel n l = blocks n l.
Proof. intros Hn Hlen. by apply blocks_upto_irrel. Qed.

Lemma blocks_cons (n : nat) (l : list A) :
  (0 < n)%nat -> l <> [] -> blocks n l = take n l :: blocks n (drop n l).
Proof.
  intros Hn Hl. destruct l as [|x l]; [congruence|].
  unfold blocks at 1. cbn [blocks_upto length]. f_equal.
  apply blocks_upto_more; [assumption|]. rewrite length_drop. simpl. lia.
Qed.

Lemma blocks_ind (n : nat) (P : list A -> Prop) :
  (0 < n)%nat ->
  P [] ->
  (forall l, l <> [] -> P (drop n l) -> P l) ->
  forall l, P l.
Proof.
  intros Hn Hnil Hstep l.
  remember (length l) as k eqn:Hk. revert l Hk.
  induction k as [k IH] using lt_wf_ind. intros l ->.
  destruct l as [|x l]; [exact Hnil|].
  apply Hstep; [discriminate|].
  eapply IH; [|reflexivity]. rewrite length_drop. simpl. lia.
Qed.

(** The blocks of a list, put together again, are the list; none is empty
    and none is longer than [n]. *)
Lemma blocks_spec (n : nat) (l : list A) :
  (0 < n)%nat ->
  concat (blocks n l) = l
  /\ Forall (fun b => (0 < length b <= n)%nat) (blocks n l)
  /\ (length (blocks n l) * n < length l + n)%nat
  /\ (length l <= length (blocks n l) * n)%nat.
Proof.
  intros Hn. pattern l. apply (blocks_ind n); [assumption | |]; clear l.
  { repeat split; simpl; (constructor || lia). }
  intros l Hl IH. rewrite (blocks_cons n l Hn Hl). simpl.
  destruct IH as (Hcat & Hall & Hlo & Hhi).
  rewrite Hcat, take_drop. rewrite length_drop in Hlo, Hhi.
  repeat split.
  - constructor; [|exact Hall]. rewrite length_take.
    destruct l; [congruence | cbn [length]; lia].
  - assert (0 < length l)%nat by (destruct l; [congruence | simpl; lia]).
    destruct (decide (length l <= n)%nat) as [Hshort|Hlong]; [|lia].
    destruct (length (blocks n (drop n l))) as [|b]; [lia|].
    exfalso. replace (length l - n)%nat with 0%nat in Hlo by lia.
    simpl in Hlo. lia.
  - lia.
Qed.

End Blocks.

Section Loop.
Context {sample : Type} (transcriber : transcriber_fn sample).

Lemma chunk_loop_step (audioData : list sample) (start : N)
    (texts : list string) :
  chunk_loop transcriber audioData start texts
  = if decide (start < N.of_nat (length audioData))%N
    then match transcriber
                 (slice audioData start
                    (N.min (start + samplesPerChunk)
                       (N.of_nat (length audioData)))) with
         | inl e => inl e
         | inr result =>
             let t := chunk_text result in
             chunk_loop transcriber audioData (start + samplesPerChunk)
               (if truthy t then texts ++ [t] else texts)
         end
    else inr texts.
Proof.
  rewrite chunk_loop_equation_1.
  destruct (decide (start < N.of_nat (length audioData))%N); [|reflexivity].
  simpl. by destruct (transcriber _).
Qed.

Lemma chunk_loop_from (audioData : list sample) (rest : list sample)
    (s : nat) (texts : list string) :
  rest = drop s audioData -> (s <= length audioData)%nat ->
  chunk_loop transcriber audioData (N.of_nat s) texts
  = feed transcriber texts (blocks (N.to_nat samplesPerChunk) rest).
Proof.
  assert (Hspc : (0 < N.to_nat samplesPerChunk)%nat).
  { unfold samplesPerChunk, WHISPER_CHUNK_SEC. lia. }
  revert s texts. pattern rest.
  apply (blocks_ind (N.to_nat samplesPerChunk)); [assumption | |]; clear rest;
    [|intros rest Hne IH]; intros s texts Hrest Hs.
  - rewrite chunk_loop_step.
    assert (length (drop s audioData) = 0%nat) as Hlen by by rewrite <- Hrest.
    rewrite length_drop in Hlen.
    destruct (decide _) as [Hlt|_]; [lia | reflexivity].
  - rewrite chunk_loop_step, (blocks_cons _ rest Hspc Hne).
    assert (length rest <> 0%nat) as Hlen by by destruct rest.
    rewrite Hrest, length_drop in Hlen.
    destruct (decide _) as [_|Hge]; [|lia].
    assert (Hslice :
              slice audioData (N.of_nat s)
                (N.min (N.of_nat s + samplesPerChunk)
                   (N.of_nat (length audioData)))
              = take (N.to_nat samplesPerChunk) rest).
    { unfold slice. rewrite Nat2N.id, <- Hrest.
      destruct (N.min_spec (N.of_nat s + samplesPerChunk)
                  (N.of_nat (length audioData))) as [[Hlt ->]|[Hle ->]].
      - f_equal. lia.
      - rewrite !take_ge; [reflexivity|..];
          rewrite Hrest, length_drop; lia. }
    rewrite Hslice. cbn [feed].
    destruct (transcriber _) as [e|result]; [reflexivity|]. cbv zeta.
    destruct (decide (s + N.to_nat samplesPerChunk <= length audioData)%nat)
      as [Hin|Hout].
    + replace (N.of_nat s + samplesPerChunk)%N
        with (N.of_nat (s + N.to_nat samplesPerChunk)) by lia.
      apply IH; [|assumption].
      by rewrite Hrest, drop_drop.
    + (* the loop ends: the next start is beyond the data *)
      rewrite chunk_loop_step.
      destruct (decide _) as [Hlt|_]; [lia|].
      assert (drop (N.to_nat samplesPerChunk) rest = []) as ->.
      { apply drop_ge. rewrite Hrest, length_drop. lia. }
      reflexivity.
Qed.

(** X11.  The loop of [transcribeLocal] calls the model on the
    consecutive blocks of 480000 samples of the audio, in order: the
    blocks put together are the audio, none is empty, none is longer
    than 480000 samples, and there are [ceil (n / 480000)] of them for
    [n] samples. *)
Theorem chunk_loop_feeds_blocks (audioData : list sample) :
  let chunks := blocks (N.to_nat samplesPerChunk) audioData in
  let n := N.of_nat (length audioData) in
  let k := N.of_nat (length chunks) in
  chunk_loop transcriber audioData 0 [] = feed transcriber [] chunks
  /\ concat chunks = audioData
  /\ Forall (fun chunk => (0 < N.of_nat (length chunk) <= 480000)%N) chunks
  /\ (n <= k * 480000 < n + 480000)%N.
Proof.
  cbv zeta.
  assert (Hspc : (0 < N.to_nat samplesPerChunk)%nat).
  { unfold samplesPerChunk, WHISPER_CHUNK_SEC. lia. }
  assert (Hk : N.of_nat (N.to_nat samplesPerChunk) = 480000%N)
    by (rewrite N2Nat.id; reflexivity).
  split.
  - apply (chunk_loop_from audioData audioData 0 []); [reflexivity | lia].
  - destruct (blocks_spec (N.to_nat samplesPerChunk) audioData Hspc)
      as (H1 & H2 & H3 & H4).
    repeat split; try assumption; try lia.
    eapply Forall_impl; [exact H2|]. simpl. intros chunk [? ?]. lia.
Qed.

Lemma chunk_text_clean (result : option (option string)) :
  trim (chunk_text result) = chunk_text result.
Proof.
  destruct result as [[t|]|]; try reflexivity. simpl.
  destruct (TrimFacts.trim_is_clean t). by apply TrimFacts.trim_clean.
Qed.

Lemma short_audio_run (audioData : list sample) :
  (N.of_nat (length audioData) <= samplesPerChunk)%N ->
  LocalWhisper.transcribeLocal transcriber audioData
  = match audioData with
    | [] => inr NO_SPEECH
    | _ :: _ =>
        match transcriber audioData with
        | inl e => inl e
        | inr result => inr (or_else (chunk_text result) NO_SPEECH)
        end
    end.
Proof.
  intros Hshort. unfold LocalWhisper.transcribeLocal.
  change 0%N with (N.of_nat 0).
  rewrite (chunk_loop_from audioData audioData 0 []) by (reflexivity || lia).
  assert (Hspc : (0 < N.to_nat samplesPerChunk)%nat).
  { unfold samplesPerChunk, WHISPER_CHUNK_SEC. lia. }
  destruct audioData as [|x rest]; [reflexivity|].
  rewrite blocks_cons by (assumption || discriminate).
  rewrite take_ge, drop_ge by lia. cbn [blocks blocks_upto length feed].
  destruct (transcriber (x :: rest)) as [e|result]; [reflexivity|].
  cbv zeta. destruct (truthy (chunk_text result)) eqn:Et.
  - cbn [app join String.concat]. rewrite chunk_text_clean. reflexivity.
  - destruct (chunk_text result); [reflexivity | discriminate].
Qed.

End Loop.

Section State.
Context {sample : Type} (lib : LibEnv sample).

Lemma transcribeLocal_loaded (inputPath : string)
    (extractToWav : string -> js_error + string) (st : lib_state sample) :
  transcriberPromise st <> None ->
  fst (transcribeLocal lib inputPath extractToWav st) = st.
Proof.
  intros Hst. unfold transcribeLocal, getTranscriber.
  by destruct (transcriberPromise st).
Qed.

Lemma transcribe_all_loaded
    (requests : list (string * (string -> js_error + string)))
    (st : lib_state sample) :
  transcriberPromise st <> None ->
  transcribe_all lib requests st
  = (st, map (fun req => snd (transcribeLocal lib (fst req) (snd req) st))
           requests).
Proof.
  intros Hst. induction requests as [|[inputPath extractToWav] rest IH];
    [reflexivity|].
  cbn [transcribe_all map fst snd].
  pose proof (transcribeLocal_loaded inputPath extractToWav st Hst) as Hfst.
  destruct (transcribeLocal lib inputPath extractToWav st) as [st1 r].
  cbn [fst snd] in *. subst st1. by rewrite IH.
Qed.

(** X12.  However many files are transcribed one after the other, the
    model is loaded once, by the first call, and every call works with
    the outcome of that one load; a load that failed is not tried again:
    every call then fails with its error. *)
Theorem model_loaded_once
    (requests : list (string * (string -> js_error + string))) :
  let loaded := {| transcriberPromise := Some (pipeline lib 0);
                   pipeline_calls := 1 |} in
  transcribe_all lib requests initial
  = (match requests with [] => initial | _ :: _ => loaded end,
     map (fun req => snd (transcribeLocal lib (fst req) (snd req) loaded))
       requests)
  /\ (forall e, pipeline lib 0 = inl e ->
                snd (transcribe_all lib requests initial)
                = map (fun _ => inl e) requests).
Proof.
  intros loaded.
  assert (Hall : transcribe_all lib requests initial
                 = (match requests with [] => initial | _ :: _ => loaded end,
                    map (fun req =>
                           snd (transcribeLocal lib (fst req) (snd req) loaded))
                      requests)).
  { destruct requests as [|[inputPath extractToWav] rest]; [reflexivity|].
    cbn [transcribe_all map fst snd].
    assert (Hfirst : transcribeLocal lib inputPath extractToWav initial
                     = (loaded,
                        snd (transcribeLocal lib inputPath extractToWav loaded)))
      by reflexivity.
    rewrite Hfirst.
    by rewrite (transcribe_all_loaded rest loaded). }
  split; [exact Hall|].
  intros e He. rewrite Hall. cbn [snd]. apply map_ext.
  intros [inputPath extractToWav]. unfold transcribeLocal, getTranscriber.
  cbn [loaded transcriberPromise fst snd]. by rewrite He.
Qed.

(** X13.  On a file that decodes to at most one chunk (480000 samples),
    [transcribeLocal], with the model loaded, makes the one call of the
    model that [transcribeWavFile] makes on the extracted WAV file and
    returns what it returns, except that it answers the sentinel where
    [transcribeWavFile] answers the empty string; when the file decodes to
    no sample at all, it answers the sentinel without calling the model. *)
Theorem short_file_agrees (inputPath wavPath : string)
    (extractToWav : string -> js_error + string) (st : lib_state sample)
    (transcriber : transcriber_fn sample) (duration : Q)
    (audioData : list sample) :
  transcriberPromise st = Some (inr transcriber) ->
  extractToWav inputPath = inr wavPath ->
  getDurationFromWav lib wavPath = inr duration ->
  wav_samples lib wavPath = inr audioData ->
  (N.of_nat (length audioData) <= samplesPerChunk)%N ->
  snd (transcribeLocal lib inputPath extractToWav st)
  = match audioData with
    | [] => inr NO_SPEECH
    | _ :: _ =>
        match transcribeWavFile lib transcriber wavPath with
        | inl e => inl e
        | inr text => inr (or_else text NO_SPEECH)
        end
    end.
Proof.
  intros Hst Hwav Hdur Hsamples Hshort.
  unfold transcribeLocal, getTranscriber, transcribeWavFile.
  rewrite Hst. cbn [snd]. rewrite Hwav, Hdur, Hsamples.
  rewrite (short_audio_run transcriber audioData Hshort).
  destruct audioData as [|x rest]; [reflexivity|].
  destruct (transcriber (x :: rest)) as [e|result]; [reflexivity|].
  by rewrite TrimFacts.or_else_empty.
Qed.

End State.

End LocalWhisperFacts.

Lemma short_file_agrees_witness :
  snd (LocalWhisperRun.transcribeLocal sample_lib "talk.mp4"
         (fun _ => inr "talk.wav")
         {| LocalWhisperRun.transcriberPromise := Some (inr sample_transcriber);
            LocalWhisperRun.pipeline_calls := 1 |})
  = inr "hello there".
Proof.
  apply (LocalWhisperFacts.short_file_agrees sample_lib "talk.mp4" "talk.wav"
           (fun _ => inr "talk.wav") _ sample_transcriber 1%Q [1; 2; 3]%nat);
    try reflexivity. vm_compute. discriminate.
Defined.

(** ** The whole route, and the page in front of it *)

Lemma error_middleware_run {L} (err : js_error) (l : L) (w : world) :
  exists resp,
    added (trace w) (trace (out_world (error_middleware err l w)))
    = (if bool_decide (err_code err = Some "LIMIT_FILE_SIZE")
       then [] else [EvConsoleError err]) ++ [EvResponse resp]
    /\ fs (out_world (error_middleware err l w)) = fs w
    /\ out_result (error_middleware err l w) = inr tt
    /\ res_status resp
       = (if bool_decide (err_code err = Some "LIMIT_FILE_SIZE")
          then 400 else 500)%Z
    /\ res_body resp
       = BodyError
           (if bool_decide (err_code err = Some "LIMIT_FILE_SIZE")
            then "File too large. Maximum size is 200 MB."
            else or_default (err_message err) "An error occurred").
Proof.
  unfold error_middleware.
  destruct (bool_decide (err_code err = Some "LIMIT_FILE_SIZE")).
  - eexists. unfold res_json, emit. cbn [out_world out_result log_event trace fs].
    rewrite added_app. repeat split.
  - eexists. unfold bind, res_json, emit.
    cbn [out_world out_result out_locals log_event trace fs].
    rewrite <- app_assoc, added_app. repeat split.
Qed.

Section WholeRoute.
Context (env : Env).

Lemma post_transcribe_answer {L} (u : uploaded) (l : L) (w : world) :
  exists resp,
    responses (added (trace w) (trace (out_world (post_transcribe env u l w))))
    = [resp]
    /\ well_formed resp = true.
Proof.
  destruct u as [err|file]; [|apply handler_response_well_formed].
  cbn [post_transcribe].
  destruct (error_middleware_run err l w)
    as (resp & Htr & _ & _ & Hstatus & Hbody).
  exists resp. rewrite Htr, responses_app. split.
  { by destruct (bool_decide _). }
  unfold well_formed. rewrite Hbody, Hstatus.
  destruct (bool_decide _); [reflexivity|].
  rewrite andb_true_r. apply truthy_nonempty.
  by apply or_default_nonempty.
Qed.

(** X4.  Whatever the upload middleware hands on (an error, a request
    without a file, or a stored upload), the route completes without
    throwing and has answered exactly once, and the answer is well
    formed: a transcript that is not empty with status 200, or an error
    message that is not empty with status 400, 401, 429, 500 or 503. *)
Theorem post_transcribe_well_formed {L} (u : uploaded) (l : L) (w : world) :
  out_result (post_transcribe env u l w) = inr tt
  /\ exists resp,
       responses
         (added (trace w) (trace (out_world (post_transcribe env u l w))))
       = [resp]
       /\ well_formed resp = true.
Proof.
  split; [|apply post_transcribe_answer].
  destruct u as [err|[f|]]; cbn [post_transcribe].
  - by destruct (error_middleware_run err l w) as (_ & _ & _ & Hres & _).
  - by destruct (handler_cases env f l w) as (_ & Hres & _).
  - by rewrite handler_no_file.
Qed.

(** X14.  A file that the file filter rejects never reaches the route handler:
    the error-handling middleware answers it with status 500 and the
    filter's message, although the handler's own [catch] block would have
    answered the same error with status 400; nothing is uploaded or written. *)
Theorem rejected_file_type_is_500 {L} (originalname : string) (err : js_error)
    (l : L) (w : world) :
  fileFilter env originalname = Some err ->
  let o := post_transcribe env (UploadError err) l w in
  added (trace w) (trace (out_world o))
  = [EvConsoleError err;
     EvResponse {| res_status := 500;
                   res_body := BodyError INVALID_FILE_TYPE |}]
  /\ fs (out_world o) = fs w
  /\ error_response err
     = {| res_status := 400; res_body := BodyError INVALID_FILE_TYPE |}.
Proof.
  unfold fileFilter. destruct (allowed _); [discriminate|].
  intros [= <-]. cbv zeta. cbn [post_transcribe].
  unfold error_middleware. rewrite bool_decide_eq_false_2 by discriminate.
  unfold bind, res_json, emit.
  cbn [out_world out_result out_locals log_event trace fs].
  rewrite <- app_assoc, added_app. by repeat split.
Qed.

Lemma handler_local_calls {L} (f : upload) (l : L) (w : world) :
  local_calls (added (trace w) (trace (out_world (handler env (Some f) l w))))
  = if String.eqb (TRANSCRIPTION_MODE env) "local" then [upload_path f] else [].
Proof.
  destruct (handler_cases env f l w)
    as (r & _ & _ & [(Hmode & Hkey & _ & Htr) | (work & res & Hserved & _ & Htr)]);
    cbv zeta in Htr; rewrite Htr, added_app; clear Htr;
    destruct (cleanup_events_quiet (upload_path f) r)
      as (_ & _ & _ & Hc & _).
  - change (EvResponse key_missing_response :: cleanup_events (upload_path f) r)
      with ([EvResponse key_missing_response] ++ cleanup_events (upload_path f) r).
    by rewrite local_calls_app, Hc, Hmode.
  - destruct (answer_events_quiet res) as (_ & _ & Ha & _).
    rewrite !local_calls_app, Hc, Ha, !app_nil_r.
    pose proof (served_calls env f w work res Hserved) as Hcalls.
    cbv zeta in Hcalls.
    destruct Hcalls as [(Hm & H1 & _)
                       | [(Hm & _ & _ & H1 & _) | (Hm & _ & _ & H1)]];
      rewrite H1.
    + by rewrite Hm.
    + apply String.eqb_neq in Hm. by rewrite Hm.
    + apply String.eqb_neq in Hm. by rewrite Hm.
Qed.

(** X15.  The badge of the page, fed with the answer of [GET /api/mode],
    says "Local mode" exactly when the route hands uploads to the local
    backend. *)
Theorem badge_tells_backend {L} (f : upload) (l : L) (w : world) :
  Client.modeBadge_textContent (inr (Some (api_mode env))) = "Local mode"
  <-> local_calls
        (added (trace w) (trace (out_world (handler env (Some f) l w))))
      = [upload_path f].
Proof.
  rewrite handler_local_calls. unfold Client.modeBadge_textContent, api_mode.
  destruct (String.eqb (TRANSCRIPTION_MODE env) "local"); split;
    (reflexivity || discriminate).
Qed.

End WholeRoute.

Lemma rejected_file_type_is_500_witness :
  error_response (new_Error INVALID_FILE_TYPE)
  = {| res_status := 400; res_body := BodyError INVALID_FILE_TYPE |}.
Proof.
  apply (rejected_file_type_is_500 document_env "notes.txt"
           (new_Error INVALID_FILE_TYPE) tt (stored 1000)).
  reflexivity.
Defined.

(** ** The page *)

Module ClientFacts.
Import Client.

(** X16.  When [transcribe] is over, whatever came back (a rejected
    request, a body that is not JSON, an error status or a transcript):
    the spinner is hidden and the drop zone is shown again; exactly one of
    the result and the error section is shown; a transcript that is shown
    is not empty; and the section that is hidden kept its text. *)
Theorem transcribe_settles (r : fetched) (p : page) :
  let p' := transcribe r p in
  dropzoneLoading_hidden p' = true
  /\ dropzoneContent_hidden p' = false
  /\ ((resultSection_hidden p' = false
       /\ errorSection_hidden p' = true
       /\ transcriptEl_textContent p' <> ""
       /\ errorMessage_textContent p' = errorMessage_textContent p)
      \/ (errorSection_hidden p' = false
          /\ resultSection_hidden p' = true
          /\ transcriptEl_textContent p' = transcriptEl_textContent p)).
Proof.
  cbv zeta. split; [|split]; [by destruct r as [| |[|]]..|].
  destruct r as [msg|ok msg|[|] d]; [right|right|left|right]; simpl;
    repeat split.
  by apply or_default_nonempty.
Qed.

Section Served.
Context (env : Env).

(** X17.  The page in front of the route: after an upload the page shows the
    transcript that the server answered, and it is not empty, or it shows
    the error message that the server answered, and it is not empty; the
    other section is hidden and the spinner is off. *)
Theorem page_shows_answer {L} (u : uploaded) (l : L) (w : world) (p : page) :
  exists resp,
    responses (added (trace w) (trace (out_world (post_transcribe env u l w))))
    = [resp]
    /\ let p' := transcribe (received resp) p in
       dropzoneLoading_hidden p' = true
       /\ dropzoneContent_hidden p' = false
       /\ match res_body resp with
          | BodyText text =>
              resultSection_hidden p' = false
              /\ errorSection_hidden p' = true
              /\ transcriptEl_textContent p' = text
              /\ text <> ""
          | BodyError msg =>
              errorSection_hidden p' = false
              /\ resultSection_hidden p' = true
              /\ errorMessage_textContent p' = msg
              /\ msg <> ""
          end.
Proof.
  destruct (post_transcribe_answer env u l w) as (resp & Hresp & Hwf).
  exists resp. split; [exact Hresp|]. cbv zeta.
  unfold well_formed in Hwf. unfold received.
  destruct resp as [status [text|msg]]; cbn [res_body res_status] in *.
  - apply andb_true_iff in Hwf as [Hs Ht]. apply Z.eqb_eq in Hs as ->.
    apply truthy_nonempty in Ht. simpl. repeat split; try assumption.
    unfold or_else. destruct text; [congruence | reflexivity].
  - apply andb_true_iff in Hwf as [Hm Hs]. apply truthy_nonempty in Hm.
    assert (Hok : ((200 <=? status)%Z && (status <=? 299)%Z) = false).
    { simpl in Hs. rewrite !orb_true_iff in Hs.
      destruct Hs as [Hs|[Hs|[Hs|[Hs|[Hs|Hs]]]]]; try discriminate Hs;
        apply Z.eqb_eq in Hs as ->; reflexivity. }
    rewrite Hok. simpl. repeat split; try assumption.
    unfold or_else. destruct msg; [congruence | reflexivity].
Qed.

End Served.

End ClientFacts.

(** ** The names of stored uploads *)

Module NameFacts.

Lemma length_append (a b : string) :
  String.length (a +:+ b) = (String.length a + String.length b)%nat.
Proof.
  induction a as [|c a IH]; [reflexivity|].
  change (String c a +:+ b) with (String c (a +:+ b)). simpl. by rewrite IH.
Qed.

Lemma append_inv_tail (a b c : string) : a +:+ c = b +:+ c -> a = b.
Proof.
  revert b. induction a as [|x a IH]; intros [|y b] H.
  - reflexivity.
  - apply (f_equal String.length) in H.
    change ("" +:+ c) with c in H. rewrite length_append in H. simpl in H. lia.
  - apply (f_equal String.length) in H.
    change ("" +:+ c) with c in H. rewrite length_append in H. simpl in H. lia.
  - change (String x (a +:+ c) = String y (b +:+ c)) in H.
    injection H as -> H. f_equal. by apply IH.
Qed.

(** Two runs of digits, each followed by a dash, do not overlap. *)
Lemma digits_dash_inj (a a' b b' : string) :
  all_digits a = true -> all_digits a' = true ->
  a +:+ "-" +:+ b = a' +:+ "-" +:+ b' -> a = a' /\ b = b'.
Proof.
  revert a'. induction a as [|x a IH]; intros [|y a'] Ha Ha' H.
  - change (String "-" b = String "-" b') in H. by injection H as ->.
  - change (String "-" b = String y (a' +:+ "-" +:+ b')) in H.
    injection H as <- _. discriminate Ha'.
  - change (String x (a +:+ "-" +:+ b) = String "-" b') in H.
    injection H as -> _. discriminate Ha.
  - change (String x (a +:+ "-" +:+ b) = String y (a' +:+ "-" +:+ b')) in H.
    injection H as -> H. simpl in Ha, Ha'.
    apply andb_true_iff in Ha as [_ Ha]. apply andb_true_iff in Ha' as [_ Ha'].
    destruct (IH a' Ha Ha' H) as [-> ->]. done.
Qed.

End NameFacts.

(** X18.  Two uploads with the same extension are stored under the same name
    only if they arrive in the same millisecond and draw the same random
    number. *)
Theorem filename_inj (env : Env) (now1 rnd1 now2 rnd2 : N)
    (name1 name2 : string) :
  path_extname env name1 = path_extname env name2 ->
  filename env now1 rnd1 name1 = filename env now2 rnd2 name2 ->
  now1 = now2 /\ rnd1 = rnd2.
Proof.
  unfold filename. cbv zeta. intros <- H.
  apply (inj (String.app "video-")) in H.
  rewrite !append_assoc in H.
  apply NameFacts.digits_dash_inj in H as [Hnow Hrest];
    try apply MessageFacts.pretty_N_digits.
  apply NameFacts.append_inv_tail in Hrest.
  split; by apply (inj pretty).
Qed.

Lemma filename_inj_witness : 1700000000000%N = 1700000000000%N /\ 42%N = 42%N.
Proof.
  apply (filename_inj api_env 1700000000000 42 1700000000000 42
           "talk.mp4" "walk.mp4"); reflexivity.
Defined.

(** ** The names of temporary files *)

Section TempNames.
Context (env : Env).

Lemma plain_app (jobId suffix : string) :
  plain jobId = true ->
  lacks "/" suffix = true -> lacks "092" suffix = true ->
  (2 <= String.length suffix)%nat ->
  plain (jobId +:+ suffix) = true.
Proof.
  unfold plain. rewrite !andb_true_iff.
  intros ((((Ht & Hs) & Hb) & _) & _) Hs' Hb' Hlen.
  rewrite TrimFacts.truthy_app_l, !MessageFacts.lacks_app, Hs, Hb, Hs', Hb'
    by assumption.
  assert (Hlong : (3 <= String.length (jobId +:+ suffix))%nat).
  { rewrite NameFacts.length_append. destruct jobId; [discriminate|].
    simpl. lia. }
  repeat split; apply negb_true_iff, String.eqb_neq; intros Heq;
    rewrite Heq in Hlong; simpl in Hlong; lia.
Qed.

Lemma pretty_nat_digits (n : nat) : all_digits (pretty n) = true.
Proof. apply (MessageFacts.pretty_N_digits (N.of_nat n)). Qed.

Lemma seg_name_plain (jobId : string) (n : nat) :
  plain jobId = true ->
  plain (jobId +:+ "-seg-" +:+ pretty n +:+ ".mp3") = true.
Proof.
  intros Hj. apply plain_app; [assumption|..].
  - rewrite !MessageFacts.lacks_app.
    by destruct (MessageFacts.digits_lack "/" (pretty n) eq_refl
                   (pretty_nat_digits n)) as [-> _].
  - rewrite !MessageFacts.lacks_app.
    by destruct (MessageFacts.digits_lack "092" (pretty n) eq_refl
                   (pretty_nat_digits n)) as [-> _].
  - rewrite !NameFacts.length_append. simpl. lia.
Qed.

(** X19.  When joining the temporary directory with a plain file name is
    injective, as it is for [path.join], the temporary files of a job
    whose identifier is a plain name all have different paths: no segment
    overwrites the extracted audio or another segment. *)
Theorem temp_paths_distinct (jobId : string) (k : nat) :
  (forall a b, plain a = true -> plain b = true ->
               path_join env (TEMP_DIR env) a = path_join env (TEMP_DIR env) b ->
               a = b) ->
  plain jobId = true ->
  NoDup (audio_path env jobId :: map (seg_path env jobId) (seq 0 k)).
Proof.
  intros Hjoin Hj.
  assert (Haudio : plain (jobId +:+ "-audio.mp3") = true).
  { apply plain_app; [assumption | reflexivity | reflexivity | simpl; lia]. }
  apply NoDup_cons. split.
  - intros Hin. apply list_elem_of_fmap in Hin as (n & Heq & _).
    unfold audio_path, seg_path in Heq.
    apply Hjoin in Heq; [|assumption | by apply seg_name_plain].
    apply (inj (String.app jobId)) in Heq. discriminate Heq.
  - apply NoDup_fmap_2_strong; [|apply NoDup_seq].
    intros n m _ _ Heq. unfold seg_path in Heq.
    apply Hjoin in Heq; [|by apply seg_name_plain..].
    apply (inj (String.app jobId)) in Heq.
    apply (inj (String.app "-seg-")) in Heq.
    apply NameFacts.append_inv_tail in Heq.
    by apply (inj pretty) in Heq.
Qed.

End TempNames.

Lemma temp_paths_distinct_witness :
  NoDup (audio_path api_env "video-1"
         :: map (seg_path api_env "video-1") (seq 0 3)).
Proof.
  apply (temp_paths_distinct api_env "video-1" 3); [|reflexivity].
  intros a b _ _ Heq.
  apply (inj (String.app "uploads/temp")) in Heq.
  by apply (inj (String.app "/")) in Heq.
Defined.
